(** * The transaction queue of op-service/txmgr and the dispute-game state

    Part I embeds the code: [gameState] with its parent lookups, its level
    test and its index of claim IDs, and the [Queue] of queue.go as a
    transition system in which every goroutine runs one statement at a time.
    Part II states what is proved about them and Part III proves it. *)

From Stdlib Require Import ZArith Lia List Bool.
From stdpp Require Import base list gmap.
Import ListNotations.
Local Open Scope Z_scope.

(** * Part I.  The code *)

(** ** The dispute-game state: [gameState] and its parent lookups *)

Module Game.

(** [ErrClaimNotFound] is the only error value the game state returns; Go's
    [nil] error is [None] of [option error]. *)
Inductive error : Type :=
| ErrClaimNotFound.

(** The declarations of [Claim], [Position] and [Depth] and the methods
    [Claim.IsRoot], [Claim.RightOf] and [Position.TraceIndex] live in files
    that are not part of the sources at hand; the functions of [gameState]
    only use them through this interface.  [ParentContractIndex] is a Go
    [int], [Claim_zero] is the zero value [Claim{}], and the [*big.Int]
    returned by [TraceIndex] is an integer. *)
Class ClaimOps : Type := {
  Claim : Type;
  Position : Type;
  Depth : Type;
  claim_Position : Claim -> Position;
  ParentContractIndex : Claim -> Z;
  IsRoot : Claim -> bool;
  RightOf : Claim -> Position -> bool;
  TraceIndex : Position -> Depth -> Z;
  Claim_zero : Claim
}.

Section GameState.

Context `{ops : ClaimOps}.

(** [gameState]: the claims in contract order and the depth of the game.  The
    [claimIDs] index is only read by [IsDuplicate] and is left out. *)
Record gameState : Type := mkGameState {
  claims : list Claim;
  depth : Depth
}.

(** [len(g.claims)] as a Go [int]. *)
Definition len_claims (g : gameState) : Z := Z.of_nat (length (claims g)).

(** [gameState.getParent]: a [*Claim], [nil] being [None].  The slice is
    indexed only after the bounds check, so the read cannot fail. *)
Definition getParent (g : gameState) (claim : Claim) : option Claim :=
  if IsRoot claim then None
  else if (ParentContractIndex claim >=? len_claims g) || (ParentContractIndex claim <? 0)
  then None
  else claims g !! Z.to_nat (ParentContractIndex claim).

(** [gameState.GetParent]: the pair (claim, error). *)
Definition GetParent (g : gameState) (claim : Claim) : Claim * option error :=
  match getParent g claim with
  | None => (Claim_zero, Some ErrClaimNotFound)
  | Some parent => (parent, None)
  end.

(** [gameState.DefendsParent]. *)
Definition DefendsParent (g : gameState) (claim : Claim) : bool :=
  match getParent g claim with
  | None => false
  | Some parent => RightOf claim (claim_Position parent)
  end.

(** [gameState.AncestorWithTraceIndex]: the [for] loop has no bound of its
    own, so the embedding counts its iterations; [None] means that [fuel]
    iterations were not enough. *)
Fixpoint AncestorWithTraceIndex (fuel : nat) (g : gameState) (claim : Claim) (idx : Z)
  : option (Claim * bool) :=
  match fuel with
  | O => None
  | S fuel' =>
      if TraceIndex (claim_Position claim) (depth g) =? idx then Some (claim, true)
      else if IsRoot claim then Some (Claim_zero, false)
      else match getParent g claim with
           | None => Some (Claim_zero, false)
           | Some next => AncestorWithTraceIndex fuel' g next idx
           end
  end.

(** The parent index of [claim] points into the claims list. *)
Definition parent_in_range (g : gameState) (claim : Claim) : Prop :=
  0 <= ParentContractIndex claim < len_claims g.

(** What the search is expected to return, read along the parent chain: the
    first claim whose trace index at the game's depth is [idx], or the zero
    claim and [false] when the chain ends (root claim, or parent index out of
    range) before such a claim. *)
Inductive first_on_chain (g : gameState) (idx : Z) : Claim -> Claim * bool -> Prop :=
| chain_match c :
    TraceIndex (claim_Position c) (depth g) = idx ->
    first_on_chain g idx c (c, true)
| chain_root c :
    TraceIndex (claim_Position c) (depth g) <> idx ->
    IsRoot c = true ->
    first_on_chain g idx c (Claim_zero, false)
| chain_out_of_range c :
    TraceIndex (claim_Position c) (depth g) <> idx ->
    IsRoot c = false ->
    ~ parent_in_range g c ->
    first_on_chain g idx c (Claim_zero, false)
| chain_parent c p r :
    TraceIndex (claim_Position c) (depth g) <> idx ->
    IsRoot c = false ->
    parent_in_range g c ->
    claims g !! Z.to_nat (ParentContractIndex c) = Some p ->
    first_on_chain g idx p r ->
    first_on_chain g idx c r.

(** Every claim of the list points to an earlier position of the list. *)
Definition parents_before (g : gameState) : Prop :=
  forall (i : nat) (c : Claim), claims g !! i = Some c -> ParentContractIndex c < Z.of_nat i.

End GameState.

(** A small game: a claim is its position (a generalized index), its parent
    index and a flag for the root; the trace index of a position is taken to
    be the position itself, and a claim is right of a position when its own
    position is larger. *)
Definition toy_ops : ClaimOps :=
  {| Claim := Z * Z * bool;
     Position := Z;
     Depth := Z;
     claim_Position := fun c => fst (fst c);
     ParentContractIndex := fun c => snd (fst c);
     IsRoot := fun c => snd c;
     RightOf := fun c p => p <? fst (fst c);
     TraceIndex := fun p _ => p;
     Claim_zero := (0, 0, false) |}.

Definition toy_game : @gameState toy_ops :=
  @mkGameState toy_ops [(1, -1, true); (2, 0, false); (5, 1, false)] 3.

(** ** The rest of the game state: claim levels and the index of claim IDs *)

(** [Claim.Depth()] is declared with [Claim]; its result is of an integer
    type, taken here as the number it stands for. *)
Class ClaimLevel `{ops : ClaimOps} : Type := {
  claim_Depth : Claim -> Z
}.

(** What [computeClaimID] calls: [common.Hash] with its [Bytes], the field
    [Claim.Value], [Position.ToGIndex], [big.Int.Bytes], and
    [crypto.Keccak256Hash] on a list of byte strings. *)
Class ClaimHashing `{ops : ClaimOps} : Type := {
  Hash : Type;
  Hash_eq_dec :: EqDecision Hash;
  Hash_countable :: Countable Hash;
  claim_Value : Claim -> Hash;
  Hash_Bytes : Hash -> list Byte.byte;
  ToGIndex : Position -> Z;
  big_Bytes : Z -> list Byte.byte;
  Keccak256Hash : list (list Byte.byte) -> Hash
}.

Section ClaimLevels.

Context `{lvl : ClaimLevel}.

(** [gameState.AgreeWithClaimLevel]; [%] is Go's remainder, which has the
    sign of the dividend. *)
Definition AgreeWithClaimLevel (g : gameState) (claim : Claim) (agreeWithRootClaim : bool)
  : bool :=
  let isOddLevel := Z.rem (claim_Depth claim) 2 =? 1 in
  if agreeWithRootClaim then negb isOddLevel else isOddLevel.

End ClaimLevels.

Section ClaimIndex.

Context `{hashing : ClaimHashing}.

(** [claimID]. *)
Definition claimID : Type := Hash.

(** [computeClaimID]; the conversion [int64(claim.ParentContractIndex)] of an
    [int] keeps the value. *)
Definition computeClaimID (claim : Claim) : claimID :=
  Keccak256Hash [ big_Bytes (ToGIndex (claim_Position claim));
                  Hash_Bytes (claim_Value claim);
                  big_Bytes (ParentContractIndex claim) ].

(** [gameState] with its third field, the map [claimIDs]. *)
Record indexedState : Type := mkIndexedState {
  game : gameState;
  claimIDs : gmap claimID bool
}.

(** [NewGameState]: the loop of lines 65-67 sets the entry of every claim. *)
Definition NewGameState (claims : list Claim) (depth : Depth) : indexedState :=
  {| game := mkGameState claims depth;
     claimIDs := foldl (fun ids claim => <[computeClaimID claim := true]> ids) ∅ claims |}.

(** [gameState.IsDuplicate]: reading a Go map at a key it does not hold
    gives [false]. *)
Definition IsDuplicate (g : indexedState) (claim : Claim) : bool :=
  default false (claimIDs g !! computeClaimID claim).

(** [gameState.Claims]: a copy of the list. *)
Definition Claims (g : indexedState) : list Claim := [] ++ claims (game g).

(** [gameState.MaxDepth]. *)
Definition MaxDepth (g : indexedState) : Depth := depth (game g).

End ClaimIndex.

Section Chains.

Context `{ops : ClaimOps}.

(** The loop of [AncestorWithTraceIndex] goes on to the parent of [c]: the
    trace index of [c] is not [idx], [c] is not a root claim, and it has a
    parent in the game. *)
Definition goes_on (g : gameState) (idx : Z) (c : Claim) : Prop :=
  TraceIndex (claim_Position c) (depth g) <> idx /\ IsRoot c = false
  /\ exists p, getParent g c = Some p.

(** The claim [k] steps up the parent chain of [c]. *)
Fixpoint ancestor (g : gameState) (k : nat) (c : Claim) : option Claim :=
  match k with
  | O => Some c
  | S k' => match getParent g c with Some p => ancestor g k' p | None => None end
  end.

End Chains.

(** The depth of a claim of the small game: the depth of its generalized
    index. *)
Definition toy_level : @ClaimLevel toy_ops :=
  @Build_ClaimLevel toy_ops (fun c : @Claim toy_ops => Z.log2 (fst (fst (c : Z * Z * bool)))).

(** A game whose only claim is its own parent. *)
Definition looping_game : @gameState toy_ops :=
  @mkGameState toy_ops [(2, 0, false)] 3.

End Game.

(** ** The transaction queue: [Queue] *)

Module TxQueue.

(** Go's [int] has [intSize] bits (32 or 64, by platform); [math.MaxInt]. *)
Definition MaxInt (intSize : Z) : Z := 2 ^ (intSize - 1) - 1.

(** [uint64] arithmetic wraps modulo [2^64]. *)
Definition wrap64 (z : Z) : Z := z mod 2 ^ 64.

(** [^uint64(0)], the operand of the decrement on line 97. *)
Definition minus_one : Z := 2 ^ 64 - 1.

(** The conversion [int(u)] of a [uint64]: the low [intSize] bits, read as a
    two's complement number. *)
Definition to_int (intSize : Z) (u : Z) : Z :=
  let m := u mod 2 ^ intSize in
  if m <? 2 ^ (intSize - 1) then m else m - 2 ^ intSize.

(** The clamp at the head of [NewQueue] (lines 39-42). *)
Definition clamp_maxPending (intSize : Z) (maxPending : Z) : Z :=
  if maxPending >? MaxInt intSize then MaxInt intSize else maxPending.

(** What a step of a goroutine can do: move to a next state, stay blocked on
    a synchronisation primitive (or have nothing to run), or panic (a
    [sync.WaitGroup] finds its counter negative or finds itself misused, or a
    nil group would be used).  A panic is not recovered anywhere in the code,
    so it ends the process. *)
Inductive Outcome (A : Type) : Type :=
| Next (a : A)
| Blocked
| Panic.
Arguments Next {A} a.
Arguments Blocked {A}.
Arguments Panic {A}.

(** [sync.WaitGroup], as the Go library defines it.  Its state word holds
    the counter and the number of waiters; its semaphore holds the wake-ups
    that were released and not yet taken.
    - [Add(delta)] adds [delta] to the counter.  It panics when the counter
      becomes negative, and when a positive [delta] takes the counter from
      zero while there are waiters.  When the counter becomes zero and there
      are waiters, the waiters are set to zero and one wake-up is released for
      each of them.  [Done()] is [Add(-1)].
    - [Wait()] returns at once when the counter is zero.  Otherwise it adds
      itself to the waiters and parks on the semaphore; once it has taken a
      wake-up, it panics ("WaitGroup is reused before previous Wait has
      returned") unless the counter and the waiters are both zero, and
      returns.
    Every access of the state word is a step of its own, except that the
    sanity check, the reset and the releases of an [Add] that reaches zero
    are taken together with its addition. *)
Record WaitGroup : Type := mkWaitGroup {
  wg_counter : Z;
  wg_waiters : Z;
  wg_sema : Z
}.

(** [wg.Add(delta)]. *)
Definition wg_Add (delta : Z) (W : WaitGroup) : Outcome WaitGroup :=
  let v := wg_counter W + delta in
  let w := wg_waiters W in
  if v <? 0 then Panic
  else if negb (w =? 0) && (0 <? delta) && (v =? delta) then Panic
  else if (0 <? v) || (w =? 0) then Next (mkWaitGroup v w (wg_sema W))
  else Next (mkWaitGroup v 0 (wg_sema W + w)).

(** The head of [wg.Wait()]: [None] when it returns at once, otherwise the
    group with the goroutine among its waiters. *)
Definition wg_Wait (W : WaitGroup) : option WaitGroup :=
  if wg_counter W =? 0 then None
  else Some (mkWaitGroup (wg_counter W) (wg_waiters W + 1) (wg_sema W)).

(** The rest of [wg.Wait()] for a parked goroutine: it takes a wake-up, if
    there is one, and looks at the state word. *)
Definition wg_resume (W : WaitGroup) : Outcome WaitGroup :=
  if wg_sema W <=? 0 then Blocked
  else if (wg_counter W =? 0) && (wg_waiters W =? 0)
       then Next (mkWaitGroup (wg_counter W) (wg_waiters W) (wg_sema W - 1))
       else Panic.

(** Sum of an integer weight over a list. *)
Definition wsum {A : Type} (f : A -> Z) (l : list A) : Z :=
  foldr (fun x acc => f x + acc) 0 l.

(** A condition as a number. *)
Definition b2z (b : bool) : Z := if b then 1 else 0.

Section Queue.

(** [T] is the type parameter of [Queue]; [TxCandidate], [types_Receipt] and
    the values of Go's [error] interface are opaque to the queue. *)
Context {T TxCandidate types_Receipt error : Type}.

(** [TxReceipt[T]]: [Receipt] is a pointer and [Err] an interface value, both
    may be nil. *)
Record TxReceipt : Type := mkTxReceipt {
  ID : T;
  Receipt : option types_Receipt;
  Err : option error
}.

(** The arguments of one call of [Send] or [TrySend]; a receipt channel is
    named by a number. *)
Record Item : Type := mkItem {
  it_id : T;
  it_candidate : TxCandidate;
  it_ch : nat
}.

(** [Send] or [TrySend]. *)
Inductive Mode : Type :=
| Blocking
| NonBlocking.

(** The queue rests on golang.org/x/sync/errgroup, which is used here as the
    library defines it:
    - [WithContext(ctx)] makes a group and a context derived from [ctx]; the
      group keeps the cancel function of that context;
    - [SetLimit(n)] gives the group a semaphore channel of capacity [n] (none
      when [n] is negative);
    - [Go(f)] puts a token into the semaphore, waiting for room, then adds one
      to the group's [sync.WaitGroup] and starts a goroutine; [TryGo(f)] does
      the same but returns false instead of waiting;
    - the goroutine runs [f]; on the first non-nil error of the group it calls
      the cancel function; then ([done]) it takes a token back and calls
      [wg.Done()];
    - [Wait()] waits for the [WaitGroup] and then calls the cancel function.

    An [errgroup.Group] with its context: the capacity of its semaphore
    ([None]: no semaphore), the number of tokens in the semaphore, its
    [WaitGroup] (counter, waiters and wake-ups), and whether the cancel
    function was called. *)
Record Group : Type := mkGroup {
  g_limit : option Z;
  g_sem : Z;
  g_wg : Z;
  g_waiters : Z;
  g_wake : Z;
  g_cancelled : bool
}.

(** The [WaitGroup] of a group, and an assignment to it. *)
Definition group_wg (G : Group) : WaitGroup :=
  mkWaitGroup (g_wg G) (g_waiters G) (g_wake G).

Definition set_group_wg (W : WaitGroup) (G : Group) : Group :=
  mkGroup (g_limit G) (g_sem G) (wg_counter W) (wg_waiters W) (wg_sema W) (g_cancelled G).

(** Where a goroutine that uses the queue stands.  [k] numbers the calls of
    [Send] and [TrySend] in the order they are made (it is not data of the
    program). *)
Inductive Caller : Type :=
| Idle
| Entered (m : Mode) (k : nat) (it : Item)
    (* after [q.receiptWg.Add(1)], about to lock [groupLock] *)
| Locked (m : Mode) (k : nat) (it : Item)
    (* in [groupContext], holding [groupLock] *)
| LockedWaiting (m : Mode) (k : nat) (it : Item) (g : nat)
    (* in [groupContext], holding [groupLock], parked in [q.group.Wait()] of
       line 124, [q.group] being [g] *)
| Got (m : Mode) (k : nat) (it : Item) (g : nat)
    (* [groupContext] returned group [g]; about to call [Go] or [TryGo] *)
| Acquired (m : Mode) (k : nat) (it : Item) (g : nat)
    (* in [Go]/[TryGo], past the semaphore; [wg.Add(1)] and [go] are next *)
| Refused (k : nat) (it : Item)
    (* [TryGo] returned false; [q.receiptWg.Done()] is next *)
| Waiting
    (* in [Wait], at [q.receiptWg.Wait()] *)
| Parked
    (* in [Wait], parked in [q.receiptWg.Wait()] *)
| Drained (n : nat)
    (* in [Wait], past line 53; [n] calls had been made by then *)
| WaitingGroup (n : nat)
    (* in [Wait], past the test of line 54, at [q.group.Wait()] *)
| ParkedGroup (n : nat) (g : nat)
    (* in [Wait], parked in [q.group.Wait()], line 57 having read [g] from
       [q.group] *)
| GroupWaited (n : nat) (g : nat)
    (* in [Wait], in [g.Wait()] of errgroup past its [wg.Wait()]; the cancel
       function is next *).

(** Where a goroutine started by [Go]/[TryGo] stands in
    [func() error { return q.sendTx(...) }] and the wrapper of errgroup. *)
Inductive Phase : Type :=
| Started
| Sending
    (* inside [q.txMgr.Send] *)
| Sent (r : option types_Receipt) (e : option error)
    (* [txMgr.Send] returned; line 100 is next *)
| Notifying (e : option error)
    (* the notifier goroutine is started; the deferred function is next *)
| Returned (e : option error)
    (* [sendTx] returned [e] to the wrapper of errgroup *)
| Releasing
    (* the wrapper recorded the error; its deferred [done()] is next *)
| Finished.

(** A goroutine started by [Go]/[TryGo]: its group (whose context it passes
    to the submitter), the call it works for, and where it stands. *)
Record Task : Type := mkTask {
  t_group : nat;
  t_attempt : nat;
  t_item : Item;
  t_phase : Phase
}.

(** The goroutine of line 100. *)
Inductive NPhase : Type :=
| Writing
| Written
| Done.

(** A goroutine of line 100 with the channel and the receipt it holds. *)
Record Notifier : Type := mkNotifier {
  n_attempt : nat;
  n_ch : nat;
  n_receipt : TxReceipt;
  n_phase : NPhase
}.

(** A receipt that was sent on a channel. *)
Record Delivery : Type := mkDelivery {
  d_ch : nat;
  d_receipt : TxReceipt;
  d_attempt : nat
}.

(** What a task does that the outside can see, in the order it does it. *)
Inductive Event : Type :=
| EvPending (delta v : Z)
    (* [q.pending.Add(delta)] returned [v] and [q.pendingChanged(v)] was called *)
| EvSend (g : nat) (c : TxCandidate)
    (* [q.txMgr.Send] is called with the context of group [g] *)
| EvSent (r : option types_Receipt) (e : option error)
    (* [q.txMgr.Send] returned [(r, e)] *)
| EvNotify (ch : nat) (r : TxReceipt)
    (* the goroutine that writes [r] to channel [ch] is started *)
| EvReturn (e : option error)
    (* [sendTx] returns [e] *).

(** The queue, the errgroup objects it made, the goroutines around it, and
    the record of what happened. *)
Record State : Type := mkState {
  intSize : Z;                      (* width of [int] *)
  maxPending : Z;                   (* [q.maxPending] *)
  ctxDone : bool;                   (* [q.ctx] is cancelled *)
  receiptWg : Z;                    (* counter of [q.receiptWg] *)
  receiptWaiters : Z;               (* waiters of [q.receiptWg] *)
  receiptWake : Z;                  (* wake-ups of [q.receiptWg] not yet taken *)
  pending : Z;                      (* [q.pending] *)
  groupLock : bool;                 (* [q.groupLock] is held *)
  group : option nat;               (* [q.group] with [q.groupCtx]; [None] is nil *)
  groups : list Group;              (* the errgroup objects, by address *)
  callers : list Caller;            (* the goroutines that call the queue *)
  tasks : list Task;                (* the goroutines started by [Go]/[TryGo] *)
  notifiers : list Notifier;        (* the goroutines started on line 100 *)
  written : list Delivery;          (* the receipts sent on the channels *)
  trace : list (nat * Event);       (* events, each with the index of its task *)
  attempts : list (Mode * Item);    (* the calls of [Send]/[TrySend] *)
  results : list (nat * bool)       (* the values [TrySend] returned, by call *)
}.

(** Assignments to the fields of the state. *)
Definition set_ctxDone (v : bool) (s : State) : State :=
  mkState (intSize s) (maxPending s) v (receiptWg s) (receiptWaiters s) (receiptWake s)
    (pending s) (groupLock s) (group s) (groups s) (callers s) (tasks s) (notifiers s)
    (written s) (trace s) (attempts s) (results s).
Definition set_receiptWg (v : Z) (s : State) : State :=
  mkState (intSize s) (maxPending s) (ctxDone s) v (receiptWaiters s) (receiptWake s)
    (pending s) (groupLock s) (group s) (groups s) (callers s) (tasks s) (notifiers s)
    (written s) (trace s) (attempts s) (results s).
Definition set_receiptWaiters (v : Z) (s : State) : State :=
  mkState (intSize s) (maxPending s) (ctxDone s) (receiptWg s) v (receiptWake s) (pending s)
    (groupLock s) (group s) (groups s) (callers s) (tasks s) (notifiers s) (written s)
    (trace s) (attempts s) (results s).
Definition set_receiptWake (v : Z) (s : State) : State :=
  mkState (intSize s) (maxPending s) (ctxDone s) (receiptWg s) (receiptWaiters s) v (pending s)
    (groupLock s) (group s) (groups s) (callers s) (tasks s) (notifiers s) (written s)
    (trace s) (attempts s) (results s).
Definition set_pending (v : Z) (s : State) : State :=
  mkState (intSize s) (maxPending s) (ctxDone s) (receiptWg s) (receiptWaiters s)
    (receiptWake s) v (groupLock s) (group s) (groups s) (callers s) (tasks s) (notifiers s)
    (written s) (trace s) (attempts s) (results s).
Definition set_groupLock (v : bool) (s : State) : State :=
  mkState (intSize s) (maxPending s) (ctxDone s) (receiptWg s) (receiptWaiters s)
    (receiptWake s) (pending s) v (group s) (groups s) (callers s) (tasks s) (notifiers s)
    (written s) (trace s) (attempts s) (results s).
Definition set_group (v : option nat) (s : State) : State :=
  mkState (intSize s) (maxPending s) (ctxDone s) (receiptWg s) (receiptWaiters s)
    (receiptWake s) (pending s) (groupLock s) v (groups s) (callers s) (tasks s) (notifiers s)
    (written s) (trace s) (attempts s) (results s).
Definition set_groups (v : list Group) (s : State) : State :=
  mkState (intSize s) (maxPending s) (ctxDone s) (receiptWg s) (receiptWaiters s)
    (receiptWake s) (pending s) (groupLock s) (group s) v (callers s) (tasks s) (notifiers s)
    (written s) (trace s) (attempts s) (results s).
Definition set_callers (v : list Caller) (s : State) : State :=
  mkState (intSize s) (maxPending s) (ctxDone s) (receiptWg s) (receiptWaiters s)
    (receiptWake s) (pending s) (groupLock s) (group s) (groups s) v (tasks s) (notifiers s)
    (written s) (trace s) (attempts s) (results s).
Definition set_tasks (v : list Task) (s : State) : State :=
  mkState (intSize s) (maxPending s) (ctxDone s) (receiptWg s) (receiptWaiters s)
    (receiptWake s) (pending s) (groupLock s) (group s) (groups s) (callers s) v (notifiers s)
    (written s) (trace s) (attempts s) (results s).
Definition set_notifiers (v : list Notifier) (s : State) : State :=
  mkState (intSize s) (maxPending s) (ctxDone s) (receiptWg s) (receiptWaiters s)
    (receiptWake s) (pending s) (groupLock s) (group s) (groups s) (callers s) (tasks s) v
    (written s) (trace s) (attempts s) (results s).
Definition set_written (v : list Delivery) (s : State) : State :=
  mkState (intSize s) (maxPending s) (ctxDone s) (receiptWg s) (receiptWaiters s)
    (receiptWake s) (pending s) (groupLock s) (group s) (groups s) (callers s) (tasks s)
    (notifiers s) v (trace s) (attempts s) (results s).
Definition set_trace (v : list (nat * Event)) (s : State) : State :=
  mkState (intSize s) (maxPending s) (ctxDone s) (receiptWg s) (receiptWaiters s)
    (receiptWake s) (pending s) (groupLock s) (group s) (groups s) (callers s) (tasks s)
    (notifiers s) (written s) v (attempts s) (results s).
Definition set_attempts (v : list (Mode * Item)) (s : State) : State :=
  mkState (intSize s) (maxPending s) (ctxDone s) (receiptWg s) (receiptWaiters s)
    (receiptWake s) (pending s) (groupLock s) (group s) (groups s) (callers s) (tasks s)
    (notifiers s) (written s) (trace s) v (results s).
Definition set_results (v : list (nat * bool)) (s : State) : State :=
  mkState (intSize s) (maxPending s) (ctxDone s) (receiptWg s) (receiptWaiters s)
    (receiptWake s) (pending s) (groupLock s) (group s) (groups s) (callers s) (tasks s)
    (notifiers s) (written s) (trace s) (attempts s) v.

(** [q.receiptWg], and an assignment to it. *)
Definition receipt_wg (s : State) : WaitGroup :=
  mkWaitGroup (receiptWg s) (receiptWaiters s) (receiptWake s).

Definition set_receipt_wg (W : WaitGroup) (s : State) : State :=
  set_receiptWg (wg_counter W)
    (set_receiptWaiters (wg_waiters W) (set_receiptWake (wg_sema W) s)).

(** [NewQueue]: the queue with its clamped limit and no group yet, on a
    platform whose [int] has [intSize] bits, used by [clients] goroutines. *)
Definition NewQueue (intSize : Z) (maxPending : Z) (clients : nat) : State :=
  {| intSize := intSize;
     maxPending := clamp_maxPending intSize maxPending;
     ctxDone := false;
     receiptWg := 0;
     receiptWaiters := 0;
     receiptWake := 0;
     pending := 0;
     groupLock := false;
     group := None;
     groups := [];
     callers := replicate clients Idle;
     tasks := [];
     notifiers := [];
     written := [];
     trace := [];
     attempts := [];
     results := [] |}.

(** Goroutine [i] moves to [c]. *)
Definition goto (i : nat) (c : Caller) (s : State) : State :=
  set_callers (<[i := c]> (callers s)) s.

(** Task [j] moves to phase [p]. *)
Definition advance (j : nat) (t : Task) (p : Phase) (s : State) : State :=
  set_tasks (<[j := mkTask (t_group t) (t_attempt t) (t_item t) p]> (tasks s)) s.

(** The cancel function of the context of group [g] is called. *)
Definition cancel (g : nat) (s : State) : State :=
  set_groups
    (alter (fun G => mkGroup (g_limit G) (g_sem G) (g_wg G) (g_waiters G) (g_wake G) true)
       g (groups s)) s.

(** [ctx.Err() != nil] for the context of a group: the context was cancelled
    itself or through [q.ctx], which it derives from. *)
Definition ctx_err (s : State) (G : Group) : bool := g_cancelled G || ctxDone s.

(** [g.SetLimit(n)] on a group without active goroutines. *)
Definition SetLimit (n : Z) (G : Group) : Group :=
  mkGroup (if n <? 0 then None else Some n) (g_sem G) (g_wg G) (g_waiters G) (g_wake G)
    (g_cancelled G).

(** Lines 126-129: a new group with a new context derived from [q.ctx],
    limited when [q.maxPending > 0]. *)
Definition fresh_group (s : State) : Group :=
  let G := mkGroup None 0 0 0 0 false in
  if 0 <? maxPending s then SetLimit (to_int (intSize s) (maxPending s)) G else G.

(** The new group is stored in [q.group] and returned. *)
Definition install (s : State) : State * nat :=
  (set_group (Some (length (groups s))) (set_groups (groups s ++ [fresh_group s]) s),
   length (groups s)).

(** [Queue.groupContext], between taking and releasing [groupLock]: the state
    it leaves and the group it returns, when [q.group.Wait()] of line 124 is
    not called or returns at once (the counter of the group is zero); that
    [Wait] also calls the cancel function of the old context.  [Blocked]
    stands for a [q.group.Wait()] that does not return at once: the goroutine
    then parks in it, see [caller_step].  No other goroutine writes [q.group]
    or reads the error of a context while the lock is held, so this part is
    run in one piece. *)
Definition groupContext (s : State) : Outcome (State * nat) :=
  match group s with
  | None => Next (install s)
  | Some g =>
      match groups s !! g with
      | None => Panic
      | Some G =>
          if ctx_err s G then
            if g_wg G =? 0 then Next (install (cancel g s)) else Blocked
          else Next (s, g)
      end
  end.

(** [g.sem <- token{}] of [Go], or the [select] of [TryGo] when [try] is set:
    [Some true] when a token was put (or there is no semaphore), [Some false]
    when [TryGo] gives up, [None] when [Go] has to wait. *)
Definition acquire (try : bool) (G : Group) : option (bool * Group) :=
  match g_limit G with
  | None => Some (true, G)
  | Some L =>
      if g_sem G <? L
      then Some (true, mkGroup (g_limit G) (g_sem G + 1) (g_wg G) (g_waiters G) (g_wake G)
                         (g_cancelled G))
      else if try then Some (false, G) else None
  end.

(** [TrySend] returns [true] once [TryGo] has started the goroutine; [Send]
    returns nothing. *)
Definition returns (m : Mode) (k : nat) (s : State) : State :=
  set_results (results s ++ match m with Blocking => [] | NonBlocking => [(k, true)] end) s.

(** The [WaitGroup] of group [g] becomes [W]. *)
Definition set_wg (g : nat) (W : WaitGroup) (s : State) : State :=
  set_groups (alter (set_group_wg W) g (groups s)) s.

(** One statement of goroutine [i] inside [Send], [TrySend] or [Wait].
    [Wait] reads [q.group] on line 54 and again on line 57, and waits for the
    group it read on line 57; [g.Wait()] of errgroup is [g.wg.Wait()] followed
    by the cancel function. *)
Definition caller_step (i : nat) (s : State) : Outcome State :=
  match callers s !! i with
  | Some (Entered m k it) =>
      if groupLock s then Blocked
      else Next (goto i (Locked m k it) (set_groupLock true s))
  | Some (Locked m k it) =>
      match groupContext s with
      | Next (s', g) => Next (goto i (Got m k it g) (set_groupLock false s'))
      | Blocked =>
          match group s with
          | None => Panic
          | Some g =>
              match groups s !! g with
              | None => Panic
              | Some G =>
                  match wg_Wait (group_wg G) with
                  | Some W => Next (goto i (LockedWaiting m k it g) (set_wg g W s))
                  | None => Blocked
                  end
              end
          end
      | Panic => Panic
      end
  | Some (LockedWaiting m k it g) =>
      match groups s !! g with
      | None => Panic
      | Some G =>
          match wg_resume (group_wg G) with
          | Next W =>
              let r := install (cancel g (set_wg g W s)) in
              Next (goto i (Got m k it (snd r)) (set_groupLock false (fst r)))
          | Blocked => Blocked
          | Panic => Panic
          end
      end
  | Some (Got m k it g) =>
      match groups s !! g with
      | None => Panic
      | Some G =>
          match acquire (match m with Blocking => false | NonBlocking => true end) G with
          | Some (true, G') => Next (goto i (Acquired m k it g) (set_groups (<[g := G']> (groups s)) s))
          | Some (false, _) => Next (goto i (Refused k it) s)
          | None => Blocked
          end
      end
  | Some (Acquired m k it g) =>
      match groups s !! g with
      | None => Panic
      | Some G =>
          match wg_Add 1 (group_wg G) with
          | Next W =>
              Next (goto i Idle
                      (returns m k
                         (set_tasks (tasks s ++ [mkTask g k it Started]) (set_wg g W s))))
          | Blocked => Blocked
          | Panic => Panic
          end
      end
  | Some (Refused k it) =>
      match wg_Add (-1) (receipt_wg s) with
      | Next W => Next (goto i Idle (set_results (results s ++ [(k, false)]) (set_receipt_wg W s)))
      | Blocked => Blocked
      | Panic => Panic
      end
  | Some Waiting =>
      match wg_Wait (receipt_wg s) with
      | None => Next (goto i (Drained (length (attempts s))) s)
      | Some W => Next (goto i Parked (set_receipt_wg W s))
      end
  | Some Parked =>
      match wg_resume (receipt_wg s) with
      | Next W => Next (goto i (Drained (length (attempts s))) (set_receipt_wg W s))
      | Blocked => Blocked
      | Panic => Panic
      end
  | Some (Drained n) =>
      match group s with
      | None => Next (goto i Idle s)
      | Some _ => Next (goto i (WaitingGroup n) s)
      end
  | Some (WaitingGroup n) =>
      match group s with
      | None => Panic
      | Some g =>
          match groups s !! g with
          | None => Panic
          | Some G =>
              match wg_Wait (group_wg G) with
              | None => Next (goto i (GroupWaited n g) s)
              | Some W => Next (goto i (ParkedGroup n g) (set_wg g W s))
              end
          end
      end
  | Some (ParkedGroup n g) =>
      match groups s !! g with
      | None => Panic
      | Some G =>
          match wg_resume (group_wg G) with
          | Next W => Next (goto i (GroupWaited n g) (set_wg g W s))
          | Blocked => Blocked
          | Panic => Panic
          end
      end
  | Some (GroupWaited n g) => Next (goto i Idle (cancel g s))
  | Some Idle | None => Blocked
  end.

(** Goroutine [i] calls [Send] or [TrySend]: the call is numbered and
    [q.receiptWg.Add(1)] runs. *)
Definition call (m : Mode) (i : nat) (it : Item) (s : State) : Outcome State :=
  match callers s !! i with
  | Some Idle =>
      match wg_Add 1 (receipt_wg s) with
      | Next W =>
          Next (goto i (Entered m (length (attempts s)) it)
                  (set_attempts (attempts s ++ [(m, it)]) (set_receipt_wg W s)))
      | Blocked => Blocked
      | Panic => Panic
      end
  | _ => Blocked
  end.

(** Goroutine [i] calls [Wait]. *)
Definition call_wait (i : nat) (s : State) : Outcome State :=
  match callers s !! i with
  | Some Idle => Next (goto i Waiting s)
  | _ => Blocked
  end.

(** [q.pending.Add(delta)] and [q.pendingChanged] on its result, by task [j]. *)
Definition pendingChanged (j : nat) (delta : Z) (s : State) : State :=
  let v := wrap64 (pending s + delta) in
  set_trace (trace s ++ [(j, EvPending delta v)]) (set_pending v s).

(** Task [j] does [e]. *)
Definition emit (j : nat) (e : Event) (s : State) : State :=
  set_trace (trace s ++ [(j, e)]) s.

(** [g.done()]: take a token back from the semaphore, if there is one, and
    [g.wg.Done()]. *)
Definition done (G : Group) : Outcome Group :=
  match g_limit G with
  | Some _ =>
      if g_sem G <=? 0 then Blocked
      else match wg_Add (-1) (group_wg G) with
           | Next W =>
               Next (set_group_wg W
                       (mkGroup (g_limit G) (g_sem G - 1) (g_wg G) (g_waiters G) (g_wake G)
                          (g_cancelled G)))
           | Blocked => Blocked
           | Panic => Panic
           end
  | None =>
      match wg_Add (-1) (group_wg G) with
      | Next W => Next (set_group_wg W G)
      | Blocked => Blocked
      | Panic => Panic
      end
  end.

(** One statement of task [j]: [sendTx] (lines 94-110) inside the goroutine
    of errgroup.  The deferred function of line 96 runs when [sendTx] returns,
    after the [go] statement of line 100. *)
Definition task_step (j : nat) (s : State) : Outcome State :=
  match tasks s !! j with
  | Some t =>
      match t_phase t with
      | Started =>
          Next (advance j t Sending
                  (emit j (EvSend (t_group t) (it_candidate (t_item t)))
                     (pendingChanged j 1 s)))
      | Sending => Blocked
      | Sent r e =>
          let rc := mkTxReceipt (it_id (t_item t)) r e in
          Next (advance j t (Notifying e)
                  (emit j (EvNotify (it_ch (t_item t)) rc)
                     (set_notifiers
                        (notifiers s ++ [mkNotifier (t_attempt t) (it_ch (t_item t)) rc Writing]) s)))
      | Notifying e =>
          Next (advance j t (Returned e) (emit j (EvReturn e) (pendingChanged j minus_one s)))
      | Returned e =>
          Next (advance j t Releasing
                  (match e with Some _ => cancel (t_group t) s | None => s end))
      | Releasing =>
          match groups s !! t_group t with
          | None => Panic
          | Some G =>
              match done G with
              | Next G' => Next (advance j t Finished (set_groups (<[t_group t := G']> (groups s)) s))
              | Blocked => Blocked
              | Panic => Panic
              end
          end
      | Finished => Blocked
      end
  | None => Blocked
  end.

(** [q.txMgr.Send] of task [j] returns [(r, e)]. *)
Definition reply (j : nat) (r : option types_Receipt) (e : option error) (s : State)
  : Outcome State :=
  match tasks s !! j with
  | Some t =>
      match t_phase t with
      | Sending => Next (advance j t (Sent r e) (emit j (EvSent r e) s))
      | _ => Blocked
      end
  | None => Blocked
  end.

(** One statement of notifier [n]: the send on the receipt channel (which
    takes place when the channel takes the value), then
    [q.receiptWg.Done()]. *)
Definition notifier_step (n : nat) (s : State) : Outcome State :=
  match notifiers s !! n with
  | Some x =>
      match n_phase x with
      | Writing =>
          Next (set_notifiers
                  (<[n := mkNotifier (n_attempt x) (n_ch x) (n_receipt x) Written]> (notifiers s))
                  (set_written (written s ++ [mkDelivery (n_ch x) (n_receipt x) (n_attempt x)]) s))
      | Written =>
          match wg_Add (-1) (receipt_wg s) with
          | Next W =>
              Next (set_notifiers
                      (<[n := mkNotifier (n_attempt x) (n_ch x) (n_receipt x) Done]> (notifiers s))
                      (set_receipt_wg W s))
          | Blocked => Blocked
          | Panic => Panic
          end
      | Done => Blocked
      end
  | None => Blocked
  end.

(** What can happen next: a goroutine calls [Send], [TrySend] or [Wait]; a
    goroutine inside a call, a task or a notifier runs its next statement;
    the submitter returns to a task; [q.ctx] is cancelled. *)
Inductive Action : Type :=
| CallSend (i : nat) (it : Item)
| CallTrySend (i : nat) (it : Item)
| CallWait (i : nat)
| Step (i : nat)
| Run (j : nat)
| Reply (j : nat) (r : option types_Receipt) (e : option error)
| Deliver (n : nat)
| CancelRoot.

(** One action. *)
Definition exec (a : Action) (s : State) : Outcome State :=
  match a with
  | CallSend i it => call Blocking i it s
  | CallTrySend i it => call NonBlocking i it s
  | CallWait i => call_wait i s
  | Step i => caller_step i s
  | Run j => task_step j s
  | Reply j r e => reply j r e s
  | Deliver n => notifier_step n s
  | CancelRoot => if ctxDone s then Blocked else Next (set_ctxDone true s)
  end.

(** A list of actions, one after the other. *)
Fixpoint run (acts : list Action) (s : State) : Outcome State :=
  match acts with
  | [] => Next s
  | a :: acts' =>
      match exec a s with
      | Next s' => run acts' s'
      | Blocked => Blocked
      | Panic => Panic
      end
  end.

(** [s] is a state of some execution from [s0]. *)
Definition reachable (s0 s : State) : Prop := exists acts, run acts s0 = Next s.

(** The number of calls of [q.txMgr.Send] that are executing. *)
Definition sending (t : Task) : Z :=
  match t_phase t with Sending => 1 | _ => 0 end.

Definition executing (s : State) : Z := wsum sending (tasks s).

(** * Part II.  What is stated about the queue *)

(** The goroutine is inside [groupContext]. *)
Definition holds_lock (c : Caller) : Z :=
  match c with Locked _ _ _ | LockedWaiting _ _ _ _ => 1 | _ => 0 end.

(** The goroutine is in a call that has run [q.receiptWg.Add(1)] and has
    neither started its task nor run [q.receiptWg.Done()]. *)
Definition registered (c : Caller) : Z :=
  match c with
  | Entered _ _ _ | Locked _ _ _ | LockedWaiting _ _ _ _ | Got _ _ _ _ | Acquired _ _ _ _
  | Refused _ _ => 1
  | _ => 0
  end.

(** The task has not started its notifier yet. *)
Definition unreported (t : Task) : Z :=
  match t_phase t with Started | Sending | Sent _ _ => 1 | _ => 0 end.

(** The notifier has not run [q.receiptWg.Done()] yet. *)
Definition unsettled (x : Notifier) : Z :=
  match n_phase x with Done => 0 | _ => 1 end.

(** [groupLock] is held by the goroutine inside [groupContext], and
    [receiptWg] counts the calls that are registered and whose receipt is not
    yet settled. *)
Record Counters (s : State) : Prop := {
  cnt_lock : b2z (groupLock s) = wsum holds_lock (callers s);
  cnt_receiptWg :
    receiptWg s = wsum registered (callers s) + wsum unreported (tasks s)
                  + wsum unsettled (notifiers s)
}.

(** The group a goroutine was given by [groupContext], or read from
    [q.group] to wait for. *)
Definition caller_group (c : Caller) : option nat :=
  match c with
  | LockedWaiting _ _ _ g | Got _ _ _ g | Acquired _ _ _ g | ParkedGroup _ g
  | GroupWaited _ g => Some g
  | _ => None
  end.

(** A token of the semaphore of [g] is held by a goroutine between the
    semaphore and [wg.Add(1)]. *)
Definition holding (g : nat) (c : Caller) : Z :=
  match c with Acquired _ _ _ g' => b2z (bool_decide (g' = g)) | _ => 0 end.

(** Task [t] runs in group [g] and has not called [done()]. *)
Definition active (g : nat) (t : Task) : Z :=
  if bool_decide (t_group t = g)
  then match t_phase t with Finished => 0 | _ => 1 end
  else 0.

(** The limit [groupContext] gives to a group. *)
Definition limit_of (s : State) : option Z :=
  if 0 <? maxPending s then Some (maxPending s) else None.

(** The queue was made by [NewQueue] on a 32 or 64 bit platform. *)
Definition Configured (s : State) : Prop :=
  (intSize s = 32 \/ intSize s = 64) /\ 0 <= maxPending s <= MaxInt (intSize s).

(** The groups that goroutines refer to exist; every group has the limit of
    the queue; its [WaitGroup] counts its unfinished tasks; its semaphore
    holds one token per unfinished task and per goroutine between the
    semaphore and [wg.Add(1)], and no more than its capacity. *)
Record Groups (s : State) : Prop := {
  grp_callers : forall i c g, callers s !! i = Some c -> caller_group c = Some g ->
                              (g < length (groups s))%nat;
  grp_tasks : forall j t, tasks s !! j = Some t -> (t_group t < length (groups s))%nat;
  grp_group : forall g, group s = Some g -> (g < length (groups s))%nat;
  grp_limit : forall g G, groups s !! g = Some G -> g_limit G = limit_of s;
  grp_wg : forall g G, groups s !! g = Some G -> g_wg G = wsum (active g) (tasks s);
  grp_sem : forall g G L, groups s !! g = Some G -> g_limit G = Some L ->
                          g_sem G = g_wg G + wsum (holding g) (callers s) /\ g_sem G <= L
}.

(** The mode, number and arguments of the call a goroutine is in. *)
Definition caller_call (c : Caller) : option (Mode * nat * Item) :=
  match c with
  | Entered m k it | Locked m k it | LockedWaiting m k it _ | Got m k it _
  | Acquired m k it _ => Some (m, k, it)
  | Refused k it => Some (NonBlocking, k, it)
  | _ => None
  end.

(** Call [k] is with a calling goroutine, with a task before line 100, or
    with a notifier that has not sent yet. *)
Definition in_call (k : nat) (c : Caller) : Z :=
  match caller_call c with
  | Some (_, k', _) => b2z (bool_decide (k' = k))
  | None => 0
  end.

Definition in_task (k : nat) (t : Task) : Z :=
  if bool_decide (t_attempt t = k) then unreported t else 0.

Definition in_notifier (k : nat) (x : Notifier) : Z :=
  if bool_decide (n_attempt x = k)
  then match n_phase x with Writing => 1 | _ => 0 end
  else 0.

(** Receipts of call [k] among the receipts sent. *)
Definition delivered (k : nat) (d : Delivery) : Z := b2z (bool_decide (d_attempt d = k)).

(** [TrySend] returned [b] for call [k]. *)
Definition answered (k : nat) (b : bool) (r : nat * bool) : Z :=
  b2z (bool_decide (r = (k, b))).

(** A receipt is the one of call [k] with arguments [it]. *)
Definition receipt_for (it : Item) (ch : nat) (rc : TxReceipt) : Prop :=
  ch = it_ch it /\ ID rc = it_id it.

(** Every call that was made is at exactly one place: with its goroutine,
    with its task, with its notifier, delivered, or refused; a call of
    [TrySend] that returned true is neither with its goroutine nor refused;
    and tasks, notifiers and receipts carry the channel and ID of their
    call. *)
Record Ledger (s : State) : Prop := {
  led_one : forall k,
    wsum (in_call k) (callers s) + wsum (in_task k) (tasks s)
    + wsum (in_notifier k) (notifiers s) + wsum (delivered k) (written s)
    + wsum (answered k false) (results s)
    = b2z (bool_decide (k < length (attempts s))%nat);
  led_granted : forall k,
    wsum (answered k true) (results s) = 0
    \/ (wsum (in_call k) (callers s) = 0 /\ wsum (answered k false) (results s) = 0);
  led_callers : forall i c m k it,
    callers s !! i = Some c -> caller_call c = Some (m, k, it) ->
    attempts s !! k = Some (m, it);
  led_tasks : forall j t,
    tasks s !! j = Some t -> exists m, attempts s !! t_attempt t = Some (m, t_item t);
  led_notifiers : forall n x,
    notifiers s !! n = Some x ->
    exists m it, attempts s !! n_attempt x = Some (m, it)
                 /\ receipt_for it (n_ch x) (n_receipt x);
  led_written : forall w d,
    written s !! w = Some d ->
    exists m it, attempts s !! d_attempt d = Some (m, it)
                 /\ receipt_for it (d_ch d) (d_receipt d);
  led_results : forall r k b,
    results s !! r = Some (k, b) -> exists it, attempts s !! k = Some (NonBlocking, it)
}.

(** The events of task [j] in a trace. *)
Fixpoint events_of (j : nat) (tr : list (nat * Event))
  : list Event :=
  match tr with
  | [] => []
  | (j', e) :: tr' => if Nat.eqb j' j then e :: events_of j tr' else events_of j tr'
  end.

(** What [sendTx] does for task [t], in the order of the code: the callback
    with the incremented counter, the call of the submitter and its return,
    the start of the notifier (line 100), the deferred callback with the
    decremented counter (line 97), the return of the submitter's error. *)
Definition script (t : Task) (v1 : Z) (r : option types_Receipt) (e : option error) (v2 : Z)
  : list Event :=
  [ EvPending 1 v1;
    EvSend (t_group t) (it_candidate (t_item t));
    EvSent r e;
    EvNotify (it_ch (t_item t)) (mkTxReceipt (it_id (t_item t)) r e);
    EvPending minus_one v2;
    EvReturn e ].

(** How much of its script a task has run, by phase. *)
Definition in_step (t : Task) (evs : list Event) : Prop :=
  match t_phase t with
  | Started => evs = []
  | Sending => exists v1 r e v2, evs = take 2 (script t v1 r e v2)
  | Sent r e => exists v1 v2, evs = take 3 (script t v1 r e v2)
  | Notifying e => exists v1 r v2, evs = take 4 (script t v1 r e v2)
  | Returned e => exists v1 r v2, evs = script t v1 r e v2
  | Releasing | Finished => exists v1 r e v2, evs = script t v1 r e v2
  end.

(** Reading the trace from counter value [p]: every callback gets the value
    that [Add] returned; the result is the counter at the end. *)
Fixpoint replay (p : Z) (tr : list (nat * Event)) : option Z :=
  match tr with
  | [] => Some p
  | (_, EvPending delta v) :: tr' =>
      if v =? wrap64 (p + delta) then replay v tr' else None
  | _ :: tr' => replay p tr'
  end.

(** Every task has run the part of its script that its phase says, no
    event belongs to a task that does not exist, and the callbacks got the
    values of the counter. *)
Record Traced (s : State) : Prop := {
  trc_task : forall j t, tasks s !! j = Some t -> in_step t (events_of j (trace s));
  trc_none : forall j, (length (tasks s) <= j)%nat -> events_of j (trace s) = [];
  trc_replay : replay 0 (trace s) = Some (pending s)
}.

(** Call [k] is over: its receipt was sent, or [TrySend] returned false. *)
Definition settled (s : State) (k : nat) : Prop :=
  wsum (delivered k) (written s) + wsum (answered k false) (results s) = 1.

(** The number of calls a goroutine inside [Wait] saw when it passed
    [q.receiptWg.Wait()]. *)
Definition caller_seen (c : Caller) : option nat :=
  match c with
  | Drained n | WaitingGroup n | ParkedGroup n _ | GroupWaited n _ => Some n
  | _ => None
  end.

(** For a goroutine in [Wait] past line 53, the calls it saw are over; at
    [q.group.Wait()] there is a group. *)
Record Waits (s : State) : Prop := {
  wt_seen : forall i c n k, callers s !! i = Some c -> caller_seen c = Some n ->
                            (k < n)%nat -> settled s k;
  wt_group : forall i n, callers s !! i = Some (WaitingGroup n) -> group s <> None
}.

(** The task, the notifier works for call [k]. *)
Definition task_of (k : nat) (t : Task) : Z := b2z (bool_decide (t_attempt t = k)).

Definition notifier_of (k : nat) (x : Notifier) : Z := b2z (bool_decide (n_attempt x = k)).

(** Every task of call [k] is before line 100 or has started its notifier,
    and every notifier is about to send or has sent its receipt. *)
Record Census (s : State) : Prop := {
  cen_tasks : forall k,
    wsum (task_of k) (tasks s) = wsum (in_task k) (tasks s) + wsum (notifier_of k) (notifiers s);
  cen_notifiers : forall k,
    wsum (notifier_of k) (notifiers s)
    = wsum (in_notifier k) (notifiers s) + wsum (delivered k) (written s)
}.

(** The goroutine is parked in [q.receiptWg.Wait()]. *)
Definition parked (c : Caller) : Z :=
  match c with Parked => 1 | _ => 0 end.

(** The goroutine is parked in [Wait()] of group [g]. *)
Definition parked_in (g : nat) (c : Caller) : Z :=
  match c with
  | LockedWaiting _ _ _ g' | ParkedGroup _ g' => b2z (bool_decide (g' = g))
  | _ => 0
  end.

(** Every parked goroutine is counted among the waiters of its [WaitGroup]
    or has a wake-up waiting for it, and a [WaitGroup] has waiters only while
    its counter is not zero. *)
Record Parking (s : State) : Prop := {
  prk_receipt : wsum parked (callers s) = receiptWaiters s + receiptWake s;
  prk_receipt_sign :
    0 <= receiptWaiters s /\ 0 <= receiptWake s /\ (0 < receiptWaiters s -> 0 < receiptWg s);
  prk_group : forall g G, groups s !! g = Some G ->
    wsum (parked_in g) (callers s) = g_waiters G + g_wake G
    /\ 0 <= g_waiters G /\ 0 <= g_wake G /\ (0 < g_waiters G -> 0 < g_wg G)
}.

(** All of the above. *)
Record Inv (s : State) : Prop := {
  inv_conf : Configured s;
  inv_cnt : Counters s;
  inv_grp : Groups s;
  inv_led : Ledger s;
  inv_trc : Traced s;
  inv_wt : Waits s;
  inv_cen : Census s;
  inv_prk : Parking s
}.

(** The goroutine is parked in a [Wait()] and has a wake-up to take, but
    the [WaitGroup] is in use again: its counter or its waiters are not
    zero. *)
Definition reused (s : State) (i : nat) : Prop :=
  match callers s !! i with
  | Some Parked => 0 < receiptWake s /\ (receiptWg s <> 0 \/ receiptWaiters s <> 0)
  | Some (LockedWaiting _ _ _ g) | Some (ParkedGroup _ g) =>
      exists G, groups s !! g = Some G /\ 0 < g_wake G /\ (g_wg G <> 0 \/ g_waiters G <> 0)
  | _ => False
  end.

(** The actions that start nothing new: statements of the calls in progress,
    of the tasks and of the notifiers, and returns of the submitter. *)
Definition drain (a : Action) : bool :=
  match a with
  | Step _ | Run _ | Reply _ _ _ | Deliver _ => true
  | _ => false
  end.

(** The statements a goroutine has left, counting what it will start. *)
Definition left_caller (c : Caller) : Z :=
  match c with
  | Idle => 0
  | Entered _ _ _ => 14
  | Locked _ _ _ => 13
  | LockedWaiting _ _ _ _ => 12
  | Got _ _ _ _ => 11
  | Acquired _ _ _ _ => 10
  | Refused _ _ => 1
  | Waiting => 6
  | Parked => 5
  | Drained _ => 4
  | WaitingGroup _ => 3
  | ParkedGroup _ _ => 2
  | GroupWaited _ _ => 1
  end.

Definition left_task (t : Task) : Z :=
  match t_phase t with
  | Started => 9
  | Sending => 8
  | Sent _ _ => 7
  | Notifying _ => 3
  | Returned _ => 2
  | Releasing => 1
  | Finished => 0
  end.

Definition left_notifier (x : Notifier) : Z :=
  match n_phase x with Writing => 2 | Written => 1 | Done => 0 end.

(** The statements all goroutines have left when no new call is made. *)
Definition work_left (s : State) : Z :=
  wsum left_caller (callers s) + wsum left_task (tasks s) + wsum left_notifier (notifiers s).

(** No action that drains can run. *)
Definition stuck (s : State) : Prop :=
  forall a s', drain a = true -> exec a s <> Next s'.

(** With a single calling goroutine the group it was given is the current
    one, and the groups that were replaced have no goroutine left. *)
Record Solo (s : State) : Prop := {
  solo_one : length (callers s) = 1%nat;
  solo_held : forall i c g, callers s !! i = Some c -> caller_group c = Some g ->
                            group s = Some g;
  solo_old : forall g G, groups s !! g = Some G -> group s <> Some g -> g_wg G = 0
}.

(** With a single calling goroutine a wake-up is only there while the
    counter of its [WaitGroup] is zero: nobody adds to it while the goroutine
    is parked. *)
Record SoloWaits (s : State) : Prop := {
  sw_receipt : 0 < receiptWake s -> receiptWg s = 0;
  sw_group : forall g G, groups s !! g = Some G -> 0 < g_wake G -> g_wg G = 0
}.



(** Call [k] was accepted: it is a call of [Send], or a call of [TrySend]
    that returned true. *)
Definition accepted (s : State) (k : nat) : Prop :=
  match attempts s !! k with
  | Some (Blocking, _) => True
  | Some (NonBlocking, _) => 0 < wsum (answered k true) (results s)
  | None => False
  end.

(** The statements of the calling goroutines. *)
Definition by_caller (a : Action) : bool :=
  match a with
  | CallSend _ _ | CallTrySend _ _ | CallWait _ | Step _ => true
  | _ => false
  end.

(** The order in which the task body is said to run when the deferred
    callback comes before the start of the notifier. *)
Definition claimed_script (t : Task) (v1 : Z) (r : option types_Receipt) (e : option error)
  (v2 : Z) : list Event :=
  [ EvPending 1 v1;
    EvSend (t_group t) (it_candidate (t_item t));
    EvSent r e;
    EvPending minus_one v2;
    EvNotify (it_ch (t_item t)) (mkTxReceipt (it_id (t_item t)) r e);
    EvReturn e ].

(** The events of task [j] so far are the beginning of [order]. *)
Definition follows
  (order : Task -> Z -> option types_Receipt -> option error -> Z -> list Event)
  (s : State) (j : nat) : Prop :=
  exists t v1 r e v2,
    tasks s !! j = Some t /\ events_of j (trace s) `prefix_of` order t v1 r e v2.

(** [sendTx] has returned. *)
Definition returned (t : Task) : bool :=
  match t_phase t with
  | Returned _ | Releasing | Finished => true
  | _ => false
  end.

(** The task is between the increment of line 95 and the deferred decrement
    of line 97. *)
Definition counted (t : Task) : Z :=
  match t_phase t with Sending | Sent _ _ | Notifying _ => 1 | _ => 0 end.

(** The number of such tasks. *)
Definition in_flight (s : State) : Z := wsum counted (tasks s).

(** A receipt for call [k] on channel [ch] was handed to a notifier by a
    task of call [k]. *)
Definition from_task (s : State) (k : nat) (ch : nat) (rc : TxReceipt) : Prop :=
  exists j t, tasks s !! j = Some t /\ t_attempt t = k /\ In (j, EvNotify ch rc) (trace s).

(** Every notifier and every receipt that was sent comes from a task. *)
Record Origin (s : State) : Prop := {
  org_notifiers : forall n x, notifiers s !! n = Some x ->
                              from_task s (n_attempt x) (n_ch x) (n_receipt x);
  org_written : forall w d, written s !! w = Some d ->
                            from_task s (d_attempt d) (d_ch d) (d_receipt d)
}.

(** No call of [TrySend] is or was refused. *)
Definition never_refused (s : State) : Prop :=
  (forall i k it, callers s !! i <> Some (Refused k it))
  /\ (forall r k, results s !! r <> Some (k, false)).

(** The slots of group [g] that are taken: one per unfinished task of the
    group and one per goroutine that is past the semaphore and has not yet
    started its task. *)
Definition slots_taken (s : State) (g : nat) : Z :=
  wsum (active g) (tasks s) + wsum (holding g) (callers s).

(** The cancel function of the context of group [g] was called. *)
Definition cancelled (s : State) (g : nat) : Prop :=
  exists G, groups s !! g = Some G /\ g_cancelled G = true.

(** [sendTx] of task [t] has returned a non-nil error and the wrapper of
    errgroup has dealt with it. *)
Definition failed (s : State) (j : nat) (t : Task) : Prop :=
  (t_phase t = Releasing \/ t_phase t = Finished)
  /\ exists e, In (j, EvReturn (Some e)) (trace s).

(** The groups of the failed tasks are cancelled. *)
Definition Cancels (s : State) : Prop :=
  forall j t, tasks s !! j = Some t -> failed s j t -> cancelled s (t_group t).

(** The event is a call of the submitter. *)
Definition is_send (ev : Event) : bool :=
  match ev with EvSend _ _ => true | _ => false end.

(** Task [t] runs in group [g] and is inside the submitter. *)
Definition sending_in (g : nat) (t : Task) : Z :=
  if bool_decide (t_group t = g) then sending t else 0.

(** A group is made only inside a call, and [q.group] is set from the first
    group on. *)
Definition group_after_call (s : State) : Prop :=
  (group s <> None -> attempts s <> []) /\ (group s = None -> groups s = []).

(** [TrySend] has returned true for call [k] as many times as call [k] has
    tasks. *)
Definition Granted (s : State) : Prop :=
  forall k,
    wsum (answered k true) (results s)
    = match attempts s !! k with
      | Some (NonBlocking, _) => wsum (task_of k) (tasks s)
      | _ => 0
      end.


End Queue.

Arguments TxReceipt : clear implicits.
Arguments Item : clear implicits.
Arguments State : clear implicits.
Arguments Action : clear implicits.

(** ** Concrete runs *)

Definition DState := State nat unit unit unit.
Definition DAction := Action nat unit unit unit.

Definition item (id : nat) : Item nat unit := mkItem id tt 0.

(** The state a list of actions leads to (the start when it cannot run). *)
Definition after (acts : list DAction) (s : DState) : DState :=
  match run acts s with Next s' => s' | _ => s end.

(** Goroutine [i] runs [n] statements. *)
Definition steps (i n : nat) : list DAction := replicate n (Step i).

(** Task [j] runs from its start past the return of [sendTx] and of the
    wrapper, the submitter returning [e]. *)
Definition whole_task (j : nat) (e : option unit) : list DAction :=
  [Run j; Reply j None e; Run j; Run j; Run j; Run j].

(** Two goroutines and a limit of one.  Goroutine 0 is inside [Send] and has
    been given group 0.  Goroutine 1 sends a transaction through group 0 that
    fails, and then another one, for which [groupContext] replaces the dead
    group 0 by group 1.  Goroutine 0 then goes on with [group.Go] on group 0,
    whose semaphore is free. *)
Definition stale_group_run : list DAction :=
  [CallSend 0 (item 10)] ++ steps 0 2
  ++ [CallSend 1 (item 11)] ++ steps 1 4 ++ whole_task 0 (Some tt)
  ++ [CallSend 1 (item 12)] ++ steps 1 4 ++ [Run 1]
  ++ steps 0 2 ++ [Run 2].

(** A task between line 100 and its deferred function. *)
Definition notifying_run : list DAction :=
  [CallSend 0 (item 10)] ++ steps 0 4 ++ [Run 0; Reply 0 None None; Run 0].

(** The same, and the notifier has sent the receipt. *)
Definition early_receipt_run : list DAction := notifying_run ++ [Deliver 0].

(** One goroutine, a limit of one, and the task inside the submitter. *)
Definition sending_run : list DAction :=
  [CallSend 0 (item 10)] ++ steps 0 4 ++ [Run 0].

(** The rest of a call of [Send] after its first statement: the task runs,
    the submitter returns, and the notifier sends the receipt. *)
Definition rest_of_send : list DAction :=
  steps 0 4 ++ whole_task 0 None ++ [Deliver 0; Deliver 0].

(** A whole call of [Send], and then a call of [Wait]. *)
Definition waiting_run : list DAction :=
  [CallSend 0 (item 10)] ++ rest_of_send ++ [CallWait 0].

(** [Send], then [TrySend] while the only slot is taken. *)
Definition rejected_run : list DAction :=
  [CallSend 0 (item 10)] ++ steps 0 4 ++ [CallTrySend 0 (item 11)] ++ steps 0 4.

(** One goroutine: a whole call of [Send], and then [Wait] up to its
    return. *)
Definition solo_wait_run : list DAction := waiting_run ++ steps 0 3.


(** Two goroutines.  Goroutine 1 has a call outstanding when goroutine 0
    calls [Wait] and parks in [q.receiptWg.Wait()]; the call is served and its
    notifier releases goroutine 0; before goroutine 0 runs again, goroutine 1
    calls [Send] once more. *)
Definition reuse_run : list DAction :=
  [CallSend 1 (item 10); CallWait 0; Step 0] ++ steps 1 4
  ++ [Run 0; Reply 0 None None; Run 0; Deliver 0; Deliver 0]
  ++ [CallSend 1 (item 11)].

(** A whole call of [Send], with its receipt sent. *)
Definition whole_send : list DAction := [CallSend 0 (item 10)] ++ rest_of_send.

(** [TrySend] on a queue without limit, up to the call of [TryGo]. *)
Definition try_run : list DAction := [CallTrySend 0 (item 10)] ++ steps 0 2.

(** [Send], then [TrySend] up to the call of [TryGo] while the only slot is
    taken. *)
Definition full_run : list DAction :=
  [CallSend 0 (item 10)] ++ steps 0 4 ++ [CallTrySend 0 (item 11)] ++ steps 0 2.

(** A whole call of [TrySend] that found a free slot. *)
Definition granted_run : list DAction := [CallTrySend 0 (item 10)] ++ steps 0 4.

(** A goroutine inside [groupContext]. *)
Definition locked_run : list DAction := [CallSend 0 (item 10); Step 0].

End TxQueue.

(** * Part III.  Proofs *)

(** ** The dispute-game state *)

Module GameFacts.
Import Game.

Section GameStateFacts.

Context `{ops : ClaimOps}.

(** *** Properties of the lookups *)

Lemma getParent_None g claim :
  getParent g claim = None <-> IsRoot claim = true \/ ~ parent_in_range g claim.
Proof.
  unfold getParent, parent_in_range, len_claims.
  destruct (IsRoot claim); [intuition|].
  destruct (Z.geb_spec (ParentContractIndex claim) (Z.of_nat (length (claims g))));
    destruct (Z.ltb_spec (ParentContractIndex claim) 0); simpl;
    try (split; [intros _; right; lia | reflexivity]).
  split.
  - intros Hn. apply lookup_ge_None in Hn. lia.
  - intros [Hr|Hr]; [discriminate | lia].
Qed.

Lemma getParent_Some g claim :
  IsRoot claim = false -> parent_in_range g claim ->
  exists p, claims g !! Z.to_nat (ParentContractIndex claim) = Some p
            /\ getParent g claim = Some p.
Proof.
  intros Hroot Hin. unfold parent_in_range, len_claims in Hin.
  destruct (lookup_lt_is_Some_2 (claims g) (Z.to_nat (ParentContractIndex claim)))
    as [p Hp]; [lia|].
  exists p. split; [exact Hp|].
  unfold getParent, len_claims. rewrite Hroot.
  destruct (Z.geb_spec (ParentContractIndex claim) (Z.of_nat (length (claims g)))); [lia|].
  destruct (Z.ltb_spec (ParentContractIndex claim) 0); [lia|]. exact Hp.
Qed.

(** C8: [GetParent] returns the zero claim with [ErrClaimNotFound] exactly
    when the claim is a root claim or its parent index is negative or at least
    the length of the claims list; in every other case it returns the claim
    stored at that index with a nil error. *)
Theorem GetParent_spec (g : gameState) (claim : Claim) :
  (GetParent g claim = (Claim_zero, Some ErrClaimNotFound)
     <-> (IsRoot claim = true \/ ParentContractIndex claim < 0
          \/ ParentContractIndex claim >= len_claims g))
  /\ (~ (IsRoot claim = true \/ ParentContractIndex claim < 0
         \/ ParentContractIndex claim >= len_claims g) ->
      exists p, claims g !! Z.to_nat (ParentContractIndex claim) = Some p
                /\ GetParent g claim = (p, None)).
Proof.
  split.
  - unfold GetParent. destruct (getParent g claim) as [p|] eqn:Hp.
    + split; [intros H; inversion H|].
      intros H. assert (getParent g claim = None) as Hn.
      { apply getParent_None. unfold parent_in_range. destruct H as [H|H]; [left; exact H|right; lia]. }
      congruence.
    + split; [|reflexivity]. intros _.
      apply getParent_None in Hp. unfold parent_in_range in Hp.
      destruct Hp as [Hp|Hp]; [left; exact Hp|right; lia].
  - intros Hn.
    destruct (IsRoot claim) eqn:Hroot; [exfalso; apply Hn; left; reflexivity|].
    destruct (getParent_Some g claim Hroot) as [p [Hl Hg]].
    { unfold parent_in_range. lia. }
    exists p. split; [exact Hl|]. unfold GetParent. rewrite Hg. reflexivity.
Qed.

(** C10: [DefendsParent] answers [false] for a root claim and for a parent
    index outside the claims list; otherwise it answers whether the claim's
    position is right of the position of the claim stored at the parent
    index. *)
Theorem DefendsParent_spec (g : gameState) (claim : Claim) :
  ((IsRoot claim = true \/ ParentContractIndex claim < 0
    \/ ParentContractIndex claim >= len_claims g) -> DefendsParent g claim = false)
  /\ (~ (IsRoot claim = true \/ ParentContractIndex claim < 0
         \/ ParentContractIndex claim >= len_claims g) ->
      exists p, claims g !! Z.to_nat (ParentContractIndex claim) = Some p
                /\ DefendsParent g claim = RightOf claim (claim_Position p)).
Proof.
  split.
  - intros H. unfold DefendsParent.
    assert (getParent g claim = None) as ->; [|reflexivity].
    apply getParent_None. unfold parent_in_range.
    destruct H as [H|H]; [left; exact H|right; lia].
  - intros Hn.
    destruct (IsRoot claim) eqn:Hroot; [exfalso; apply Hn; left; reflexivity|].
    destruct (getParent_Some g claim Hroot) as [p [Hl Hg]].
    { unfold parent_in_range. lia. }
    exists p. split; [exact Hl|]. unfold DefendsParent. rewrite Hg. reflexivity.
Qed.

(** The chain determines the result. *)
Lemma first_on_chain_unique (g : gameState) (idx : Z) (c : Claim) (r1 r2 : Claim * bool) :
  first_on_chain g idx c r1 -> first_on_chain g idx c r2 -> r1 = r2.
Proof.
  intros H1. revert r2.
  induction H1 as [c He|c Hne Hr|c Hne Hr Ho|c p r Hne Hr Hi Hp H1 IH]; intros r2 H2;
    inversion H2; subst; try reflexivity; try congruence; try contradiction.
  apply IH. congruence.
Qed.

(** The search along a chain whose indices decrease: [n] bounds the parent
    index of the claim the loop is at, and [n + 1] iterations suffice. *)
Lemma ancestor_bounded (g : gameState) (idx : Z) :
  parents_before g ->
  forall (n : nat) (claim : Claim),
    ParentContractIndex claim < Z.of_nat n ->
    exists r, first_on_chain g idx claim r
              /\ forall fuel, (n < fuel)%nat -> AncestorWithTraceIndex fuel g claim idx = Some r.
Proof.
  intros Hbefore. induction n as [|n IH]; intros claim Hlt.
  - destruct (Z.eqb_spec (TraceIndex (claim_Position claim) (depth g)) idx) as [He|He].
    + exists (claim, true). split; [constructor; exact He|].
      intros [|fuel] Hf; [lia|]. simpl. apply Z.eqb_eq in He. rewrite He. reflexivity.
    + exists (Claim_zero, false).
      assert (getParent g claim = None) as Hn.
      { apply getParent_None. right. unfold parent_in_range. lia. }
      split.
      * destruct (IsRoot claim) eqn:Hroot.
        -- apply chain_root; assumption.
        -- apply chain_out_of_range; try assumption. unfold parent_in_range. lia.
      * intros [|fuel] Hf; [lia|]. simpl. apply Z.eqb_neq in He. rewrite He, Hn.
        destruct (IsRoot claim); reflexivity.
  - destruct (Z.eqb_spec (TraceIndex (claim_Position claim) (depth g)) idx) as [He|He].
    + exists (claim, true). split; [constructor; exact He|].
      intros [|fuel] Hf; [lia|]. simpl. apply Z.eqb_eq in He. rewrite He. reflexivity.
    + destruct (IsRoot claim) eqn:Hroot.
      * exists (Claim_zero, false). split; [apply chain_root; assumption|].
        intros [|fuel] Hf; [lia|]. simpl. apply Z.eqb_neq in He. rewrite He, Hroot. reflexivity.
      * destruct (getParent g claim) as [p|] eqn:Hp.
        -- assert (parent_in_range g claim) as Hin.
           { destruct (Z.le_gt_cases 0 (ParentContractIndex claim));
               destruct (Z.lt_ge_cases (ParentContractIndex claim) (len_claims g));
               try (unfold parent_in_range; lia);
               assert (getParent g claim = None) as Hn
                 by (apply getParent_None; right; unfold parent_in_range; lia);
               congruence. }
           destruct (getParent_Some g claim Hroot Hin) as [p' [Hl Hg]].
           assert (p' = p) as -> by congruence.
           destruct (IH p) as [r [Hr Hfuel]].
           { pose proof (Hbefore _ _ Hl) as Hb. unfold parent_in_range in Hin.
             rewrite Z2Nat.id in Hb by lia. lia. }
           exists r. split; [eapply chain_parent; eassumption|].
           intros [|fuel] Hf; [lia|]. simpl. apply Z.eqb_neq in He.
           rewrite He, Hroot, Hp. apply Hfuel. lia.
        -- exists (Claim_zero, false). apply getParent_None in Hp.
           destruct Hp as [Hp|Hp]; [congruence|].
           split; [apply chain_out_of_range; assumption|].
           intros [|fuel] Hf; [lia|]. simpl. apply Z.eqb_neq in He.
           assert (getParent g claim = None) as Hn by (apply getParent_None; right; exact Hp).
           rewrite He, Hroot, Hn. reflexivity.
Qed.

(** C9: when every claim of the list points to an earlier index and the
    starting claim's parent index is below the list length, the loop of
    [AncestorWithTraceIndex] terminates (one iteration more than the length of
    the list is enough, and every larger budget gives the same result), and
    its result is the first claim on the parent chain with trace index [idx],
    or the zero claim and [false] when the chain ends without one. *)
Theorem AncestorWithTraceIndex_terminates (g : gameState) (claim : Claim) (idx : Z) :
  parents_before g ->
  ParentContractIndex claim < len_claims g ->
  exists r,
    first_on_chain g idx claim r
    /\ forall fuel, (length (claims g) < fuel)%nat ->
                    AncestorWithTraceIndex fuel g claim idx = Some r.
Proof.
  intros Hbefore Hlt.
  exact (ancestor_bounded g idx Hbefore (length (claims g)) claim Hlt).
Qed.

End GameStateFacts.

Lemma AncestorWithTraceIndex_terminates_witness :
  @parents_before toy_ops toy_game
  /\ (forall fuel, (3 < fuel)%nat ->
        @AncestorWithTraceIndex toy_ops fuel toy_game (5, 1, false) 1
        = Some ((1, -1, true), true)).
Proof.
  assert (@parents_before toy_ops toy_game) as Hb.
  { intros i c Hi. destruct i as [|[|[|i]]]; simpl in Hi; simplify_eq; simpl; lia. }
  split; [exact Hb|].
  destruct (@AncestorWithTraceIndex_terminates toy_ops toy_game (5, 1, false) 1 Hb)
    as (r & _ & Hfuel).
  - simpl. unfold len_claims. simpl. lia.
  - intros fuel Hf. rewrite (Hfuel fuel Hf). symmetry.
    rewrite <- (Hfuel 4%nat) by (simpl; lia). reflexivity.
Defined.

Section IndexFacts.
Context `{hashing : ClaimHashing}.

Lemma index_lookup (cs : list Claim) (ids : gmap claimID bool) (k : claimID) :
  default false (foldl (fun ids claim => <[computeClaimID claim := true]> ids) ids cs !! k)
  = true
  <-> ids !! k = Some true \/ exists c, In c cs /\ computeClaimID c = k.
Proof.
  revert ids. induction cs as [|c cs IH]; intros ids; simpl.
  - split.
    + destruct (ids !! k) as [[|]|]; simpl; intros H; try discriminate. left. reflexivity.
    + intros [-> | (c & [] & _)]. reflexivity.
  - rewrite IH. split.
    + intros [H | (c' & Hin & Hk)].
      * destruct (decide (computeClaimID c = k)) as [He|Hne].
        -- right. exists c. split; [left; reflexivity | exact He].
        -- left. rewrite lookup_insert_ne in H by exact Hne. exact H.
      * right. exists c'. split; [right; exact Hin | exact Hk].
    + intros [H | (c' & [-> | Hin] & Hk)].
      * destruct (decide (computeClaimID c = k)) as [He|Hne].
        -- left. rewrite He. apply lookup_insert_eq.
        -- left. rewrite lookup_insert_ne by exact Hne. exact H.
      * left. rewrite Hk. apply lookup_insert_eq.
      * right. exists c'. split; [exact Hin | exact Hk].
Qed.

(** X12: [IsDuplicate] on a state made by [NewGameState] answers true
    exactly for the claims whose ID is the ID of one of the claims given to
    [NewGameState]; so it answers true for every claim that has the position,
    the value and the parent index of one of them, whatever its other fields,
    and false for every claim when the list is empty.  [Claims] gives back
    the list and [MaxDepth] the depth. *)
Theorem IsDuplicate_NewGameState (cs : list Claim) (d : Depth) (c : Claim) :
  (IsDuplicate (NewGameState cs d) c = true
   <-> exists c', In c' cs /\ computeClaimID c' = computeClaimID c)
  /\ (forall c', In c' cs -> claim_Position c' = claim_Position c ->
                  claim_Value c' = claim_Value c ->
                  ParentContractIndex c' = ParentContractIndex c ->
                  IsDuplicate (NewGameState cs d) c = true)
  /\ (cs = [] -> IsDuplicate (NewGameState cs d) c = false)
  /\ Claims (NewGameState cs d) = cs
  /\ MaxDepth (NewGameState cs d) = d.
Proof.
  assert (IsDuplicate (NewGameState cs d) c = true
          <-> exists c', In c' cs /\ computeClaimID c' = computeClaimID c) as Hiff.
  { unfold IsDuplicate, NewGameState. simpl. rewrite index_lookup. split.
    - intros [H | H]; [rewrite lookup_empty in H; discriminate | exact H].
    - intros H. right. exact H. }
  split; [exact Hiff|]. split; [|split; [|split]].
  - intros c' Hin Hp Hv Hi. apply Hiff. exists c'. split; [exact Hin|].
    unfold computeClaimID. rewrite Hp, Hv, Hi. reflexivity.
  - intros ->. reflexivity.
  - reflexivity.
  - reflexivity.
Qed.

End IndexFacts.

Section LevelFacts.
Context `{lvl : ClaimLevel}.

(** X13: for a claim at a depth that is not negative, [AgreeWithClaimLevel]
    answers [agreeWithRootClaim] at even depths and its negation at odd
    depths: the answer at the root level is [agreeWithRootClaim], it flips
    from one level to the next, and it flips with [agreeWithRootClaim]. *)
Theorem AgreeWithClaimLevel_by_parity (g : gameState) (claim : Claim) (a : bool) :
  0 <= claim_Depth claim ->
  AgreeWithClaimLevel g claim a = Bool.eqb a (Z.even (claim_Depth claim))
  /\ (claim_Depth claim = 0 -> AgreeWithClaimLevel g claim a = a)
  /\ (forall claim', claim_Depth claim' = claim_Depth claim + 1 ->
        AgreeWithClaimLevel g claim' a = negb (AgreeWithClaimLevel g claim a))
  /\ AgreeWithClaimLevel g claim (negb a) = negb (AgreeWithClaimLevel g claim a).
Proof.
  intros Hd.
  assert (forall c, 0 <= claim_Depth c ->
                    AgreeWithClaimLevel g c a = Bool.eqb a (Z.even (claim_Depth c))) as Hpar.
  { intros c Hc. unfold AgreeWithClaimLevel. rewrite Z.rem_mod_nonneg by lia.
    rewrite Zmod_even. destruct (Z.even (claim_Depth c)); destruct a; reflexivity. }
  split; [exact (Hpar claim Hd)|]. split; [|split].
  - intros Hz. rewrite (Hpar claim Hd), Hz. destruct a; reflexivity.
  - intros claim' Hn. rewrite (Hpar claim Hd), (Hpar claim') by lia.
    rewrite Hn, Z.even_add. simpl.
    destruct (Z.even (claim_Depth claim)); destruct a; reflexivity.
  - unfold AgreeWithClaimLevel. destruct a; simpl; rewrite ?negb_involutive; reflexivity.
Qed.

End LevelFacts.

Section AncestorFacts.
Context `{ops : ClaimOps}.

Lemma lookup_In {A} (l : list A) (i : nat) (x : A) : l !! i = Some x -> In x l.
Proof.
  revert i. induction l as [|a l IH]; intros [|i] H; simpl in *; try discriminate.
  - injection H as ->. left. reflexivity.
  - right. exact (IH i H).
Qed.

Lemma getParent_In (g : gameState) (c p : Claim) :
  getParent g c = Some p ->
  IsRoot c = false /\ parent_in_range g c
  /\ claims g !! Z.to_nat (ParentContractIndex c) = Some p.
Proof.
  intros Hp.
  destruct (IsRoot c) eqn:Hroot.
  { unfold getParent in Hp. rewrite Hroot in Hp. discriminate. }
  assert (parent_in_range g c) as Hin.
  { destruct (Z.le_gt_cases 0 (ParentContractIndex c));
      destruct (Z.lt_ge_cases (ParentContractIndex c) (len_claims g));
      try (unfold parent_in_range; lia);
      assert (getParent g c = None) as Hn
        by (apply getParent_None; right; unfold parent_in_range; lia);
      congruence. }
  destruct (getParent_Some g c Hroot Hin) as [p' [Hl Hg]].
  split; [reflexivity|]. split; [exact Hin|]. congruence.
Qed.

(** One iteration that goes on. *)
Lemma loop_step (g : gameState) (idx : Z) (c p : Claim) (fuel : nat) :
  goes_on g idx c -> getParent g c = Some p ->
  AncestorWithTraceIndex (S fuel) g c idx = AncestorWithTraceIndex fuel g p idx.
Proof.
  intros (Hne & Hroot & _) Hp. simpl. apply Z.eqb_neq in Hne.
  rewrite Hne, Hroot, Hp. reflexivity.
Qed.

(** A result does not change with more iterations. *)
Lemma ancestor_mono (g : gameState) (idx : Z) (fuel fuel' : nat) (c : Claim)
    (r : Claim * bool) :
  AncestorWithTraceIndex fuel g c idx = Some r -> (fuel <= fuel')%nat ->
  AncestorWithTraceIndex fuel' g c idx = Some r.
Proof.
  revert fuel' c. induction fuel as [|fuel IH]; intros fuel' c H Hle; [discriminate|].
  destruct fuel' as [|fuel']; [lia|]. simpl in *.
  destruct (TraceIndex (claim_Position c) (depth g) =? idx); [exact H|].
  destruct (IsRoot c); [exact H|].
  destruct (getParent g c) as [p|]; [|exact H]. apply IH; [exact H | lia].
Qed.

(** X14: on any game (also one whose parent indexes form a cycle), when the
    loop of [AncestorWithTraceIndex] returns, it returns the first claim on
    the parent chain with trace index [idx], or the zero claim and [false]
    when the chain ends before one; a larger budget of iterations gives the
    same result; a claim that is found has trace index [idx] and is the
    starting claim or a claim of the game. *)
Theorem AncestorWithTraceIndex_sound (fuel : nat) (g : gameState) (claim : Claim) (idx : Z)
    (r : Claim * bool) :
  AncestorWithTraceIndex fuel g claim idx = Some r ->
  first_on_chain g idx claim r
  /\ (forall fuel', (fuel <= fuel')%nat -> AncestorWithTraceIndex fuel' g claim idx = Some r)
  /\ (snd r = true ->
      TraceIndex (claim_Position (fst r)) (depth g) = idx
      /\ (fst r = claim \/ In (fst r) (claims g)))
  /\ (snd r = false -> fst r = Claim_zero).
Proof.
  intros Hrun. split; [|split].
  - revert claim Hrun. induction fuel as [|fuel IH]; intros claim H; simpl in H; [discriminate|].
    destruct (Z.eqb_spec (TraceIndex (claim_Position claim) (depth g)) idx) as [He|He].
    { injection H as <-. constructor. exact He. }
    destruct (IsRoot claim) eqn:Hroot.
    { injection H as <-. apply chain_root; assumption. }
    destruct (getParent g claim) as [p|] eqn:Hp.
    + destruct (getParent_In g claim p Hp) as (_ & Hin & Hl).
      eapply chain_parent; try eassumption. exact (IH p H).
    + injection H as <-. apply getParent_None in Hp. destruct Hp as [Hp|Hp]; [congruence|].
      apply chain_out_of_range; assumption.
  - intros fuel' Hle. exact (ancestor_mono g idx fuel fuel' claim r Hrun Hle).
  - revert claim Hrun. induction fuel as [|fuel IH]; intros claim H; simpl in H; [discriminate|].
    destruct (Z.eqb_spec (TraceIndex (claim_Position claim) (depth g)) idx) as [He|He].
    { injection H as <-. split; [|discriminate]. intros _. split; [exact He | left; reflexivity]. }
    destruct (IsRoot claim) eqn:Hroot.
    { injection H as <-. split; [discriminate | reflexivity]. }
    destruct (getParent g claim) as [p|] eqn:Hp.
    + destruct (getParent_In g claim p Hp) as (_ & _ & Hl).
      destruct (IH p H) as [Ht Hf]. split; [|exact Hf].
      intros Hs. destruct (Ht Hs) as [Hi [Hx | Hx]]; (split; [exact Hi|]); right.
      * rewrite Hx. exact (lookup_In _ _ _ Hl).
      * exact Hx.
    + injection H as <-. split; [discriminate | reflexivity].
Qed.

(** X15: the loop of [AncestorWithTraceIndex] does not return when the
    parent chain of the claim never leaves a set of claims none of which is a
    root claim or has trace index [idx], as on a cycle of parent indexes:
    no budget of iterations is enough. *)
Theorem AncestorWithTraceIndex_diverges (g : gameState) (idx : Z) (trap : Claim -> Prop)
    (claim : Claim) :
  (forall c, trap c -> goes_on g idx c /\ exists p, getParent g c = Some p /\ trap p) ->
  trap claim ->
  forall fuel, AncestorWithTraceIndex fuel g claim idx = None.
Proof.
  intros Htrap Hc fuel. revert claim Hc.
  induction fuel as [|fuel IH]; intros claim Hc; [reflexivity|].
  destruct (Htrap claim Hc) as (Hgo & p & Hp & Hpt).
  rewrite (loop_step g idx claim p fuel Hgo Hp). exact (IH p Hpt).
Qed.

(** Among [n + 1] numbers below [n] two are equal. *)
Lemma find_value (f : nat -> nat) (v : nat) (n : nat) :
  (exists k, (k <= n)%nat /\ f k = v) \/ (forall k, (k <= n)%nat -> f k <> v).
Proof.
  induction n as [|n [(k & Hk & He) | Hn]].
  - destruct (decide (f 0%nat = v)) as [He|Hne].
    + left. exists 0%nat. split; [lia | exact He].
    + right. intros k Hk. replace k with 0%nat by lia. exact Hne.
  - left. exists k. split; [lia | exact He].
  - destruct (decide (f (S n) = v)) as [He|Hne].
    + left. exists (S n). split; [lia | exact He].
    + right. intros k Hk. destruct (decide (k = S n)) as [->|Hlt]; [exact Hne|].
      apply Hn. lia.
Qed.

Lemma pigeonhole (n : nat) (f : nat -> nat) :
  (forall k, (k <= n)%nat -> (f k < n)%nat) ->
  exists a b, (a < b)%nat /\ (b <= n)%nat /\ f a = f b.
Proof.
  revert f. induction n as [|n IH]; intros f Hf.
  - specialize (Hf 0%nat). lia.
  - destruct (find_value f (f (S n)) n) as [(k & Hk & He) | Hn].
    + exists k, (S n). split; [lia|]. split; [lia | exact He].
    + destruct (IH (fun k => if (f k <? f (S n))%nat then f k else pred (f k)))
        as (a & b & Hab & Hb & He).
      * intros k Hk. pose proof (Hf k) as H1. pose proof (Hf (S n)) as H2.
        pose proof (Hn k Hk) as H3.
        destruct (Nat.ltb_spec (f k) (f (S n))); lia.
      * exists a, b. split; [exact Hab|]. split; [lia|].
        pose proof (Hn a) as Ha. pose proof (Hn b) as Hb'.
        destruct (Nat.ltb_spec (f a) (f (S n))); destruct (Nat.ltb_spec (f b) (f (S n))); lia.
Qed.

Lemma ancestor_S (g : gameState) (k : nat) (c : Claim) :
  ancestor g (S k) c
  = match ancestor g k c with Some a => getParent g a | None => None end.
Proof.
  revert c. induction k as [|k IH]; intros c.
  - simpl. destruct (getParent g c); reflexivity.
  - change (ancestor g (S (S k)) c)
      with (match getParent g c with Some p => ancestor g (S k) p | None => None end).
    destruct (getParent g c) as [p|] eqn:Hp.
    + rewrite IH. simpl. rewrite Hp. reflexivity.
    + simpl. rewrite Hp. reflexivity.
Qed.

(** When [n + 1] iterations are not enough, the loop went on at each of
    them. *)
Lemma none_goes_on (g : gameState) (idx : Z) (n : nat) (c : Claim) :
  AncestorWithTraceIndex (S n) g c idx = None ->
  forall k, (k <= n)%nat -> exists a, ancestor g k c = Some a /\ goes_on g idx a.
Proof.
  revert c. induction n as [|n IH]; intros c H k Hk.
  - replace k with 0%nat by lia. exists c. split; [reflexivity|].
    simpl in H. unfold goes_on.
    destruct (Z.eqb_spec (TraceIndex (claim_Position c) (depth g)) idx); [discriminate|].
    destruct (IsRoot c); [discriminate|].
    destruct (getParent g c) as [p|]; [|discriminate]. eauto.
  - change (AncestorWithTraceIndex (S (S n)) g c idx)
      with (if TraceIndex (claim_Position c) (depth g) =? idx then Some (c, true)
            else if IsRoot c then Some (Claim_zero, false)
            else match getParent g c with
                 | None => Some (Claim_zero, false)
                 | Some next => AncestorWithTraceIndex (S n) g next idx
                 end) in H.
    destruct (Z.eqb_spec (TraceIndex (claim_Position c) (depth g)) idx); [discriminate|].
    destruct (IsRoot c) eqn:Hroot; [discriminate|].
    destruct (getParent g c) as [p|] eqn:Hp; [|discriminate].
    destruct k as [|k].
    + exists c. split; [reflexivity|]. unfold goes_on. eauto.
    + simpl. rewrite Hp. apply (IH p H). lia.
Qed.

(** X18: the loop of [AncestorWithTraceIndex] either returns within one
    iteration more than the number of claims, and then gives the same result
    for every larger budget, or it never returns. *)
Theorem AncestorWithTraceIndex_returns_early_or_never (g : gameState) (claim : Claim)
    (idx : Z) :
  (exists r, forall fuel, (length (claims g) < fuel)%nat ->
                          AncestorWithTraceIndex fuel g claim idx = Some r)
  \/ (forall fuel, AncestorWithTraceIndex fuel g claim idx = None).
Proof.
  set (len := length (claims g)).
  destruct (AncestorWithTraceIndex (S len) g claim idx) as [r|] eqn:Hrun.
  - left. exists r. intros fuel Hf.
    apply (ancestor_mono g idx (S len) fuel claim r Hrun). lia.
  - right. pose proof (none_goes_on g idx len claim Hrun) as Hon.
    set (f := fun k => match ancestor g k claim with
                       | Some a => Z.to_nat (ParentContractIndex a)
                       | None => 0%nat
                       end).
    assert (forall k a, ancestor g k claim = Some a -> goes_on g idx a ->
                        (f k < len)%nat
                        /\ ancestor g (S k) claim = claims g !! f k
                        /\ exists p, ancestor g (S k) claim = Some p) as Hnext.
    { intros k a Ha (_ & _ & p & Hp). destruct (getParent_In g a p Hp) as (_ & Hin & Hl).
      unfold f. rewrite ancestor_S, Ha. unfold parent_in_range, len_claims in Hin.
      split; [subst len; lia|]. split; [congruence | eauto]. }
    destruct (pigeonhole len f) as (a & b & Hab & Hb & He).
    { intros k Hk. destruct (Hon k Hk) as (x & Hx & Hg). exact (proj1 (Hnext k x Hx Hg)). }
    set (trap := fun x => exists k, (k <= b)%nat /\ ancestor g k claim = Some x).
    assert (forall x, trap x -> goes_on g idx x /\ exists p, getParent g x = Some p /\ trap p)
      as Htrap.
    { intros x (k & Hk & Hx). destruct (Hon k (Nat.le_trans _ _ _ Hk Hb)) as (x' & Hx' & Hg).
      assert (x' = x) as -> by congruence. split; [exact Hg|].
      destruct (Hnext k x Hx Hg) as (_ & Hl & p & Hp).
      exists p. split.
      - rewrite ancestor_S, Hx in Hp. exact Hp.
      - destruct (decide (k = b)) as [->|Hne].
        + exists (S a). split; [lia|].
          destruct (Hon a) as (xa & Hxa & Hga); [lia|].
          destruct (Hnext a xa Hxa Hga) as (_ & Hla & _).
          rewrite Hla, He, <- Hl. exact Hp.
        + exists (S k). split; [lia | exact Hp]. }
    assert (trap claim) as Hc by (exists 0%nat; split; [lia | reflexivity]).
    assert (forall fuel x, trap x -> AncestorWithTraceIndex fuel g x idx = None) as Hall.
    { induction fuel as [|fuel IH]; intros x Hx; [reflexivity|].
      destruct (Htrap x Hx) as (Hgo & p & Hp & Hpt).
      rewrite (loop_step g idx x p fuel Hgo Hp). exact (IH p Hpt). }
    intros fuel. exact (Hall fuel claim Hc).
Qed.

End AncestorFacts.

Lemma AgreeWithClaimLevel_by_parity_witness :
  @AgreeWithClaimLevel toy_ops toy_level toy_game (5, 1, false) true = true
  /\ @AgreeWithClaimLevel toy_ops toy_level toy_game (2, 0, false) true = false.
Proof.
  destruct (@AgreeWithClaimLevel_by_parity toy_ops toy_level toy_game (2, 0, false) true)
    as (H1 & _ & Hnext & _).
  - vm_compute. discriminate.
  - split.
    + rewrite (Hnext (5, 1, false)) by reflexivity. rewrite H1. reflexivity.
    + rewrite H1. reflexivity.
Defined.

Lemma AncestorWithTraceIndex_sound_witness :
  @first_on_chain toy_ops toy_game 1 (5, 1, false) ((1, -1, true), true)
  /\ In (1, -1, true) (@claims toy_ops toy_game).
Proof.
  destruct (@AncestorWithTraceIndex_sound toy_ops 3 toy_game (5, 1, false) 1
              ((1, -1, true), true)) as (Hc & _ & Hfound & _).
  - reflexivity.
  - split; [exact Hc|]. destruct (Hfound eq_refl) as [_ [He | Hin]].
    + discriminate.
    + exact Hin.
Defined.

Lemma AncestorWithTraceIndex_diverges_witness :
  @AncestorWithTraceIndex toy_ops 1000 looping_game (2, 0, false) 7 = None.
Proof.
  refine (@AncestorWithTraceIndex_diverges toy_ops looping_game 7
            (fun c => c = (2, 0, false)) (2, 0, false) _ _ 1000%nat).
  - intros c ->. split.
    + split; [simpl; lia|]. split; [reflexivity|]. exists (2, 0, false). reflexivity.
    + exists (2, 0, false). split; reflexivity.
  - reflexivity.
Defined.

End GameFacts.

(** ** The transaction queue *)

Module TxQueueFacts.
Import TxQueue.

(** ** Sums over lists *)

Lemma wsum_app {A} (f : A -> Z) (l1 l2 : list A) :
  wsum f (l1 ++ l2) = wsum f l1 + wsum f l2.
Proof. unfold wsum. induction l1 as [|x l1 IH]; simpl; lia. Qed.

Lemma wsum_insert {A} (f : A -> Z) (l : list A) (i : nat) (x y : A) :
  l !! i = Some x -> wsum f (<[i := y]> l) = wsum f l - f x + f y.
Proof.
  unfold wsum. revert i. induction l as [|a l IH]; intros [|i] H; simpl in *; try discriminate.
  - injection H as ->. lia.
  - rewrite (IH i H). lia.
Qed.

Lemma wsum_nonneg {A} (f : A -> Z) (l : list A) :
  (forall x, 0 <= f x) -> 0 <= wsum f l.
Proof. intros Hf. unfold wsum. induction l as [|a l IH]; simpl; [lia|]. specialize (Hf a). lia. Qed.

Lemma wsum_lookup_le {A} (f : A -> Z) (l : list A) (i : nat) (x : A) :
  (forall x, 0 <= f x) -> l !! i = Some x -> f x <= wsum f l.
Proof.
  intros Hf. revert i. induction l as [|a l IH]; intros [|i] H; simpl in *; try discriminate.
  - injection H as ->. pose proof (wsum_nonneg f l Hf). unfold wsum in *. lia.
  - specialize (IH i H). specialize (Hf a). unfold wsum in *. lia.
Qed.

Lemma wsum_zero {A} (f : A -> Z) (l : list A) :
  (forall i x, l !! i = Some x -> f x = 0) -> wsum f l = 0.
Proof.
  induction l as [|a l IH]; intros H; [reflexivity|].
  unfold wsum in *. simpl. rewrite (H 0%nat a eq_refl), IH; [lia|].
  intros i x Hi. exact (H (S i) x Hi).
Qed.

Lemma wsum_pos_lookup {A} (f : A -> Z) (l : list A) :
  0 < wsum f l -> exists i x, l !! i = Some x /\ 0 < f x.
Proof.
  induction l as [|a l IH]; unfold wsum in *; simpl; [lia|]. intros H.
  destruct (Z_lt_le_dec 0 (f a)) as [Ha|Ha].
  - exists 0%nat, a. split; [reflexivity | exact Ha].
  - destruct IH as (i & x & Hi & Hx); [lia|]. exists (S i), x. split; assumption.
Qed.

Lemma wsum_le {A} (f g : A -> Z) (l : list A) :
  (forall i x, l !! i = Some x -> f x <= g x) -> wsum f l <= wsum g l.
Proof.
  induction l as [|a l IH]; intros H; unfold wsum in *; simpl; [lia|].
  pose proof (H 0%nat a eq_refl). 
  assert (forall i x, l !! i = Some x -> f x <= g x) as H' by (intros i x Hi; exact (H (S i) x Hi)).
  specialize (IH H'). lia.
Qed.

Lemma wsum_replicate {A} (f : A -> Z) (n : nat) (x : A) :
  f x = 0 -> wsum f (replicate n x) = 0.
Proof. intros Hx. induction n as [|n IH]; unfold wsum in *; simpl; lia. Qed.

(** Reading a list after an update, by cases. *)
Lemma lookup_insert_cases {A} (l : list A) (i j : nat) (x y : A) :
  <[i := x]> l !! j = Some y -> (j = i /\ y = x) \/ (j <> i /\ l !! j = Some y).
Proof.
  intros H. destruct (decide (j = i)) as [->|Hne].
  - left. split; [reflexivity|].
    destruct (decide (i < length l)%nat) as [Hlt|Hge].
    + rewrite list_lookup_insert_eq in H by exact Hlt. congruence.
    + rewrite list_insert_ge in H by lia. apply lookup_lt_Some in H. lia.
  - right. split; [exact Hne|]. rewrite list_lookup_insert_ne in H by congruence. exact H.
Qed.

Lemma lookup_alter_cases {A} (f : A -> A) (l : list A) (i j : nat) (y : A) :
  alter f i l !! j = Some y ->
  (j = i /\ exists x, l !! i = Some x /\ y = f x) \/ (j <> i /\ l !! j = Some y).
Proof.
  intros H. destruct (decide (j = i)) as [->|Hne].
  - left. split; [reflexivity|]. rewrite list_lookup_alter_eq in H.
    destruct (l !! i) as [x|] eqn:E; simplify_eq/=. exists x. split; reflexivity.
  - right. split; [exact Hne|]. rewrite list_lookup_alter_ne in H by congruence. exact H.
Qed.

Lemma lookup_snoc_cases {A} (l : list A) (j : nat) (x y : A) :
  (l ++ [x]) !! j = Some y -> l !! j = Some y \/ (j = length l /\ y = x).
Proof.
  intros H. destruct (decide (j < length l)%nat) as [Hlt|Hge].
  - left. rewrite lookup_app_l in H by exact Hlt. exact H.
  - right. rewrite lookup_app_r in H by lia.
    destruct (j - length l)%nat as [|d] eqn:Hd; simpl in H; [|discriminate].
    split; [lia | congruence].
Qed.

Section QueueFacts.

Context {T TxCandidate types_Receipt error : Type}.
Local Abbreviation State := (State T TxCandidate types_Receipt error).
Local Abbreviation Action := (Action T TxCandidate types_Receipt error).
Local Abbreviation Caller := (@Caller T TxCandidate).
Local Abbreviation Task := (@Task T TxCandidate types_Receipt error).
Local Abbreviation Notifier := (@Notifier T types_Receipt error).
Local Abbreviation Delivery := (@Delivery T types_Receipt error).
Local Abbreviation Event := (@Event T TxCandidate types_Receipt error).
Local Abbreviation Item := (Item T TxCandidate).
Local Abbreviation TxReceipt := (TxReceipt T types_Receipt error).

(** *** Counters: the lock and [receiptWg] *)

(** Tactics: the cases of a step, the fields of the state it leaves, sums
    over updated lists, and facts about the phase of a goroutine. *)
Ltac unfold_steps H :=
  unfold exec, call, call_wait, caller_step, task_step, reply, notifier_step,
    groupContext, acquire, done, wg_Add, wg_Wait, wg_resume in H.

Ltac exec_cases H :=
  unfold_steps H; repeat case_match; simplify_eq.

Ltac simp_state :=
  cbn [goto advance cancel emit pendingChanged install returns fst snd
    set_ctxDone set_receiptWg set_receiptWaiters set_receiptWake set_pending set_groupLock
    set_group set_groups set_callers set_tasks set_notifiers set_written set_trace
    set_attempts set_results receipt_wg set_receipt_wg set_wg group_wg set_group_wg
    wg_counter wg_waiters wg_sema
    intSize maxPending ctxDone receiptWg receiptWaiters receiptWake pending groupLock group
    groups callers tasks notifiers written trace attempts results
    t_group t_attempt t_item t_phase n_attempt n_ch n_receipt n_phase
    g_limit g_sem g_wg g_waiters g_wake g_cancelled d_ch d_receipt d_attempt] in *.

Ltac wsum_simp :=
  repeat (erewrite wsum_insert by eassumption); rewrite ?wsum_app; simpl.

Ltac use_phase :=
  repeat match goal with
    | H : t_phase _ = _ |- _ => rewrite H in *; clear H
    | H : n_phase _ = _ |- _ => rewrite H in *; clear H
    | H : groupLock _ = _ |- _ => rewrite H in *; clear H
    end.

Lemma holds_lock_nonneg (c : Caller) : 0 <= holds_lock c.
Proof. destruct c; simpl; lia. Qed.

Lemma exec_Counters (a : Action) (s s' : State) :
  Counters s -> exec a s = Next s' -> Counters s'.
Proof.
  intros [Hl Hr] H. exec_cases H; split; simp_state; wsum_simp;
    try match goal with
      | Hc : callers _ !! _ = Some _ |- _ =>
          pose proof (wsum_lookup_le holds_lock _ _ _ holds_lock_nonneg Hc)
      end;
    unfold unreported, unsettled, b2z in *; simp_state; use_phase;
    try match goal with Hx : context [groupLock ?s] |- _ => destruct (groupLock s) end;
    simpl in *; lia.
Qed.

(** *** The errgroup objects *)

Lemma to_int_id (b u : Z) : (b = 32 \/ b = 64) -> 0 <= u <= MaxInt b -> to_int b u = u.
Proof.
  unfold to_int, MaxInt. intros [-> | ->] Hu.
  - change (2 ^ (32 - 1)) with 2147483648 in *. change (2 ^ 32) with 4294967296.
    rewrite Z.mod_small by lia. destruct (Z.ltb_spec u 2147483648); lia.
  - change (2 ^ (64 - 1)) with 9223372036854775808 in *.
    change (2 ^ 64) with 18446744073709551616.
    rewrite Z.mod_small by lia. destruct (Z.ltb_spec u 9223372036854775808); lia.
Qed.

Lemma fresh_group_spec (s : State) :
  Configured s -> fresh_group s = mkGroup (limit_of s) 0 0 0 0 false.
Proof.
  intros [Hb Hm]. unfold fresh_group, limit_of, SetLimit.
  destruct (Z.ltb_spec 0 (maxPending s)); [|reflexivity].
  rewrite (to_int_id _ _ Hb Hm). destruct (Z.ltb_spec (maxPending s) 0); [lia|reflexivity].
Qed.

Lemma exec_const (a : Action) (s s' : State) :
  exec a s = Next s' -> intSize s' = intSize s /\ maxPending s' = maxPending s.
Proof. intros H. exec_cases H; simp_state; try destruct m; simp_state; auto. Qed.

Lemma exec_Configured (a : Action) (s s' : State) :
  Configured s -> exec a s = Next s' -> Configured s'.
Proof.
  intros Hc H. destruct (exec_const _ _ _ H) as [Hi Hm]. unfold Configured. rewrite Hi, Hm. exact Hc.
Qed.

(** Tactics: the cases of a read of an updated list; lengths; comparisons of
    integers as propositions. *)
Ltac split_lookup :=
  repeat match goal with
    | H : <[_ := _]> _ !! _ = Some _ |- _ =>
        apply lookup_insert_cases in H as [[? ?] | [? H]]; simplify_eq
    | H : alter _ _ _ !! _ = Some _ |- _ =>
        apply lookup_alter_cases in H as [[? (? & ? & ?)] | [? H]]; simplify_eq
    | H : (_ ++ [_]) !! _ = Some _ |- _ =>
        apply lookup_snoc_cases in H as [H | [? ?]]; simplify_eq
    end.

Ltac simp_len := rewrite ?length_insert, ?length_alter, ?length_app; simpl.

Ltac bool_to_prop :=
  repeat match goal with
    | H : (_ <? _) = true |- _ => apply Z.ltb_lt in H
    | H : (_ <? _) = false |- _ => apply Z.ltb_ge in H
    | H : (_ <=? _) = true |- _ => apply Z.leb_le in H
    | H : (_ <=? _) = false |- _ => apply Z.leb_gt in H
    | H : (_ =? _) = true |- _ => apply Z.eqb_eq in H
    | H : (_ =? _) = false |- _ => apply Z.eqb_neq in H
    | H : (_ && _) = true |- _ => apply andb_true_iff in H as [? ?]
    | H : (_ && _) = false |- _ => apply andb_false_iff in H as [?|?]
    | H : (_ || _) = true |- _ => apply orb_true_iff in H as [?|?]
    | H : (_ || _) = false |- _ => apply orb_false_iff in H as [? ?]
    | H : negb _ = true |- _ => apply negb_true_iff in H
    | H : negb _ = false |- _ => apply negb_false_iff in H
    end.

Lemma exec_grp_valid (a : Action) (s s' : State) :
  Groups s -> exec a s = Next s' ->
  (forall i c g, callers s' !! i = Some c -> caller_group c = Some g ->
                 (g < length (groups s'))%nat)
  /\ (forall j t, tasks s' !! j = Some t -> (t_group t < length (groups s'))%nat)
  /\ (forall g, group s' = Some g -> (g < length (groups s'))%nat).
Proof.
  intros [Hc Ht Hg _ _ _] H.
  exec_cases H; simp_state; (split; [|split]); simp_len;
    intros; split_lookup; simplify_eq/=; simp_len;
    try (match goal with
         | Hl : callers _ !! _ = Some ?c |- _ =>
             assert (caller_group c = Some _) as Hcg by reflexivity;
             pose proof (Hc _ _ _ Hl Hcg); clear Hcg
         end);
    try (match goal with
         | Hl : callers _ !! _ = Some _, Hcg : caller_group _ = Some _ |- _ =>
             pose proof (Hc _ _ _ Hl Hcg)
         end);
    try (match goal with Hl : tasks _ !! _ = Some _ |- _ => pose proof (Ht _ _ Hl) end);
    try (match goal with Hl : group _ = Some _ |- _ => pose proof (Hg _ Hl) end);
    try lia; try (eapply lookup_lt_Some; eassumption); eauto.
Qed.

Lemma exec_grp_limit (a : Action) (s s' : State) :
  Groups s -> Configured s -> exec a s = Next s' ->
  forall g G, groups s' !! g = Some G -> g_limit G = limit_of s'.
Proof.
  intros [_ _ _ Hlim _ _] Hcf H.
  assert (limit_of s' = limit_of s) as ->.
  { destruct (exec_const _ _ _ H) as [_ Hm]. unfold limit_of. rewrite Hm. reflexivity. }
  pose proof (fresh_group_spec s Hcf) as Hf.
  exec_cases H; simp_state; intros; split_lookup; simplify_eq/=;
    try (unfold fresh_group in *; simp_state; rewrite Hf; reflexivity);
    eauto; try (erewrite <- Hlim by eassumption; congruence).
Qed.

Lemma active_fresh (s : State) :
  Groups s -> wsum (active (length (groups s))) (tasks s) = 0.
Proof.
  intros HG. apply wsum_zero. intros j t Hj. pose proof (grp_tasks s HG j t Hj).
  unfold active. case_bool_decide; [lia | reflexivity].
Qed.

Lemma holding_fresh (s : State) :
  Groups s -> wsum (holding (length (groups s))) (callers s) = 0.
Proof.
  intros HG. apply wsum_zero. intros i c Hi.
  destruct c; try reflexivity. simpl.
  pose proof (grp_callers s HG i _ g Hi eq_refl).
  case_bool_decide; [lia | reflexivity].
Qed.

(** Tactic: the counter of every group at hand. *)
Ltac use_wg Hwg :=
  repeat match goal with
    | Hl : groups _ !! ?g = Some ?G |- _ =>
        lazymatch goal with
        | _ : g_wg G = wsum (active g) _ |- _ => fail
        | _ => pose proof (Hwg g G Hl)
        end
    end.

Lemma exec_grp_wg (a : Action) (s s' : State) :
  Groups s -> Configured s -> exec a s = Next s' ->
  forall g G, groups s' !! g = Some G -> g_wg G = wsum (active g) (tasks s').
Proof.
  intros HG Hcf H. pose proof (grp_wg s HG) as Hwg.
  pose proof (active_fresh s HG) as Hfr. pose proof (fresh_group_spec s Hcf) as Hf.
  exec_cases H; simp_state; intros; split_lookup; simplify_eq/=; simp_len;
    try (unfold fresh_group in *; simp_state; rewrite Hf);
    use_wg Hwg; wsum_simp; simp_state; bool_to_prop;
    unfold active in *; simp_state; use_phase;
    repeat case_bool_decide; simplify_eq/=; lia.
Qed.

Lemma limit_of_Some (s : State) (L : Z) :
  limit_of s = Some L -> 0 < L /\ L = maxPending s.
Proof.
  unfold limit_of. destruct (Z.ltb_spec 0 (maxPending s)); intros Heq; simplify_eq. lia.
Qed.

(** Tactic: the semaphore of every limited group at hand. *)
Ltac use_sem Hsem :=
  repeat match goal with
    | Hl : groups _ !! ?g = Some ?G, HL : g_limit ?G = Some ?L |- _ =>
        lazymatch goal with
        | _ : g_sem G = g_wg G + _ /\ _ |- _ => fail
        | _ => pose proof (Hsem g G L Hl HL)
        end
    end.

Lemma exec_grp_sem (a : Action) (s s' : State) :
  Groups s -> Configured s -> exec a s = Next s' ->
  forall g G L, groups s' !! g = Some G -> g_limit G = Some L ->
                g_sem G = g_wg G + wsum (holding g) (callers s') /\ g_sem G <= L.
Proof.
  intros HG Hcf H. pose proof (grp_sem s HG) as Hsem.
  pose proof (holding_fresh s HG) as Hfr. pose proof (fresh_group_spec s Hcf) as Hf.
  assert (0 <= maxPending s) as Hm0 by (destruct Hcf as [_ ?]; lia).
  exec_cases H; simp_state; intros g' G' L' Hl' HL'; split_lookup; simplify_eq/=; simp_len;
    unfold fresh_group in *; simp_state; try rewrite Hf in HL'; rewrite ?Hf; simp_state;
    try match goal with HL : limit_of _ = Some _ |- _ => apply limit_of_Some in HL end;
    use_sem Hsem; wsum_simp; simp_state; bool_to_prop;
    unfold holding, b2z in *; simp_state;
    repeat case_bool_decide; simplify_eq/=; lia.
Qed.

Lemma exec_Groups (a : Action) (s s' : State) :
  Groups s -> Configured s -> exec a s = Next s' -> Groups s'.
Proof.
  intros HG Hcf H. destruct (exec_grp_valid _ _ _ HG H) as (H1 & H2 & H3).
  constructor; try assumption.
  - exact (exec_grp_limit _ _ _ HG Hcf H).
  - exact (exec_grp_wg _ _ _ HG Hcf H).
  - exact (exec_grp_sem _ _ _ HG Hcf H).
Qed.

(** *** The ledger of calls: where each call of [Send]/[TrySend] stands *)

(** Tactic: the two modes of a call, where the step depends on it. *)
Ltac split_mode :=
  repeat match goal with
    | H : context [match ?m with Blocking => _ | NonBlocking => _ end] |- _ => destruct m
    | |- context [match ?m with Blocking => _ | NonBlocking => _ end] => destruct m
    end;
  rewrite ?app_nil_r in *.

Lemma exec_led_data (a : Action) (s s' : State) :
  Ledger s -> exec a s = Next s' ->
  (forall i c m k it, callers s' !! i = Some c -> caller_call c = Some (m, k, it) ->
                      attempts s' !! k = Some (m, it))
  /\ (forall j t, tasks s' !! j = Some t ->
                  exists m, attempts s' !! t_attempt t = Some (m, t_item t))
  /\ (forall n x, notifiers s' !! n = Some x ->
                  exists m it, attempts s' !! n_attempt x = Some (m, it)
                               /\ receipt_for it (n_ch x) (n_receipt x))
  /\ (forall w d, written s' !! w = Some d ->
                  exists m it, attempts s' !! d_attempt d = Some (m, it)
                               /\ receipt_for it (d_ch d) (d_receipt d))
  /\ (forall r k b, results s' !! r = Some (k, b) ->
                    exists it, attempts s' !! k = Some (NonBlocking, it)).
Proof.
  intros [_ _ Hc Ht Hn Hw Hr] H.
  exec_cases H; simp_state; (split; [|split; [|split; [|split]]]);
    intros; split_mode; split_lookup; simplify_eq/=;
    repeat match goal with
      | Hl : callers _ !! _ = Some _ |- _ =>
          pose proof (Hc _ _ _ _ _ Hl eq_refl); clear Hl
      | Hl : tasks _ !! _ = Some _ |- _ => destruct (Ht _ _ Hl) as [? ?]; clear Hl
      | Hl : notifiers _ !! _ = Some _ |- _ => destruct (Hn _ _ Hl) as (? & ? & ? & ?); clear Hl
      | Hl : written _ !! _ = Some _ |- _ => destruct (Hw _ _ Hl) as (? & ? & ? & ?); clear Hl
      | Hl : results _ !! _ = Some _ |- _ => destruct (Hr _ _ _ Hl) as [? ?]; clear Hl
      end;
    unfold receipt_for in *; simp_state;
    eauto 7 using lookup_app_l_Some, list_lookup_middle.
Qed.

Lemma in_call_nonneg k (c : Caller) : 0 <= in_call k c.
Proof. unfold in_call, b2z. repeat case_match; lia. Qed.
Lemma in_task_nonneg k (t : Task) : 0 <= in_task k t.
Proof. unfold in_task, unreported. repeat case_match; lia. Qed.
Lemma in_notifier_nonneg k (x : Notifier) : 0 <= in_notifier k x.
Proof. unfold in_notifier. repeat case_match; lia. Qed.
Lemma delivered_nonneg k (d : Delivery) : 0 <= delivered k d.
Proof. unfold delivered, b2z. repeat case_match; lia. Qed.
Lemma answered_nonneg k b (r : nat * bool) : 0 <= answered k b r.
Proof. unfold answered, b2z. repeat case_match; lia. Qed.

(** Tactics: sums as unknowns of linear arithmetic, and their signs. *)
Ltac hide_wsum :=
  repeat match goal with
    | |- context [wsum ?f ?l] =>
        let x := fresh "W" in set (x := wsum f l) in *; clearbody x
    | H : context [wsum ?f ?l] |- _ =>
        let x := fresh "W" in set (x := wsum f l) in *; clearbody x
    end.

Ltac ledger_bounds s k :=
  pose proof (wsum_nonneg (in_call k) (callers s) (in_call_nonneg k));
  pose proof (wsum_nonneg (in_task k) (tasks s) (in_task_nonneg k));
  pose proof (wsum_nonneg (in_notifier k) (notifiers s) (in_notifier_nonneg k));
  pose proof (wsum_nonneg (delivered k) (written s) (delivered_nonneg k));
  pose proof (wsum_nonneg (answered k false) (results s) (answered_nonneg k false));
  pose proof (wsum_nonneg (answered k true) (results s) (answered_nonneg k true)).

Lemma exec_led_one (a : Action) (s s' : State) :
  Ledger s -> exec a s = Next s' ->
  forall k,
    wsum (in_call k) (callers s') + wsum (in_task k) (tasks s')
    + wsum (in_notifier k) (notifiers s') + wsum (delivered k) (written s')
    + wsum (answered k false) (results s')
    = b2z (bool_decide (k < length (attempts s'))%nat).
Proof.
  intros HL H k. pose proof (led_one s HL k) as Hk. 
  exec_cases H; simp_state; split_mode; wsum_simp; simp_len; hide_wsum;
    unfold in_call, in_task, in_notifier, delivered, answered, unreported, b2z in *;
    simp_state; use_phase;
    repeat (case_bool_decide; simplify_eq/=); lia.
Qed.

Lemma answered_fresh (s : State) (k : nat) (b : bool) :
  Ledger s -> (length (attempts s) <= k)%nat -> wsum (answered k b) (results s) = 0.
Proof.
  intros HL Hk. apply wsum_zero. intros r [k' b'] Hr.
  destruct (led_results s HL r k' b' Hr) as [it Hit]. apply lookup_lt_Some in Hit.
  unfold answered, b2z. case_bool_decide; simplify_eq; [lia | reflexivity].
Qed.

Lemma exec_led_granted (a : Action) (s s' : State) :
  Ledger s -> exec a s = Next s' ->
  forall k,
    wsum (answered k true) (results s') = 0
    \/ (wsum (in_call k) (callers s') = 0 /\ wsum (answered k false) (results s') = 0).
Proof.
  intros HL H k. pose proof (led_one s HL k) as Hk. pose proof (led_granted s HL k) as Hg.
  ledger_bounds s k.
  assert (forall i c, callers s !! i = Some c -> in_call k c <= wsum (in_call k) (callers s))
    as Hle by (intros i c; apply wsum_lookup_le, in_call_nonneg).
  assert ((length (attempts s) <= k)%nat -> wsum (answered k true) (results s) = 0) as Hfr
    by (apply answered_fresh; exact HL).
  exec_cases H; simp_state; split_mode;
    try match goal with Hl : callers _ !! _ = Some _ |- _ => pose proof (Hle _ _ Hl) end;
    clear Hle;
    wsum_simp; simp_len; hide_wsum;
    unfold in_call, in_task, in_notifier, delivered, answered, unreported, b2z in *;
    simp_state; use_phase;
    repeat (case_bool_decide; simplify_eq/=); lia.
Qed.

Lemma exec_Ledger (a : Action) (s s' : State) :
  Ledger s -> exec a s = Next s' -> Ledger s'.
Proof.
  intros HL H. destruct (exec_led_data _ _ _ HL H) as (H1 & H2 & H3 & H4 & H5).
  constructor; try assumption.
  - exact (exec_led_one _ _ _ HL H).
  - exact (exec_led_granted _ _ _ HL H).
Qed.

(** *** The events of a task, in order *)

Lemma events_of_app j (tr1 tr2 : list (nat * Event)) :
  events_of j (tr1 ++ tr2) = events_of j tr1 ++ events_of j tr2.
Proof.
  induction tr1 as [|[j' e] tr1 IH]; simpl; [reflexivity|].
  destruct (Nat.eqb j' j); simpl; rewrite IH; reflexivity.
Qed.

Lemma replay_app p (tr1 tr2 : list (nat * Event)) :
  replay p (tr1 ++ tr2) = match replay p tr1 with Some p' => replay p' tr2 | None => None end.
Proof.
  revert p. induction tr1 as [|[j e] tr1 IH]; intros p; simpl; [reflexivity|].
  destruct e; try apply IH. destruct (v =? wrap64 (p + delta)); [apply IH | reflexivity].
Qed.

Lemma exec_trc_replay (a : Action) (s s' : State) :
  Traced s -> exec a s = Next s' -> replay 0 (trace s') = Some (pending s').
Proof.
  intros [_ _ Hr] H.
  exec_cases H; simp_state; rewrite ?replay_app, ?Hr; simpl; rewrite ?replay_app; simpl;
    rewrite ?Hr; simpl; rewrite ?Z.eqb_refl; try reflexivity.
Qed.

Lemma exec_trc_none (a : Action) (s s' : State) :
  Traced s -> exec a s = Next s' ->
  forall j, (length (tasks s') <= j)%nat -> events_of j (trace s') = [].
Proof.
  intros [_ Hn _] H.
  exec_cases H; simp_state; simp_len; intros j' Hj';
    rewrite ?events_of_app; simpl;
    repeat match goal with
      | Hl : tasks _ !! _ = Some _ |- _ => apply lookup_lt_Some in Hl
      end;
    repeat match goal with
      | |- context [Nat.eqb ?a ?b] => destruct (Nat.eqb_spec a b); [lia|]
      end;
    simpl; rewrite ?app_nil_r; apply Hn; lia.
Qed.

Lemma exec_trc_task (a : Action) (s s' : State) :
  Traced s -> exec a s = Next s' ->
  forall j t, tasks s' !! j = Some t -> in_step t (events_of j (trace s')).
Proof.
  intros [Ht Hn _] H.
  exec_cases H; simp_state; intros j' t' Hj'; split_lookup; simplify_eq/=;
    rewrite ?events_of_app; simpl; rewrite ?Nat.eqb_refl;
    repeat match goal with
      | Hne : ?a <> ?b |- context [Nat.eqb ?b ?a] =>
          destruct (Nat.eqb_spec b a); [congruence|]
      end;
    simpl; rewrite ?app_nil_r; eauto;
    try (rewrite Hn by lia; reflexivity);
    match goal with
    | Hl : tasks s !! _ = Some _ |- _ => pose proof (Ht _ _ Hl) as Hs
    end;
    unfold in_step in *; simp_state; use_phase;
    repeat match goal with Hx : exists _, _ |- _ => destruct Hx as [? Hx] end;
    rewrite Hs; unfold script; simpl; eauto 8;
    eexists; exists None, None, 0; reflexivity.
Qed.

Lemma exec_Traced (a : Action) (s s' : State) :
  Traced s -> exec a s = Next s' -> Traced s'.
Proof.
  intros HT H. constructor.
  - exact (exec_trc_task _ _ _ HT H).
  - exact (exec_trc_none _ _ _ HT H).
  - exact (exec_trc_replay _ _ _ HT H).
Qed.

(** *** What [Wait] has seen *)

Lemma in_call_registered k (c : Caller) : in_call k c <= registered c.
Proof. unfold in_call, b2z. destruct c; simpl; try case_bool_decide; lia. Qed.
Lemma in_task_unreported k (t : Task) : in_task k t <= unreported t.
Proof. unfold in_task, unreported. case_bool_decide; repeat case_match; lia. Qed.
Lemma in_notifier_unsettled k (x : Notifier) : in_notifier k x <= unsettled x.
Proof. unfold in_notifier, unsettled. case_bool_decide; repeat case_match; lia. Qed.

(** When [receiptWg] is zero, every call made so far is over. *)
Lemma drained_settled (s : State) (k : nat) :
  Counters s -> Ledger s -> receiptWg s = 0 -> (k < length (attempts s))%nat -> settled s k.
Proof.
  intros HC HL Hz Hk. pose proof (cnt_receiptWg s HC) as Hr. pose proof (led_one s HL k) as H1.
  ledger_bounds s k.
  pose proof (wsum_le (in_call k) registered (callers s)
                (fun _ c _ => in_call_registered k c)).
  pose proof (wsum_le (in_task k) unreported (tasks s)
                (fun _ t _ => in_task_unreported k t)).
  pose proof (wsum_le (in_notifier k) unsettled (notifiers s)
                (fun _ x _ => in_notifier_unsettled k x)).
  unfold settled. rewrite bool_decide_eq_true_2 in H1 by exact Hk. simpl in H1. lia.
Qed.

(** The receipts sent and the answers given only grow. *)
Lemma exec_written_mono (a : Action) (s s' : State) (k : nat) :
  exec a s = Next s' ->
  wsum (delivered k) (written s) <= wsum (delivered k) (written s')
  /\ forall b, wsum (answered k b) (results s) <= wsum (answered k b) (results s').
Proof.
  intros H.
  exec_cases H; simp_state; split_mode; (split; [|intros b]); wsum_simp;
    unfold delivered, answered, b2z; repeat case_bool_decide; lia.
Qed.

Lemma settled_bound (s : State) (k : nat) :
  Ledger s ->
  wsum (delivered k) (written s) + wsum (answered k false) (results s) <= 1.
Proof.
  intros HL. pose proof (led_one s HL k) as H1. ledger_bounds s k.
  unfold b2z in H1. case_bool_decide; lia.
Qed.

Lemma exec_settled (a : Action) (s s' : State) (k : nat) :
  Ledger s' -> exec a s = Next s' -> settled s k -> settled s' k.
Proof.
  intros HL H Hs. unfold settled in *. destruct (exec_written_mono _ _ _ k H) as [Hw Ha].
  specialize (Ha false). pose proof (settled_bound s' k HL). lia.
Qed.

Lemma exec_Waits (a : Action) (s s' : State) :
  Counters s -> Ledger s -> Ledger s' -> Waits s -> exec a s = Next s' -> Waits s'.
Proof.
  intros HC HL HL' [Hseen Hgrp] H.
  assert (forall i c n k, callers s !! i = Some c -> caller_seen c = Some n ->
                          (k < n)%nat -> settled s' k) as Hold.
  { intros i c n k Hi Hc Hk. eapply exec_settled; eauto. }
  assert (receiptWg s = 0 -> forall k, (k < length (attempts s))%nat -> settled s' k) as Hnew.
  { intros Hz k Hk. eapply exec_settled; eauto. apply drained_settled; assumption. }
  clear Hseen HL'.
  split.
  - exec_cases H; simp_state; intros i' c' n' k' Hi' Hc' Hk'; split_lookup; simplify_eq/=;
      bool_to_prop; eauto.
  - exec_cases H; simp_state; intros i' n' Hi'; split_lookup; simplify_eq/=;
      try congruence; eauto;
      exfalso; eapply Hgrp; eauto.
Qed.

(** *** The goroutines of a call *)

Lemma exec_Census (a : Action) (s s' : State) :
  Census s -> exec a s = Next s' -> Census s'.
Proof.
  intros [Ht Hn] H. split; intros k; specialize (Ht k); specialize (Hn k);
    exec_cases H; simp_state; wsum_simp; hide_wsum;
    unfold task_of, notifier_of, in_task, in_notifier, delivered, unreported, b2z in *;
    simp_state; use_phase; repeat (case_bool_decide; simplify_eq/=); lia.
Qed.

Lemma task_of_nonneg k (t : Task) : 0 <= task_of k t.
Proof. unfold task_of, b2z. case_match; lia. Qed.
Lemma notifier_of_nonneg k (x : Notifier) : 0 <= notifier_of k x.
Proof. unfold notifier_of, b2z. case_match; lia. Qed.

(** *** The waiters of the WaitGroups *)

Lemma parked_in_fresh (s : State) :
  Groups s -> wsum (parked_in (length (groups s))) (callers s) = 0.
Proof.
  intros HG. apply wsum_zero. intros i c Hi.
  destruct c; try reflexivity; simpl;
    pose proof (grp_callers s HG i _ g Hi eq_refl);
    unfold b2z; case_bool_decide; try lia; reflexivity.
Qed.

Lemma counters_nonneg (s : State) :
  Counters s -> Groups s ->
  0 <= receiptWg s /\ forall g G, groups s !! g = Some G -> 0 <= g_wg G.
Proof.
  intros HC HG. split.
  - rewrite (cnt_receiptWg s HC).
    pose proof (wsum_nonneg registered (callers s)) as H1.
    pose proof (wsum_nonneg unreported (tasks s)) as H2.
    pose proof (wsum_nonneg unsettled (notifiers s)) as H3.
    assert (forall c : Caller, 0 <= registered c) by (intros c; destruct c; simpl; lia).
    assert (forall t : Task, 0 <= unreported t) by (intros t; unfold unreported; case_match; lia).
    assert (forall x : Notifier, 0 <= unsettled x) by (intros x; unfold unsettled; case_match; lia).
    specialize (H1 ltac:(assumption)). specialize (H2 ltac:(assumption)).
    specialize (H3 ltac:(assumption)). lia.
  - intros g G Hg. rewrite (grp_wg s HG g G Hg). apply wsum_nonneg.
    intros t. unfold active. repeat case_match; lia.
Qed.

Lemma exec_prk_receipt (a : Action) (s s' : State) :
  Counters s -> Groups s -> Parking s -> exec a s = Next s' ->
  wsum parked (callers s') = receiptWaiters s' + receiptWake s'
  /\ 0 <= receiptWaiters s' /\ 0 <= receiptWake s'
  /\ (0 < receiptWaiters s' -> 0 < receiptWg s').
Proof.
  intros HC HG [Hp (Hw & Ht & Hpos) _] H.
  destruct (counters_nonneg s HC HG) as [Hv _].
  exec_cases H; simp_state; wsum_simp; bool_to_prop; simpl; lia.
Qed.

Lemma exec_prk_group (a : Action) (s s' : State) :
  Configured s -> Groups s -> Parking s -> exec a s = Next s' ->
  forall g G, groups s' !! g = Some G ->
    wsum (parked_in g) (callers s') = g_waiters G + g_wake G
    /\ 0 <= g_waiters G /\ 0 <= g_wake G /\ (0 < g_waiters G -> 0 < g_wg G).
Proof.
  intros Hcf HG [_ _ Hp] H.
  pose proof (parked_in_fresh s HG) as Hfr. pose proof (fresh_group_spec s Hcf) as Hf.
  assert (forall g G, groups s !! g = Some G -> 0 <= g_wg G) as Hv.
  { intros g G Hg. rewrite (grp_wg s HG g G Hg). apply wsum_nonneg.
    intros t. unfold active. repeat case_match; lia. }
  exec_cases H; simp_state; intros g' G' Hl'; split_lookup; simplify_eq/=; simp_len;
    unfold fresh_group in *; simp_state; rewrite ?Hf; simp_state;
    repeat match goal with
      | Hl : groups _ !! ?g = Some ?G |- _ =>
          lazymatch goal with
          | _ : wsum (parked_in g) _ = g_waiters G + _ /\ _ |- _ => fail
          | _ => pose proof (Hp g G Hl); pose proof (Hv g G Hl)
          end
      end;
    wsum_simp; simp_state; bool_to_prop;
    unfold parked_in, b2z in *; simp_state;
    repeat (case_bool_decide; simplify_eq/=); try lia.
Qed.

Lemma exec_Parking (a : Action) (s s' : State) :
  Configured s -> Counters s -> Groups s -> Parking s -> exec a s = Next s' -> Parking s'.
Proof.
  intros Hcf HC HG HP H.
  destruct (exec_prk_receipt _ _ _ HC HG HP H) as (H1 & H2 & H3 & H4).
  constructor; [exact H1 | auto | exact (exec_prk_group _ _ _ Hcf HG HP H)].
Qed.

(** *** The invariant of the queue *)

Lemma exec_Inv (a : Action) (s s' : State) : Inv s -> exec a s = Next s' -> Inv s'.
Proof.
  intros [Hcf Hc Hg Hl Ht Hw Hn Hp] H.
  pose proof (exec_Ledger _ _ _ Hl H) as Hl'.
  constructor.
  - exact (exec_Configured _ _ _ Hcf H).
  - exact (exec_Counters _ _ _ Hc H).
  - exact (exec_Groups _ _ _ Hg Hcf H).
  - exact Hl'.
  - exact (exec_Traced _ _ _ Ht H).
  - exact (exec_Waits _ _ _ Hc Hl Hl' Hw H).
  - exact (exec_Census _ _ _ Hn H).
  - exact (exec_Parking _ _ _ Hcf Hc Hg Hp H).
Qed.

Lemma run_Inv (acts : list Action) (s s' : State) : Inv s -> run acts s = Next s' -> Inv s'.
Proof.
  revert s. induction acts as [|a acts IH]; intros s HI H; simpl in H.
  - congruence.
  - destruct (exec a s) as [s1| |] eqn:Ha; try discriminate.
    exact (IH s1 (exec_Inv _ _ _ HI Ha) H).
Qed.

Lemma clamp_range (b m : Z) :
  (b = 32 \/ b = 64) -> 0 <= m -> 0 <= clamp_maxPending b m <= MaxInt b.
Proof.
  intros Hb Hm. unfold clamp_maxPending.
  assert (0 <= MaxInt b) by (unfold MaxInt; destruct Hb as [-> | ->]; simpl; lia).
  destruct (Z.gtb_spec m (MaxInt b)); lia.
Qed.

Lemma lookup_idle (n i : nat) (c : Caller) : replicate n Idle !! i = Some c -> c = Idle.
Proof. intros H. apply lookup_replicate in H. tauto. Qed.

Lemma NewQueue_Inv (b m : Z) (n : nat) :
  (b = 32 \/ b = 64) -> 0 <= m -> Inv (NewQueue b m n : State).
Proof.
  intros Hb Hm. constructor.
  - split; [exact Hb | exact (clamp_range b m Hb Hm)].
  - constructor; simpl; rewrite wsum_replicate; reflexivity.
  - constructor; simpl; try (intros; simplify_eq/=; fail).
    intros i c g Hi Hc. apply lookup_idle in Hi. subst. discriminate.
  - constructor; simpl; try (intros; simplify_eq/=; fail).
    + intros k. rewrite wsum_replicate by reflexivity. reflexivity.
    + intros k. left. reflexivity.
    + intros i c m' k it Hi Hc. apply lookup_idle in Hi. subst. discriminate.
  - constructor; simpl; try (intros; simplify_eq/=; fail); reflexivity.
  - constructor; simpl.
    + intros i c n' k Hi Hc. apply lookup_idle in Hi. subst. discriminate.
    + intros i n' Hi. apply lookup_idle in Hi. discriminate.
  - constructor; simpl; reflexivity.
  - constructor; simpl.
    + rewrite wsum_replicate; reflexivity.
    + lia.
    + intros g G Hg. simplify_eq/=.
Qed.

Lemma reachable_Inv (b m : Z) (n : nat) (s : State) :
  (b = 32 \/ b = 64) -> 0 <= m -> reachable (NewQueue b m n) s -> Inv s.
Proof. intros Hb Hm [acts H]. exact (run_Inv _ _ _ (NewQueue_Inv b m n Hb Hm) H). Qed.

Lemma run_app (acts1 acts2 : list Action) (s : State) :
  run (acts1 ++ acts2) s
  = match run acts1 s with Next s1 => run acts2 s1 | Blocked => Blocked | Panic => Panic end.
Proof.
  revert s. induction acts1 as [|a acts1 IH]; intros s; simpl; [reflexivity|].
  destruct (exec a s); auto.
Qed.

Lemma reachable_trans (s0 s1 s2 : State) :
  reachable s0 s1 -> reachable s1 s2 -> reachable s0 s2.
Proof.
  intros [a1 H1] [a2 H2]. exists (a1 ++ a2). rewrite run_app, H1. exact H2.
Qed.

(** *** The code does not panic *)

Lemma holding_nonneg g (c : Caller) : 0 <= holding g c.
Proof. unfold holding, b2z. repeat case_match; lia. Qed.
Lemma active_nonneg g (t : Task) : 0 <= active g t.
Proof. unfold active. repeat case_match; lia. Qed.
Lemma registered_nonneg (c : Caller) : 0 <= registered c.
Proof. destruct c; simpl; lia. Qed.
Lemma unreported_nonneg (t : Task) : 0 <= unreported t.
Proof. unfold unreported. case_match; lia. Qed.
Lemma unsettled_nonneg (x : Notifier) : 0 <= unsettled x.
Proof. unfold unsettled. case_match; lia. Qed.

Lemma receiptWg_lower (s : State) :
  Counters s ->
  (forall i c, callers s !! i = Some c -> registered c <= receiptWg s)
  /\ (forall n x, notifiers s !! n = Some x -> unsettled x <= receiptWg s).
Proof.
  intros HC. pose proof (cnt_receiptWg s HC) as Hr.
  pose proof (wsum_nonneg registered (callers s) registered_nonneg).
  pose proof (wsum_nonneg unreported (tasks s) unreported_nonneg).
  pose proof (wsum_nonneg unsettled (notifiers s) unsettled_nonneg).
  split.
  - intros i c Hi. pose proof (wsum_lookup_le registered _ _ _ registered_nonneg Hi). lia.
  - intros n x Hn. pose proof (wsum_lookup_le unsettled _ _ _ unsettled_nonneg Hn). lia.
Qed.

Lemma wg_lower (s : State) (j : nat) (t : Task) (G : Group) :
  Groups s -> tasks s !! j = Some t -> groups s !! t_group t = Some G ->
  active (t_group t) t <= g_wg G
  /\ forall L, g_limit G = Some L -> active (t_group t) t <= g_sem G.
Proof.
  intros HG Hj Hg. pose proof (grp_wg s HG _ _ Hg) as Hwg.
  pose proof (wsum_lookup_le (active (t_group t)) _ _ _ (active_nonneg _) Hj) as Hle.
  split; [lia|]. intros L HL. destruct (grp_sem s HG _ _ _ Hg HL) as [Hs _].
  pose proof (wsum_nonneg (holding (t_group t)) (callers s) (holding_nonneg _)). lia.
Qed.

(** The only panic is the one of a [Wait()] that finds its [WaitGroup] in use
    again. *)
Lemma exec_panic (a : Action) (s : State) :
  Inv s -> exec a s = Panic -> exists i, a = Step i /\ reused s i.
Proof.
  intros [Hcf HC HG HL HT HW _ HP] H.
  destruct (receiptWg_lower s HC) as [Hrc Hrn].
  destruct (prk_receipt_sign s HP) as (Hw0 & Ht0 & Hwpos).
  destruct (counters_nonneg s HC HG) as [Hv0 Hgv0].
  destruct a as [i it|i it|i|i|j|j r e|x|];
    try (exfalso; unfold_steps H; repeat case_match; simplify_eq; bool_to_prop;
         repeat match goal with
           | Hn : groups _ !! _ = None |- _ => apply lookup_ge_None in Hn
           | Hc : callers s !! _ = Some _ |- _ => pose proof (Hrc _ _ Hc); clear Hc
           | Hn : notifiers s !! _ = Some _ |- _ => pose proof (Hrn _ _ Hn); clear Hn
           | Ht : tasks s !! _ = Some ?t, Hg : groups s !! t_group ?t = Some _ |- _ =>
               destruct (wg_lower s _ _ _ HG Ht Hg); clear Ht
           | Ht : tasks s !! _ = Some ?t |- _ => pose proof (grp_tasks s HG _ _ Ht); clear Ht
           end;
         unfold registered, unsettled, active in *; simp_state; use_phase;
         repeat (case_bool_decide; simplify_eq/=); try congruence; lia).
  exists i. split; [reflexivity|]. unfold reused.
  simpl in H. unfold caller_step in H.
  destruct (callers s !! i) as [c|] eqn:Hi; [|discriminate].
  pose proof (Hrc i c Hi) as Hreg.
  destruct c as [|md k it|md k it|md k it g|md k it g|md k it g|k it| | |n|n|n g|n g];
    try discriminate; simpl in Hreg.
  - destruct (groupLock s); discriminate.
  - exfalso. unfold groupContext, wg_Wait in H.
    destruct (group s) as [g|] eqn:Hg; [|discriminate].
    pose proof (grp_group s HG g Hg) as Hv. apply lookup_lt_is_Some_2 in Hv as [G HGl].
    rewrite HGl in H. destruct (ctx_err s G); [|discriminate].
    simpl in H. destruct (g_wg G =? 0); discriminate.
  - pose proof (grp_callers s HG i _ g Hi eq_refl) as Hv.
    apply lookup_lt_is_Some_2 in Hv as [G HGl]. rewrite HGl in H.
    exists G. split; [exact HGl|]. unfold wg_resume in H. simpl in H.
    destruct (Z.leb_spec (g_wake G) 0); [discriminate|].
    destruct (Z.eqb_spec (g_wg G) 0); destruct (Z.eqb_spec (g_waiters G) 0);
      simpl in H; try discriminate; split; auto; lia.
  - exfalso. pose proof (grp_callers s HG i _ g Hi eq_refl) as Hv.
    apply lookup_lt_is_Some_2 in Hv as [G HGl]. rewrite HGl in H.
    unfold acquire in H. repeat case_match; discriminate.
  - exfalso. pose proof (grp_callers s HG i _ g Hi eq_refl) as Hv.
    apply lookup_lt_is_Some_2 in Hv as [G HGl]. rewrite HGl in H.
    destruct (prk_group s HP g G HGl) as (_ & Hgw & _ & Hgpos).
    pose proof (Hgv0 g G HGl). unfold wg_Add in H. simpl in H.
    repeat case_match; simplify_eq; bool_to_prop; lia.
  - exfalso. unfold wg_Add in H. simpl in H.
    repeat case_match; simplify_eq; bool_to_prop; lia.
  - exfalso. unfold wg_Wait in H. simpl in H. repeat case_match; discriminate.
  - unfold wg_resume in H. simpl in H.
    destruct (Z.leb_spec (receiptWake s) 0); [discriminate|].
    destruct (Z.eqb_spec (receiptWg s) 0); destruct (Z.eqb_spec (receiptWaiters s) 0);
      simpl in H; try discriminate; split; auto; lia.
  - exfalso. destruct (group s); discriminate.
  - exfalso. pose proof (wt_group s HW i n Hi) as Hne.
    destruct (group s) as [g|] eqn:Hg; [|congruence].
    pose proof (grp_group s HG g Hg) as Hv. apply lookup_lt_is_Some_2 in Hv as [G HGl].
    rewrite HGl in H. unfold wg_Wait in H. repeat case_match; discriminate.
  - pose proof (grp_callers s HG i _ g Hi eq_refl) as Hv.
    apply lookup_lt_is_Some_2 in Hv as [G HGl]. rewrite HGl in H.
    exists G. split; [exact HGl|]. unfold wg_resume in H. simpl in H.
    destruct (Z.leb_spec (g_wake G) 0); [discriminate|].
    destruct (Z.eqb_spec (g_wg G) 0); destruct (Z.eqb_spec (g_waiters G) 0);
      simpl in H; try discriminate; split; auto; lia.
Qed.

(** *** Draining: the work left, and that it gets done *)

Lemma left_caller_nonneg (c : Caller) : 0 <= left_caller c.
Proof. destruct c; simpl; lia. Qed.
Lemma left_task_nonneg (t : Task) : 0 <= left_task t.
Proof. unfold left_task. case_match; lia. Qed.
Lemma left_notifier_nonneg (x : Notifier) : 0 <= left_notifier x.
Proof. unfold left_notifier. case_match; lia. Qed.

Lemma work_left_nonneg (s : State) : 0 <= work_left s.
Proof.
  unfold work_left.
  pose proof (wsum_nonneg left_caller (callers s) left_caller_nonneg).
  pose proof (wsum_nonneg left_task (tasks s) left_task_nonneg).
  pose proof (wsum_nonneg left_notifier (notifiers s) left_notifier_nonneg). lia.
Qed.

Lemma exec_work_left (a : Action) (s s' : State) :
  drain a = true -> exec a s = Next s' -> work_left s' < work_left s.
Proof.
  intros Hd H. unfold work_left.
  destruct a; try discriminate;
    exec_cases H; simp_state; wsum_simp; hide_wsum;
    unfold left_task, left_notifier in *; simp_state; use_phase; lia.
Qed.

Lemma run_work_left (acts : list Action) (s s' : State) :
  forallb drain acts = true -> run acts s = Next s' ->
  Z.of_nat (length acts) + work_left s' <= work_left s.
Proof.
  revert s. induction acts as [|a acts IH]; intros s Hd H; simpl in *.
  - injection H as ->. lia.
  - apply andb_true_iff in Hd as [Ha Hd].
    destruct (exec a s) as [s1| |] eqn:He; try discriminate.
    pose proof (exec_work_left _ _ _ Ha He). specialize (IH s1 Hd H). lia.
Qed.

(** In a state in which nothing that drains can run, a step is blocked or
    is a [Wait()] that would panic. *)
Lemma stuck_outcome (s : State) (a : Action) :
  Inv s -> stuck s -> drain a = true ->
  exec a s = Blocked \/ exists i, a = Step i /\ reused s i.
Proof.
  intros HI Hs Hd. destruct (exec a s) as [s'| |] eqn:He.
  - exfalso. exact (Hs a s' Hd He).
  - left. reflexivity.
  - right. exact (exec_panic a s HI He).
Qed.

Lemma stuck_blocked (s : State) (a : Action) :
  Inv s -> stuck s -> drain a = true -> (forall i, a <> Step i) -> exec a s = Blocked.
Proof.
  intros HI Hs Hd Hne. destruct (stuck_outcome s a HI Hs Hd) as [H | (i & -> & _)];
    [exact H | exfalso; exact (Hne i eq_refl)].
Qed.

Lemma stuck_tasks (s : State) (j : nat) (t : Task) :
  Inv s -> stuck s -> tasks s !! j = Some t -> t_phase t = Finished.
Proof.
  intros HI Hs Hj. pose proof (inv_grp s HI) as HG.
  pose proof (stuck_blocked s (Run j) HI Hs eq_refl ltac:(discriminate)) as Hr.
  pose proof (stuck_blocked s (Reply j None None) HI Hs eq_refl ltac:(discriminate)) as Hp.
  simpl in Hr, Hp. unfold task_step, reply, done in *. rewrite Hj in *.
  destruct (t_phase t) eqn:Hph; try discriminate; try reflexivity.
  pose proof (grp_tasks s HG j t Hj) as Hv. apply lookup_lt_is_Some_2 in Hv as [G HGl].
  rewrite HGl in Hr. destruct (wg_lower s j t G HG Hj HGl) as [Hw Hsm].
  assert (active (t_group t) t = 1) as Ha.
  { unfold active. rewrite Hph, bool_decide_eq_true_2 by reflexivity. reflexivity. }
  rewrite Ha in *. unfold wg_Add in Hr.
  destruct (g_limit G) as [L|] eqn:HL.
  - specialize (Hsm L eq_refl).
    destruct (Z.leb_spec (g_sem G) 0); [lia|]. repeat case_match; discriminate.
  - repeat case_match; discriminate.
Qed.

Lemma stuck_notifiers (s : State) (n : nat) (x : Notifier) :
  Inv s -> stuck s -> notifiers s !! n = Some x -> n_phase x = Done.
Proof.
  intros HI Hs Hn.
  pose proof (stuck_blocked s (Deliver n) HI Hs eq_refl ltac:(discriminate)) as Hr.
  simpl in Hr. unfold notifier_step, wg_Add in Hr. rewrite Hn in Hr.
  destruct (n_phase x); try discriminate; try reflexivity.
  repeat case_match; discriminate.
Qed.

Lemma stuck_wg (s : State) (g : nat) (G : Group) :
  Inv s -> stuck s -> groups s !! g = Some G -> g_wg G = 0.
Proof.
  intros HI Hs Hg. rewrite (grp_wg s (inv_grp s HI) g G Hg).
  apply wsum_zero. intros j t Hj. unfold active.
  rewrite (stuck_tasks s j t HI Hs Hj). case_bool_decide; reflexivity.
Qed.

Lemma stuck_waiters (s : State) (g : nat) (G : Group) :
  Inv s -> stuck s -> groups s !! g = Some G -> g_waiters G = 0.
Proof.
  intros HI Hs Hg. destruct (prk_group s (inv_prk s HI) g G Hg) as (_ & Hw & _ & Hpos).
  pose proof (stuck_wg s g G HI Hs Hg). lia.
Qed.

Lemma parked_in_nonneg g (c : Caller) : 0 <= parked_in g c.
Proof. unfold parked_in, b2z. repeat case_match; lia. Qed.

(** A goroutine parked in [Wait()] of a group can go on. *)
Lemma stuck_not_parked_in (s : State) (i : nat) (c : Caller) (g : nat) :
  Inv s -> stuck s -> callers s !! i = Some c -> parked_in g c = 0.
Proof.
  intros HI Hs Hi. pose proof (inv_grp s HI) as HG.
  destruct (Z.eq_dec (parked_in g c) 0) as [Hz|Hnz]; [exact Hz|exfalso].
  assert (caller_group c = Some g /\ parked_in g c = 1) as [Hcg Hone].
  { unfold parked_in, b2z in *. destruct c; simpl; try lia;
      case_bool_decide; simplify_eq; try lia; auto. }
  pose proof (grp_callers s HG i c g Hi Hcg) as Hv.
  apply lookup_lt_is_Some_2 in Hv as [G HGl].
  destruct (prk_group s (inv_prk s HI) g G HGl) as (Hsum & _ & _ & _).
  pose proof (wsum_lookup_le (parked_in g) _ _ _ (parked_in_nonneg g) Hi) as Hle.
  rewrite (stuck_waiters s g G HI Hs HGl) in Hsum.
  pose proof (stuck_wg s g G HI Hs HGl) as Hwg.
  pose proof (stuck_waiters s g G HI Hs HGl) as Hwt.
  assert (exists W, wg_resume (group_wg G) = Next W) as [W HW].
  { unfold wg_resume. simpl. destruct (Z.leb_spec (g_wake G) 0); [lia|].
    rewrite Hwg, Hwt. simpl. eauto. }
  destruct c; simpl in Hcg; try discriminate; simplify_eq;
    unfold parked_in in Hnz; try (simpl in Hnz; lia);
    eapply (Hs (Step i)); [reflexivity | | reflexivity |];
    simpl; unfold caller_step; rewrite Hi, HGl, HW; reflexivity.
Qed.

Lemma stuck_not_locked (s : State) (i : nat) m k it :
  Inv s -> stuck s -> callers s !! i <> Some (Locked m k it).
Proof.
  intros HI Hs Hi.
  assert (exists r, groupContext s = Next r) as [[s' g'] Hr].
  { unfold groupContext. destruct (group s) as [g|] eqn:Hg; [|eauto].
    pose proof (grp_group s (inv_grp s HI) g Hg) as Hv.
    apply lookup_lt_is_Some_2 in Hv as [G HGl]. rewrite HGl.
    rewrite (stuck_wg s g G HI Hs HGl). simpl. destruct (ctx_err s G); eauto. }
  eapply (Hs (Step i)); [reflexivity|].
  simpl. unfold caller_step. rewrite Hi, Hr. reflexivity.
Qed.

Lemma stuck_unlocked (s : State) : Inv s -> stuck s -> groupLock s = false.
Proof.
  intros HI Hs. pose proof (cnt_lock s (inv_cnt s HI)) as Hl.
  destruct (groupLock s); [|reflexivity]. simpl in Hl.
  destruct (wsum_pos_lookup holds_lock (callers s)) as (i & c & Hi & Hc); [lia|].
  destruct c; simpl in Hc; try lia; exfalso.
  - exact (stuck_not_locked s i _ _ _ HI Hs Hi).
  - pose proof (stuck_not_parked_in s i _ g HI Hs Hi) as Hz. simpl in Hz.
    rewrite bool_decide_eq_true_2 in Hz by reflexivity. simpl in Hz. lia.
Qed.

Lemma stuck_not_acquired (s : State) (i : nat) m k it g :
  Inv s -> stuck s -> callers s !! i <> Some (Acquired m k it g).
Proof.
  intros HI Hs Hi.
  pose proof (grp_callers s (inv_grp s HI) i _ g Hi eq_refl) as Hv.
  apply lookup_lt_is_Some_2 in Hv as [G HGl].
  assert (exists W, wg_Add 1 (group_wg G) = Next W) as [W HW].
  { unfold wg_Add. simpl. rewrite (stuck_wg s g G HI Hs HGl), (stuck_waiters s g G HI Hs HGl).
    simpl. eauto. }
  eapply (Hs (Step i)); [reflexivity|].
  simpl. unfold caller_step. rewrite Hi, HGl, HW. reflexivity.
Qed.

Lemma stuck_unregistered (s : State) (i : nat) (c : Caller) :
  Inv s -> stuck s -> callers s !! i = Some c -> registered c = 0.
Proof.
  intros HI Hs Hi. pose proof (inv_grp s HI) as HG.
  destruct c as [|m k it|m k it|m k it g|m k it g|m k it g|k it| | |n|n|n g|n g];
    try reflexivity; exfalso.
  - eapply (Hs (Step i)); [reflexivity|].
    simpl. unfold caller_step. rewrite Hi, (stuck_unlocked s HI Hs). reflexivity.
  - exact (stuck_not_locked s i _ _ _ HI Hs Hi).
  - pose proof (stuck_not_parked_in s i _ g HI Hs Hi) as Hz. simpl in Hz.
    rewrite bool_decide_eq_true_2 in Hz by reflexivity. simpl in Hz. lia.
  - pose proof (grp_callers s HG i _ g Hi eq_refl) as Hv.
    apply lookup_lt_is_Some_2 in Hv as [G HGl].
    assert (exists G', acquire (match m with Blocking => false | NonBlocking => true end) G
                       = Some (true, G')) as [G' HA].
    { unfold acquire. destruct (g_limit G) as [L|] eqn:HL; [|eauto].
      destruct (grp_sem s HG g G L HGl HL) as [Hsem _].
      rewrite (stuck_wg s g G HI Hs HGl) in Hsem.
      pose proof (grp_limit s HG g G HGl) as Hlim. rewrite HL in Hlim.
      symmetry in Hlim. apply limit_of_Some in Hlim as [HLpos _].
      assert (wsum (holding g) (callers s) = 0) as Hz.
      { apply wsum_zero. intros i' c' Hi'. destruct c'; try reflexivity.
        exfalso. exact (stuck_not_acquired s i' _ _ _ _ HI Hs Hi'). }
      destruct (Z.ltb_spec (g_sem G) L); [eauto | lia]. }
    eapply (Hs (Step i)); [reflexivity|].
    simpl. unfold caller_step. rewrite Hi, HGl, HA. reflexivity.
  - exact (stuck_not_acquired s i _ _ _ _ HI Hs Hi).
  - destruct (receiptWg_lower s (inv_cnt s HI)) as [Hrc _]. specialize (Hrc i _ Hi).
    simpl in Hrc.
    assert (exists W, wg_Add (-1) (receipt_wg s) = Next W) as [W HW].
    { unfold wg_Add. simpl. destruct (Z.ltb_spec (receiptWg s + -1) 0); [lia|].
      repeat case_match; bool_to_prop; try lia; eauto. }
    eapply (Hs (Step i)); [reflexivity|].
    simpl. unfold caller_step. rewrite Hi, HW. reflexivity.
Qed.

Lemma stuck_receiptWg (s : State) : Inv s -> stuck s -> receiptWg s = 0.
Proof.
  intros HI Hs. rewrite (cnt_receiptWg s (inv_cnt s HI)).
  rewrite (wsum_zero registered), (wsum_zero unreported), (wsum_zero unsettled);
    [reflexivity | | |].
  - intros n x Hn. unfold unsettled. rewrite (stuck_notifiers s n x HI Hs Hn). reflexivity.
  - intros j t Hj. unfold unreported. rewrite (stuck_tasks s j t HI Hs Hj). reflexivity.
  - intros i c Hi. exact (stuck_unregistered s i c HI Hs Hi).
Qed.

Lemma stuck_callers (s : State) (i : nat) (c : Caller) :
  Inv s -> stuck s -> callers s !! i = Some c -> c = Idle.
Proof.
  intros HI Hs Hi. pose proof (inv_grp s HI) as HG.
  pose proof (stuck_unregistered s i c HI Hs Hi) as Hu.
  pose proof (stuck_receiptWg s HI Hs) as Hw.
  destruct (prk_receipt_sign s (inv_prk s HI)) as (Hw0 & Ht0 & Hwpos).
  destruct c as [|m k it|m k it|m k it g|m k it g|m k it g|k it| | |n|n|n g|n g];
    try reflexivity; try discriminate; exfalso.
  - eapply (Hs (Step i)); [reflexivity|].
    simpl. unfold caller_step, wg_Wait. rewrite Hi. simpl. rewrite Hw. reflexivity.
  - pose proof (prk_receipt s (inv_prk s HI)) as Hsum.
    pose proof (wsum_lookup_le parked _ _ _ ltac:(intros c; destruct c; simpl; lia) Hi) as Hle.
    simpl in Hle.
    eapply (Hs (Step i)); [reflexivity|].
    simpl. unfold caller_step, wg_resume. rewrite Hi. simpl.
    destruct (Z.leb_spec (receiptWake s) 0); [lia|].
    rewrite Hw. replace (receiptWaiters s) with 0 by lia. reflexivity.
  - destruct (group s) eqn:Hg;
      (eapply (Hs (Step i)); [reflexivity|]; simpl; unfold caller_step; rewrite Hi, Hg;
       reflexivity).
  - pose proof (wt_group s (inv_wt s HI) i n Hi) as Hne.
    destruct (group s) as [g|] eqn:Hg; [|congruence].
    pose proof (grp_group s HG g Hg) as Hv.
    apply lookup_lt_is_Some_2 in Hv as [G HGl].
    eapply (Hs (Step i)); [reflexivity|].
    simpl. unfold caller_step, wg_Wait. rewrite Hi, Hg, HGl. simpl.
    rewrite (stuck_wg s g G HI Hs HGl). reflexivity.
  - pose proof (stuck_not_parked_in s i _ g HI Hs Hi) as Hz. simpl in Hz.
    rewrite bool_decide_eq_true_2 in Hz by reflexivity. simpl in Hz. lia.
  - eapply (Hs (Step i)); [reflexivity|].
    simpl. unfold caller_step. rewrite Hi. reflexivity.
Qed.

(** When nothing that drains can run, no work is left: every goroutine is
    idle or finished. *)
Lemma stuck_work_left (s : State) : Inv s -> stuck s -> work_left s = 0.
Proof.
  intros HI Hs. unfold work_left.
  rewrite (wsum_zero left_caller), (wsum_zero left_task), (wsum_zero left_notifier);
    [reflexivity | | |].
  - intros n x Hn. unfold left_notifier. rewrite (stuck_notifiers s n x HI Hs Hn). reflexivity.
  - intros j t Hj. unfold left_task. rewrite (stuck_tasks s j t HI Hs Hj). reflexivity.
  - intros i c Hi. rewrite (stuck_callers s i c HI Hs Hi). reflexivity.
Qed.

(** And when no work is left, nothing that drains can run. *)
Lemma quiet_stuck (s : State) : work_left s = 0 -> stuck s.
Proof.
  intros Hz a s' Hd He. pose proof (exec_work_left a s s' Hd He).
  pose proof (work_left_nonneg s'). lia.
Qed.

Lemma in_call_left k (c : Caller) : in_call k c <= left_caller c.
Proof. unfold in_call, b2z. destruct c; simpl; try case_bool_decide; lia. Qed.
Lemma in_task_left k (t : Task) : in_task k t <= left_task t.
Proof. unfold in_task, unreported, left_task. case_bool_decide; repeat case_match; lia. Qed.
Lemma in_notifier_left k (x : Notifier) : in_notifier k x <= left_notifier x.
Proof. unfold in_notifier, left_notifier. case_bool_decide; repeat case_match; lia. Qed.

(** When no work is left, every call made is over. *)
Lemma quiet_settled (s : State) (k : nat) :
  Ledger s -> work_left s = 0 -> (k < length (attempts s))%nat -> settled s k.
Proof.
  intros HL Hz Hk. pose proof (led_one s HL k) as H1. ledger_bounds s k.
  pose proof (wsum_le (in_call k) left_caller (callers s) (fun _ c _ => in_call_left k c)).
  pose proof (wsum_le (in_task k) left_task (tasks s) (fun _ t _ => in_task_left k t)).
  pose proof (wsum_le (in_notifier k) left_notifier (notifiers s)
                (fun _ x _ => in_notifier_left k x)).
  pose proof (wsum_nonneg left_caller (callers s) left_caller_nonneg).
  pose proof (wsum_nonneg left_task (tasks s) left_task_nonneg).
  pose proof (wsum_nonneg left_notifier (notifiers s) left_notifier_nonneg).
  unfold settled, work_left in *. rewrite bool_decide_eq_true_2 in H1 by exact Hk.
  simpl in H1. lia.
Qed.

(** *** One goroutine calling the queue *)

Lemma exec_length_callers (a : Action) (s s' : State) :
  exec a s = Next s' -> length (callers s') = length (callers s).
Proof. intros H. exec_cases H; simp_state; simp_len; reflexivity. Qed.

Lemma exec_Solo (a : Action) (s s' : State) :
  Groups s -> Solo s -> exec a s = Next s' -> Solo s'.
Proof.
  intros HG HS H.
  assert (forall i i' c c', callers s !! i = Some c -> callers s !! i' = Some c' -> i = i')
    as Huniq.
  { intros i i' c c' Hi Hi'. apply lookup_lt_Some in Hi, Hi'.
    rewrite (solo_one s HS) in Hi, Hi'. lia. }
  constructor.
  - rewrite (exec_length_callers _ _ _ H). exact (solo_one s HS).
  - exec_cases H; simp_state; intros i' c' g' Hi' Hc'; split_lookup; simplify_eq/=;
      try (exfalso; match goal with
                    | Hne : ?x <> ?y, H1 : callers _ !! ?x = Some _,
                                      H2 : callers _ !! ?y = Some _ |- _ =>
                        apply Hne; exact (Huniq _ _ _ _ H1 H2)
                    end);
      try (match goal with
           | Hl : callers _ !! _ = Some ?c |- _ =>
               pose proof (solo_held _ HS _ _ _ Hl eq_refl); congruence
           end);
      try (match goal with
           | Hl : callers _ !! _ = Some ?c, Hc : caller_group ?c = Some _ |- _ =>
               pose proof (solo_held _ HS _ _ _ Hl Hc); congruence
           end);
      eauto.
  - exec_cases H; simp_state; intros g' G' Hg' Hne'; split_lookup; simplify_eq/=;
      bool_to_prop; simp_state; simp_len;
      repeat match goal with
        | Hl : callers _ !! _ = Some ?c |- _ =>
            first [ pose proof (solo_held _ HS _ _ _ Hl eq_refl) | idtac ]; clear Hl
        | Hl : groups ?s !! ?g = Some ?G |- _ =>
            first [ assert (group s <> Some g) as Hx by congruence;
                    pose proof (solo_old _ HS g G Hl Hx); clear Hx
                  | idtac ];
            pose proof (lookup_lt_Some _ _ _ Hl); clear Hl
        end;
      simp_len; try congruence; try lia; eauto.
Qed.

Lemma solo_callers (s : State) (i : nat) (c : Caller) :
  Solo s -> callers s !! i = Some c -> callers s = [c].
Proof.
  intros HS Hi. pose proof (solo_one s HS) as Hlen.
  destruct (callers s) as [|c0 [|c1 l]]; simpl in Hlen; try discriminate.
  destruct i as [|i]; simpl in Hi; [congruence | discriminate].
Qed.

Lemma exec_SoloWaits (a : Action) (s s' : State) :
  Inv s -> Solo s -> SoloWaits s -> exec a s = Next s' -> SoloWaits s'.
Proof.
  intros HI HS [Hr Hg] H.
  pose proof (inv_grp s HI) as HG. pose proof (inv_prk s HI) as HP.
  pose proof (prk_receipt s HP) as Hpr.
  destruct (prk_receipt_sign s HP) as (Hw0 & Ht0 & _).
  pose proof (fresh_group_spec s (inv_conf s HI)) as Hf.
  assert (forall i c, callers s !! i = Some c -> callers s = [c]) as Hone
    by (intros i c; apply solo_callers; exact HS).
  split.
  - exec_cases H; simp_state;
      try match goal with
        | Hl : callers _ !! _ = Some _ |- _ =>
            rewrite (Hone _ _ Hl) in Hpr; unfold wsum in Hpr; simpl in Hpr
        end;
      bool_to_prop; try lia; try (intros; lia); auto.
  - exec_cases H; simp_state; intros g' G' Hl' Hpos; split_lookup; simplify_eq/=;
      unfold fresh_group in *; simp_state; rewrite ?Hf in *; simp_state;
      repeat match goal with
        | Hl : groups _ !! ?g = Some ?G |- _ =>
            lazymatch goal with
            | _ : wsum (parked_in g) _ = g_waiters G + _ /\ _ |- _ => fail
            | _ => pose proof (prk_group _ HP g G Hl); pose proof (Hg g G Hl)
            end
        end;
      try match goal with
        | Hl : callers _ !! _ = Some _ |- _ =>
            rewrite (Hone _ _ Hl) in *; unfold wsum, parked_in, b2z in *; simpl in *
        end;
      bool_to_prop; simp_state;
      repeat (case_bool_decide; simplify_eq/=); try lia; eauto.
Qed.

Lemma run_SoloWaits (acts : list Action) (s s' : State) :
  Inv s -> Solo s -> SoloWaits s -> run acts s = Next s' -> SoloWaits s'.
Proof.
  revert s. induction acts as [|a acts IH]; intros s HI HS HW H; simpl in H.
  - injection H as <-. exact HW.
  - destruct (exec a s) as [s1| |] eqn:Ha; try discriminate.
    exact (IH s1 (exec_Inv _ _ _ HI Ha) (exec_Solo _ _ _ (inv_grp s HI) HS Ha)
             (exec_SoloWaits _ _ _ HI HS HW Ha) H).
Qed.

Lemma NewQueue_SoloWaits (b m : Z) (n : nat) : SoloWaits (NewQueue b m n : State).
Proof. split; simpl; [lia | intros g G Hg; simplify_eq/=]. Qed.

(** With a single calling goroutine no [Wait()] finds its [WaitGroup] in use
    again. *)
Lemma solo_not_reused (s : State) (i : nat) :
  Inv s -> Solo s -> SoloWaits s -> ~ reused s i.
Proof.
  intros HI HS [Hr Hg] Hre. pose proof (inv_prk s HI) as HP. unfold reused in Hre.
  destruct (callers s !! i) as [c|] eqn:Hi; [|exact Hre].
  pose proof (solo_callers s i c HS Hi) as Hone.
  destruct c; try exact Hre.
  - destruct Hre as (G & HGl & Hpos & Hne).
    destruct (prk_group s HP g G HGl) as (Hsum & Hw0 & Ht0 & _).
    rewrite Hone in Hsum. unfold wsum in Hsum. simpl in Hsum.
    rewrite bool_decide_eq_true_2 in Hsum by reflexivity. simpl in Hsum.
    pose proof (Hg g G HGl Hpos). lia.
  - destruct Hre as [Hpos Hne]. pose proof (prk_receipt s HP) as Hsum.
    destruct (prk_receipt_sign s HP) as (Hw0 & Ht0 & _).
    rewrite Hone in Hsum. unfold wsum in Hsum. simpl in Hsum.
    pose proof (Hr Hpos). lia.
  - destruct Hre as (G & HGl & Hpos & Hne).
    destruct (prk_group s HP g G HGl) as (Hsum & Hw0 & Ht0 & _).
    rewrite Hone in Hsum. unfold wsum in Hsum. simpl in Hsum.
    rewrite bool_decide_eq_true_2 in Hsum by reflexivity. simpl in Hsum.
    pose proof (Hg g G HGl Hpos). lia.
Qed.




Lemma NewQueue_Solo (b m : Z) : Solo (NewQueue b m 1 : State).
Proof.
  constructor; simpl; try reflexivity.
  - intros i c g Hi Hc. apply (lookup_idle 1) in Hi. subst. discriminate.
  - intros g G Hg. simplify_eq/=.
Qed.

Lemma run_const (acts : list Action) (s s' : State) :
  run acts s = Next s' -> intSize s' = intSize s /\ maxPending s' = maxPending s.
Proof.
  revert s. induction acts as [|a acts IH]; intros s H; simpl in H.
  - injection H as ->. split; reflexivity.
  - destruct (exec a s) as [s1| |] eqn:Ha; try discriminate.
    destruct (IH s1 H) as [H1 H2]. destruct (exec_const _ _ _ Ha) as [H3 H4].
    split; congruence.
Qed.

Lemma run_Solo (acts : list Action) (s s' : State) :
  Inv s -> Solo s -> run acts s = Next s' -> Solo s'.
Proof.
  revert s. induction acts as [|a acts IH]; intros s HI HS H; simpl in H.
  - congruence.
  - destruct (exec a s) as [s1| |] eqn:Ha; try discriminate.
    exact (IH s1 (exec_Inv _ _ _ HI Ha) (exec_Solo _ _ _ (inv_grp s HI) HS Ha) H).
Qed.

Lemma sending_nonneg (t : Task) : 0 <= sending t.
Proof. unfold sending. case_match; lia. Qed.

(** A task inside the submitter belongs to the current group. *)
Lemma solo_sending_current (s : State) (j : nat) (t : Task) :
  Inv s -> Solo s -> tasks s !! j = Some t -> t_phase t = Sending ->
  group s = Some (t_group t).
Proof.
  intros HI HS Hj Hph. pose proof (inv_grp s HI) as HG.
  pose proof (grp_tasks s HG j t Hj) as Hv. apply lookup_lt_is_Some_2 in Hv as [G HGl].
  destruct (decide (group s = Some (t_group t))) as [He|Hne]; [exact He|exfalso].
  pose proof (solo_old s HS _ _ HGl Hne) as Hz.
  destruct (wg_lower s j t G HG Hj HGl) as [Hw _].
  unfold active in Hw. rewrite Hph, bool_decide_eq_true_2 in Hw by reflexivity. lia.
Qed.

Lemma solo_capacity (s : State) :
  Inv s -> Solo s -> 0 < maxPending s -> executing s <= maxPending s.
Proof.
  intros HI HS Hpos. pose proof (inv_grp s HI) as HG. unfold executing.
  destruct (group s) as [g|] eqn:Hg.
  - pose proof (grp_group s HG g Hg) as Hv. apply lookup_lt_is_Some_2 in Hv as [G HGl].
    assert (wsum sending (tasks s) <= wsum (active g) (tasks s)) as Hle.
    { apply wsum_le. intros j t Hj. unfold sending, active.
      destruct (t_phase t) eqn:Hph; try (case_bool_decide; lia).
      pose proof (solo_sending_current s j t HI HS Hj Hph) as Hc.
      rewrite bool_decide_eq_true_2 by congruence. lia. }
    rewrite <- (grp_wg s HG g G HGl) in Hle.
    pose proof (grp_limit s HG g G HGl) as Hlim. unfold limit_of in Hlim.
    destruct (Z.ltb_spec 0 (maxPending s)); [|lia].
    destruct (grp_sem s HG g G _ HGl Hlim) as [Hs Hb].
    pose proof (wsum_nonneg (holding g) (callers s) (holding_nonneg g)). lia.
  - rewrite wsum_zero; [lia|]. intros j t Hj. unfold sending.
    destruct (t_phase t) eqn:Hph; try reflexivity.
    pose proof (solo_sending_current s j t HI HS Hj Hph). congruence.
Qed.

(** X1: with one goroutine calling [Send], [TrySend] and [Wait], at most
    [maxPending] calls of the submitter run at any time, also across the
    replacement of the group. *)
Theorem capacity_bound_single_caller (b m : Z) (s : State) :
  (b = 32 \/ b = 64) -> 0 < m -> reachable (NewQueue b m 1) s ->
  executing s <= maxPending s /\ maxPending s = clamp_maxPending b m.
Proof.
  intros Hb Hm [acts Hr].
  assert (Inv (NewQueue b m 1 : State)) as HI0 by (apply NewQueue_Inv; [exact Hb | lia]).
  pose proof (run_Inv _ _ _ HI0 Hr) as HI.
  pose proof (run_Solo _ _ _ HI0 (NewQueue_Solo b m) Hr) as HS.
  assert (maxPending s = clamp_maxPending b m) as Hmax
    by exact (proj2 (run_const _ _ _ Hr)).
  split; [|exact Hmax].
  apply solo_capacity; try assumption.
  rewrite Hmax. unfold clamp_maxPending.
  assert (0 < MaxInt b) by (unfold MaxInt; destruct Hb as [-> | ->]; simpl; lia).
  destruct (Z.gtb_spec m (MaxInt b)); lia.
Qed.

(** X2: with one goroutine calling [Send], [TrySend] and [Wait], no step of
    any goroutine of the queue panics: no [Done()] takes the counter of a
    [sync.WaitGroup] below zero, no [Wait()] finds its [WaitGroup] in use
    again when it wakes up, no [Add] meets waiters at a zero counter, and no
    group is used before it is made. *)
Theorem queue_never_panics (b m : Z) (s : State) (a : Action) :
  (b = 32 \/ b = 64) -> 0 <= m -> reachable (NewQueue b m 1) s -> exec a s <> Panic.
Proof.
  intros Hb Hm [acts Hr] Hpanic.
  pose proof (NewQueue_Inv b m 1 Hb Hm) as HI0.
  pose proof (run_Inv _ _ _ HI0 Hr) as HI.
  pose proof (run_Solo _ _ _ HI0 (NewQueue_Solo b m) Hr) as HS.
  pose proof (run_SoloWaits _ _ _ HI0 (NewQueue_Solo b m) (NewQueue_SoloWaits b m 1) Hr) as HW.
  destruct (exec_panic a s HI Hpanic) as (i & _ & Hre).
  exact (solo_not_reused s i HI HS HW Hre).
Qed.

(** ** The properties of the queue *)

(** [NewQueue] stores the limit clamped to [math.MaxInt]. *)
Lemma NewQueue_maxPending (b m : Z) (n : nat) :
  maxPending (@NewQueue T TxCandidate types_Receipt error b m n) = clamp_maxPending b m.
Proof. reflexivity. Qed.

(** C7: [NewQueue] brings a [maxPending] above [math.MaxInt] down to
    [math.MaxInt] and stores any other value unchanged; it has no error
    result, and the stored limit converts to [int] without change. *)
Theorem NewQueue_clamps_maxPending (b m : Z) (n : nat) :
  (b = 32 \/ b = 64) -> 0 <= m < 2 ^ 64 ->
  let q : State := NewQueue b m n in
  (m > MaxInt b -> maxPending q = MaxInt b)
  /\ (m <= MaxInt b -> maxPending q = m)
  /\ 0 <= maxPending q <= MaxInt b
  /\ to_int b (maxPending q) = maxPending q.
Proof.
  intros Hb Hm q. subst q. rewrite NewQueue_maxPending.
  pose proof (clamp_range b m Hb (proj1 Hm)) as Hr.
  split; [|split; [|split]].
  - intros Hgt. unfold clamp_maxPending. destruct (Z.gtb_spec m (MaxInt b)); [reflexivity | lia].
  - intros Hle. unfold clamp_maxPending. destruct (Z.gtb_spec m (MaxInt b)); [lia | reflexivity].
  - exact Hr.
  - exact (to_int_id b _ Hb Hr).
Qed.



(** *** Accepted calls and their receipts *)

Lemma exec_attempts (a : Action) (s s' : State) (k : nat) x :
  exec a s = Next s' -> attempts s !! k = Some x -> attempts s' !! k = Some x.
Proof.
  intros H Hk. exec_cases H; simp_state; eauto using lookup_app_l_Some.
Qed.

Lemma exec_accepted (a : Action) (s s' : State) (k : nat) :
  exec a s = Next s' -> accepted s k -> accepted s' k.
Proof.
  intros H. unfold accepted. destruct (attempts s !! k) as [[md it]|] eqn:Hk; [|tauto].
  rewrite (exec_attempts _ _ _ _ _ H Hk).
  destruct (exec_written_mono _ _ _ k H) as [_ Ha]. specialize (Ha true).
  destruct md; [tauto | lia].
Qed.

Lemma accepted_not_refused (s : State) (k : nat) :
  Ledger s -> accepted s k -> wsum (answered k false) (results s) = 0.
Proof.
  intros HL. unfold accepted. destruct (attempts s !! k) as [[md it]|] eqn:Hk; [|tauto].
  destruct md.
  - intros _. apply wsum_zero. intros r [k' b'] Hr. unfold answered, b2z.
    case_bool_decide; [|reflexivity]. simplify_eq.
    destruct (led_results s HL r k false Hr) as [it' Hit]. congruence.
  - intros Hpos. destruct (led_granted s HL k) as [Hz | [_ Hz]]; [lia | exact Hz].
Qed.

Lemma run_accepted (acts : list Action) (s s' : State) (k : nat) :
  run acts s = Next s' -> accepted s k ->
  accepted s' k /\ wsum (delivered k) (written s) <= wsum (delivered k) (written s').
Proof.
  revert s. induction acts as [|a acts IH]; intros s H Ha; simpl in H.
  - injection H as ->. split; [exact Ha | lia].
  - destruct (exec a s) as [s1| |] eqn:He; try discriminate.
    destruct (IH s1 H (exec_accepted _ _ _ k He Ha)) as [H1 H2].
    destruct (exec_written_mono _ _ _ k He) as [Hw _]. split; [exact H1 | lia].
Qed.

(** C2: a call that was accepted (a call of [Send], or a call of [TrySend]
    that returned true) gets exactly one receipt, on its own channel and with
    its own ID: never more than one is sent, a receipt that was sent stays,
    the goroutines that work on the calls in progress cannot run more than
    [work_left] statements, and when none of them can run any more the
    receipt has been sent. *)
Theorem accepted_call_gets_one_receipt (b m : Z) (n : nat) (s : State) (k : nat) :
  (b = 32 \/ b = 64) -> 0 <= m ->
  reachable (NewQueue b m n) s ->
  accepted s k ->
  exists md it,
    attempts s !! k = Some (md, it)
    /\ wsum (delivered k) (written s) <= 1
    /\ (forall w d, written s !! w = Some d -> d_attempt d = k ->
                    receipt_for it (d_ch d) (d_receipt d))
    /\ (forall acts s', run acts s = Next s' ->
          accepted s' k
          /\ wsum (delivered k) (written s) <= wsum (delivered k) (written s') <= 1
          /\ (stuck s' -> wsum (delivered k) (written s') = 1)
          /\ (forallb drain acts = true -> Z.of_nat (length acts) <= work_left s)).
Proof.
  intros Hb Hm Hr Ha. pose proof (reachable_Inv b m n s Hb Hm Hr) as HI.
  pose proof Ha as Ha'. unfold accepted in Ha'.
  destruct (attempts s !! k) as [[md it]|] eqn:Hk; [|contradiction].
  exists md, it. split; [reflexivity|]. split; [|split].
  - pose proof (settled_bound s k (inv_led s HI)).
    pose proof (wsum_nonneg (answered k false) (results s) (answered_nonneg k false)). lia.
  - intros w d Hw Hd. destruct (led_written s (inv_led s HI) w d Hw) as (md' & it' & Hat & Hrc).
    rewrite Hd, Hk in Hat. congruence.
  - intros acts s' Hrun. pose proof (run_Inv _ _ _ HI Hrun) as HI'.
    destruct (run_accepted _ _ _ k Hrun Ha) as [Hacc Hmono].
    pose proof (settled_bound s' k (inv_led s' HI')) as Hbound.
    pose proof (wsum_nonneg (answered k false) (results s') (answered_nonneg k false)) as Hnn.
    split; [exact Hacc|]. split; [lia|]. split.
    + intros Hstuck.
      assert (k < length (attempts s'))%nat as Hlt.
      { unfold accepted in Hacc. destruct (attempts s' !! k) eqn:Hk'; [|contradiction].
        exact (lookup_lt_Some _ _ _ Hk'). }
      pose proof (quiet_settled s' k (inv_led s' HI') (stuck_work_left s' HI' Hstuck) Hlt) as Hs.
      unfold settled in Hs. rewrite (accepted_not_refused s' k (inv_led s' HI') Hacc) in Hs. lia.
    + intros Hd. pose proof (run_work_left _ _ _ Hd Hrun). pose proof (work_left_nonneg s'). lia.
Qed.

(** *** A call of [TrySend] that returned false *)

Lemma wsum_zero_lookup {A} (f : A -> Z) (l : list A) (i : nat) (x : A) :
  (forall x, 0 <= f x) -> wsum f l = 0 -> l !! i = Some x -> f x = 0.
Proof.
  intros Hf Hz Hi. pose proof (wsum_lookup_le f l i x Hf Hi). specialize (Hf x). lia.
Qed.

Lemma events_of_In j ev (tr : list (nat * Event)) :
  In (j, ev) tr -> In ev (events_of j tr).
Proof.
  induction tr as [|[j' e'] tr IH]; simpl; [tauto|]. intros [Heq | Hin].
  - injection Heq as -> ->. rewrite Nat.eqb_refl. left. reflexivity.
  - destruct (Nat.eqb j' j); [right|]; exact (IH Hin).
Qed.

(** The calling goroutines never touch the pending counter, the callback or
    the receipt channels, and start a task only in [Go]/[TryGo] past the
    semaphore. *)
Lemma caller_frame (a : Action) (s s' : State) :
  by_caller a = true -> exec a s = Next s' ->
  pending s' = pending s /\ trace s' = trace s /\ written s' = written s
  /\ notifiers s' = notifiers s
  /\ (tasks s' = tasks s
      \/ exists i md k it g, a = Step i /\ callers s !! i = Some (Acquired md k it g)
                             /\ tasks s' = tasks s ++ [mkTask g k it Started]).
Proof.
  intros Hc H. destruct a; try discriminate;
    exec_cases H; simp_state; repeat split; eauto 10.
Qed.

Lemma run_answered (acts : list Action) (s s' : State) (k : nat) (b : bool) :
  run acts s = Next s' -> wsum (answered k b) (results s) <= wsum (answered k b) (results s').
Proof.
  revert s. induction acts as [|a acts IH]; intros s H; simpl in H.
  - injection H as ->. lia.
  - destruct (exec a s) as [s1| |] eqn:He; try discriminate.
    destruct (exec_written_mono _ _ _ k He) as [_ Ha]. specialize (Ha b).
    specialize (IH s1 H). lia.
Qed.

(** C3: when [TrySend] returned false for call [k], there is no task for
    [k] (so no call of the submitter), no notifier and no receipt for it, and
    this stays so; every callback and every change of the pending counter in
    the trace belongs to a task of another call; and the calling goroutine's
    own statements leave the pending counter, the callback trace and the
    receipts as they are. *)
Theorem rejected_TrySend_has_no_effect (b m : Z) (n : nat) (s : State) (k : nat) :
  (b = 32 \/ b = 64) -> 0 <= m ->
  reachable (NewQueue b m n) s ->
  0 < wsum (answered k false) (results s) ->
  (forall j t, tasks s !! j = Some t -> t_attempt t <> k)
  /\ (forall x y, notifiers s !! x = Some y -> n_attempt y <> k)
  /\ (forall w d, written s !! w = Some d -> d_attempt d <> k)
  /\ (forall j ev, In (j, ev) (trace s) -> exists t, tasks s !! j = Some t /\ t_attempt t <> k)
  /\ (forall acts s', run acts s = Next s' -> 0 < wsum (answered k false) (results s'))
  /\ (forall a s', by_caller a = true -> exec a s = Next s' ->
                   pending s' = pending s /\ trace s' = trace s /\ written s' = written s).
Proof.
  intros Hb Hm Hr Hrej. pose proof (reachable_Inv b m n s Hb Hm Hr) as HI.
  pose proof (led_one s (inv_led s HI) k) as H1. ledger_bounds s k.
  pose proof (cen_tasks s (inv_cen s HI) k) as Ht.
  pose proof (cen_notifiers s (inv_cen s HI) k) as Hn.
  assert (b2z (bool_decide (k < length (attempts s))%nat) <= 1) as Hb1
    by (unfold b2z; case_match; lia).
  assert (forall j t, tasks s !! j = Some t -> t_attempt t <> k) as Htasks.
  { intros j t Hj Heq.
    assert (task_of k t = 0) as Hz
      by (apply (wsum_zero_lookup (task_of k) (tasks s) j t (task_of_nonneg k)); [lia | exact Hj]).
    unfold task_of, b2z in Hz. rewrite bool_decide_eq_true_2 in Hz by exact Heq. lia. }
  split; [exact Htasks|]. split; [|split; [|split; [|split]]].
  - intros x y Hx Heq.
    assert (notifier_of k y = 0) as Hz
      by (apply (wsum_zero_lookup (notifier_of k) (notifiers s) x y (notifier_of_nonneg k));
          [lia | exact Hx]).
    unfold notifier_of, b2z in Hz. rewrite bool_decide_eq_true_2 in Hz by exact Heq. lia.
  - intros w d Hw Heq.
    assert (delivered k d = 0) as Hz
      by (apply (wsum_zero_lookup (delivered k) (written s) w d (delivered_nonneg k));
          [lia | exact Hw]).
    unfold delivered, b2z in Hz. rewrite bool_decide_eq_true_2 in Hz by exact Heq. lia.
  - intros j ev Hin. apply events_of_In in Hin.
    destruct (decide (j < length (tasks s))%nat) as [Hlt|Hge].
    + apply lookup_lt_is_Some_2 in Hlt as [t Hj]. exists t. split; [exact Hj|].
      exact (Htasks j t Hj).
    + rewrite (trc_none s (inv_trc s HI) j) in Hin by lia. destruct Hin.
  - intros acts s' Hrun. pose proof (run_answered _ _ _ k false Hrun). lia.
  - intros a s' Hc He. destruct (caller_frame a s s' Hc He) as (Hf1 & Hf2 & Hf3 & _). auto.
Qed.

(** *** The order of the statements of a task *)

(** C5 (as the code has it): a task calls [pendingChanged] with the
    incremented counter, calls the submitter with the context of its group and
    its payload, starts the notifier with the ID, the receipt and the error
    the submitter returned, then (deferred) calls [pendingChanged] with the
    decremented counter, and returns the submitter's error; each callback
    gets the value the counter took. *)
Theorem sendTx_order (b m : Z) (n : nat) (s : State) (j : nat) (t : Task) :
  (b = 32 \/ b = 64) -> 0 <= m ->
  reachable (NewQueue b m n) s ->
  tasks s !! j = Some t ->
  follows script s j
  /\ (returned t = true ->
      exists v1 r e v2, events_of j (trace s) = script t v1 r e v2
                        /\ forall e', t_phase t = Returned e' -> e' = e)
  /\ replay 0 (trace s) = Some (pending s).
Proof.
  intros Hb Hm Hr Hj. pose proof (reachable_Inv b m n s Hb Hm Hr) as HI.
  pose proof (trc_task s (inv_trc s HI) j t Hj) as Hs. unfold in_step in Hs.
  split; [|split].
  - unfold follows. exists t.
    destruct (t_phase t);
      repeat match goal with Hx : exists _, _ |- _ => destruct Hx as [? Hx] end;
      rewrite Hs;
      try (eexists _, _, _, _; split; [exact Hj|]; first [apply prefix_take | reflexivity]).
    exists 0, None, None, 0. split; [exact Hj | apply prefix_nil].
  - unfold returned. intros Hret.
    destruct (t_phase t) eqn:Hph; try discriminate;
      repeat match goal with Hx : exists _, _ |- _ => destruct Hx as [? Hx] end;
      eexists _, _, _, _; (split; [exact Hs|]); intros e' He'; congruence.
  - exact (trc_replay s (inv_trc s HI)).
Qed.

(** ** Further properties of the queue *)

(** *** The pending counter *)

Lemma wrap64_add (x d : Z) : wrap64 (wrap64 x + d) = wrap64 (x + d).
Proof. unfold wrap64. apply Zplus_mod_idemp_l. Qed.

Lemma wrap64_pred (x : Z) : wrap64 (wrap64 x + minus_one) = wrap64 (x - 1).
Proof.
  rewrite wrap64_add. unfold wrap64, minus_one.
  replace (x + (2 ^ 64 - 1)) with (x - 1 + 1 * 2 ^ 64) by lia. apply Z_mod_plus_full.
Qed.

Lemma counted_nonneg (t : Task) : 0 <= counted t.
Proof. unfold counted. case_match; lia. Qed.

Lemma exec_in_flight (a : Action) (s s' : State) :
  pending s = wrap64 (in_flight s) -> exec a s = Next s' ->
  pending s' = wrap64 (in_flight s').
Proof.
  unfold in_flight. intros Hp H.
  exec_cases H; simp_state; wsum_simp; rewrite ?Hp, ?wrap64_pred, ?wrap64_add;
    unfold counted; simp_state; use_phase; try reflexivity; f_equal; lia.
Qed.

Lemma run_in_flight (acts : list Action) (s s' : State) :
  pending s = wrap64 (in_flight s) -> run acts s = Next s' ->
  pending s' = wrap64 (in_flight s').
Proof.
  revert s. induction acts as [|a acts IH]; intros s Hp H; simpl in H.
  - congruence.
  - destruct (exec a s) as [s1| |] eqn:Ha; try discriminate.
    exact (IH s1 (exec_in_flight _ _ _ Hp Ha) H).
Qed.

Lemma sending_counted (t : Task) : sending t <= counted t.
Proof. unfold sending, counted. case_match; lia. Qed.

(** X3: the pending counter is the number of tasks between the increment at
    the head of [sendTx] and its deferred decrement (modulo [2^64], as the
    counter is a [uint64]); these include every task inside the submitter;
    and the counter is back at zero when all goroutines have finished. *)
Theorem pending_counts_tasks_in_flight (b m : Z) (n : nat) (s : State) :
  (b = 32 \/ b = 64) -> 0 <= m -> reachable (NewQueue b m n) s ->
  pending s = wrap64 (in_flight s)
  /\ 0 <= executing s <= in_flight s
  /\ (stuck s -> pending s = 0).
Proof.
  intros Hb Hm Hr. pose proof (reachable_Inv b m n s Hb Hm Hr) as HI.
  destruct Hr as [acts Hr].
  assert (pending s = wrap64 (in_flight s)) as Hp
    by (apply (run_in_flight acts (NewQueue b m n)); [reflexivity | exact Hr]).
  split; [exact Hp|]. split.
  - unfold executing, in_flight. split.
    + apply wsum_nonneg. intros t. unfold sending. case_match; lia.
    + apply wsum_le. intros j t _. apply sending_counted.
  - intros Hs. rewrite Hp. unfold in_flight. rewrite wsum_zero; [reflexivity|].
    intros j t Hj. unfold counted. rewrite (stuck_tasks s j t HI Hs Hj). reflexivity.
Qed.

(** With one calling goroutine a task that has not finished belongs to the
    current group. *)
Lemma solo_active_current (s : State) (j : nat) (t : Task) :
  Inv s -> Solo s -> tasks s !! j = Some t -> t_phase t <> Finished ->
  group s = Some (t_group t).
Proof.
  intros HI HS Hj Hph. pose proof (inv_grp s HI) as HG.
  pose proof (grp_tasks s HG j t Hj) as Hv. apply lookup_lt_is_Some_2 in Hv as [G HGl].
  destruct (decide (group s = Some (t_group t))) as [He|Hne]; [exact He|exfalso].
  pose proof (solo_old s HS _ _ HGl Hne) as Hz.
  destruct (wg_lower s j t G HG Hj HGl) as [Hw _].
  unfold active in Hw. rewrite bool_decide_eq_true_2 in Hw by reflexivity.
  destruct (t_phase t); try lia. congruence.
Qed.

Lemma solo_in_flight (s : State) :
  Inv s -> Solo s -> 0 < maxPending s -> 0 <= in_flight s <= maxPending s.
Proof.
  intros HI HS Hpos. pose proof (inv_grp s HI) as HG. unfold in_flight.
  split; [apply wsum_nonneg, counted_nonneg|].
  destruct (group s) as [g|] eqn:Hg.
  - pose proof (grp_group s HG g Hg) as Hv. apply lookup_lt_is_Some_2 in Hv as [G HGl].
    assert (wsum counted (tasks s) <= wsum (active g) (tasks s)) as Hle.
    { apply wsum_le. intros j t Hj. unfold counted, active.
      destruct (t_phase t) eqn:Hph; try (case_bool_decide; lia);
        (assert (group s = Some (t_group t)) as Hc
           by (apply (solo_active_current s j t HI HS Hj); congruence));
        rewrite bool_decide_eq_true_2 by congruence; lia. }
    rewrite <- (grp_wg s HG g G HGl) in Hle.
    pose proof (grp_limit s HG g G HGl) as Hlim. unfold limit_of in Hlim.
    destruct (Z.ltb_spec 0 (maxPending s)); [|lia].
    destruct (grp_sem s HG g G _ HGl Hlim) as [Hs Hb].
    pose proof (wsum_nonneg (holding g) (callers s) (holding_nonneg g)). lia.
  - rewrite wsum_zero; [lia|]. intros j t Hj. unfold counted.
    destruct (t_phase t) eqn:Hph; try reflexivity;
      (assert (group s = Some (t_group t)) as Hc
         by (apply (solo_active_current s j t HI HS Hj); congruence)); congruence.
Qed.

Lemma solo_pending (s : State) :
  Inv s -> Solo s -> 0 < maxPending s -> pending s = wrap64 (in_flight s) ->
  pending s = in_flight s /\ 0 <= pending s <= maxPending s.
Proof.
  intros HI HS Hpos Hp. pose proof (solo_in_flight s HI HS Hpos) as Hb.
  destruct (inv_conf s HI) as [Hsz Hmax].
  assert (MaxInt (intSize s) < 2 ^ 64) as Hlt
    by (unfold MaxInt; destruct Hsz as [-> | ->]; reflexivity).
  assert (pending s = in_flight s) as Heq
    by (rewrite Hp; unfold wrap64; apply Z.mod_small; lia).
  split; [exact Heq | lia].
Qed.

(** A callback of a step gets the value the counter has after the step. *)
Lemma exec_callbacks (a : Action) (s s' : State) :
  exec a s = Next s' ->
  forall j d v, In (j, EvPending d v) (trace s') ->
                In (j, EvPending d v) (trace s) \/ v = pending s'.
Proof.
  intros H. exec_cases H; simp_state; intros j' d' v' Hin;
    rewrite ?in_app_iff in Hin; simpl in Hin; intuition; simplify_eq; auto.
Qed.

Lemma run_callbacks (acts : list Action) (s s' : State) :
  Inv s -> Solo s -> 0 < maxPending s -> pending s = wrap64 (in_flight s) ->
  (forall j d v, In (j, EvPending d v) (trace s) -> 0 <= v <= maxPending s) ->
  run acts s = Next s' ->
  forall j d v, In (j, EvPending d v) (trace s') -> 0 <= v <= maxPending s'.
Proof.
  revert s. induction acts as [|a acts IH]; intros s HI HS Hpos Hp Hold H; simpl in H.
  - injection H as <-. exact Hold.
  - destruct (exec a s) as [s1| |] eqn:Ha; try discriminate.
    pose proof (exec_Inv _ _ _ HI Ha) as HI1.
    pose proof (exec_Solo _ _ _ (inv_grp s HI) HS Ha) as HS1.
    pose proof (exec_in_flight _ _ _ Hp Ha) as Hp1.
    destruct (exec_const _ _ _ Ha) as [_ Hm1].
    assert (0 < maxPending s1) as Hpos1 by lia.
    apply (IH s1 HI1 HS1 Hpos1 Hp1); [|exact H].
    intros j d v Hin. destruct (exec_callbacks _ _ _ Ha j d v Hin) as [Hin0 | ->].
    + rewrite Hm1. exact (Hold j d v Hin0).
    + exact (proj2 (solo_pending s1 HI1 HS1 Hpos1 Hp1)).
Qed.

(** X4: with one goroutine calling the queue and a limit, the pending
    counter never wraps and never exceeds [maxPending], and no call of
    [pendingChanged] ever got a value above [maxPending]. *)
Theorem pending_callbacks_bounded_single_caller (b m : Z) (s : State) :
  (b = 32 \/ b = 64) -> 0 < m -> reachable (NewQueue b m 1) s ->
  pending s = in_flight s
  /\ 0 <= pending s <= maxPending s
  /\ (forall j d v, In (j, EvPending d v) (trace s) -> 0 <= v <= maxPending s).
Proof.
  intros Hb Hm [acts Hr].
  assert (Inv (NewQueue b m 1 : State)) as HI0 by (apply NewQueue_Inv; [exact Hb | lia]).
  pose proof (run_Inv _ _ _ HI0 Hr) as HI.
  pose proof (run_Solo _ _ _ HI0 (NewQueue_Solo b m) Hr) as HS.
  assert (0 < maxPending (NewQueue b m 1 : State)) as Hpos0.
  { simpl. unfold clamp_maxPending.
    assert (0 < MaxInt b) by (unfold MaxInt; destruct Hb as [-> | ->]; simpl; lia).
    destruct (Z.gtb_spec m (MaxInt b)); lia. }
  assert (0 < maxPending s) as Hpos by (rewrite (proj2 (run_const _ _ _ Hr)); exact Hpos0).
  assert (pending s = wrap64 (in_flight s)) as Hp
    by (apply (run_in_flight acts (NewQueue b m 1)); [reflexivity | exact Hr]).
  destruct (solo_pending s HI HS Hpos Hp) as [Heq Hbound].
  split; [exact Heq|]. split; [exact Hbound|].
  apply (run_callbacks acts (NewQueue b m 1) s HI0 (NewQueue_Solo b m) Hpos0);
    [reflexivity | | exact Hr].
  intros j d v Hin. destruct Hin.
Qed.

(** *** Where a receipt comes from *)

(** A task keeps its group, its call and its arguments. *)
Lemma exec_task_kept (a : Action) (s s' : State) (j : nat) (t : Task) :
  exec a s = Next s' -> tasks s !! j = Some t ->
  exists t', tasks s' !! j = Some t' /\ t_group t' = t_group t
             /\ t_attempt t' = t_attempt t /\ t_item t' = t_item t.
Proof.
  intros H Hj. exec_cases H; simp_state;
    try (exists t; split; [first [eassumption | apply lookup_app_l_Some; eassumption] | auto]; fail);
    match goal with
    | |- context [<[?j0 := _]> _ !! j] =>
        destruct (decide (j = j0)) as [->|Hne];
        [ rewrite list_lookup_insert_eq by (eapply lookup_lt_Some; eassumption);
          simplify_eq; eexists; split; [reflexivity | auto]
        | rewrite list_lookup_insert_ne by congruence; eauto ]
    end.
Qed.

(** The trace only grows. *)
Lemma exec_trace_grows (a : Action) (s s' : State) :
  exec a s = Next s' -> exists evs, trace s' = trace s ++ evs.
Proof.
  intros H. exec_cases H; simp_state;
    try (exists []; rewrite app_nil_r; reflexivity);
    rewrite <- ?app_assoc; eexists; reflexivity.
Qed.

Lemma exec_from_task (a : Action) (s s' : State) (k ch : nat) (rc : TxReceipt) :
  exec a s = Next s' -> from_task s k ch rc -> from_task s' k ch rc.
Proof.
  intros H (j & t & Hj & Hk & Hin).
  destruct (exec_task_kept _ _ _ j t H Hj) as (t' & Hj' & _ & Hk' & _).
  destruct (exec_trace_grows _ _ _ H) as [evs Hevs].
  exists j, t'. split; [exact Hj'|]. split; [congruence|].
  rewrite Hevs. apply in_app_iff. left. exact Hin.
Qed.

Lemma exec_Origin (a : Action) (s s' : State) :
  Origin s -> exec a s = Next s' -> Origin s'.
Proof.
  intros [Hn Hw] H.
  assert (forall k ch rc, from_task s k ch rc -> from_task s' k ch rc) as Hkeep
    by (intros k ch rc; exact (exec_from_task _ _ _ k ch rc H)).
  split; exec_cases H; simp_state; intros ? ? Hl; split_lookup; simplify_eq/=; eauto;
    exists j, (mkTask (t_group t) (t_attempt t) (t_item t) (Notifying e));
    (split; [apply list_lookup_insert_eq; eapply lookup_lt_Some; eassumption|]);
    (split; [reflexivity|]); simp_state; apply in_app_iff; right; left; reflexivity.
Qed.

Lemma run_Origin (acts : list Action) (s s' : State) :
  Origin s -> run acts s = Next s' -> Origin s'.
Proof.
  revert s. induction acts as [|a acts IH]; intros s HO H; simpl in H.
  - congruence.
  - destruct (exec a s) as [s1| |] eqn:Ha; try discriminate.
    exact (IH s1 (exec_Origin _ _ _ HO Ha) H).
Qed.

Lemma NewQueue_Origin (b m : Z) (n : nat) : Origin (NewQueue b m n : State).
Proof. split; simpl; intros; simplify_eq/=. Qed.

Lemma events_of_In_inv j ev (tr : list (nat * Event)) :
  In ev (events_of j tr) -> In (j, ev) tr.
Proof.
  induction tr as [|[j' e'] tr IH]; simpl; [tauto|].
  destruct (Nat.eqb_spec j' j) as [->|Hne].
  - intros [-> | Hin]; [left; reflexivity | right; exact (IH Hin)].
  - intros Hin. right. exact (IH Hin).
Qed.

Lemma In_take {A} (x : A) (n : nat) (l : list A) : In x (take n l) -> In x l.
Proof.
  revert n. induction l as [|y l IH]; intros [|n]; simpl; try tauto.
  intros [-> | Hin]; [left; reflexivity | right; exact (IH n Hin)].
Qed.

(** The events of a task are the beginning of its script. *)
Lemma in_step_script (t : Task) (evs : list Event) :
  in_step t evs -> exists v1 r e v2 n, evs = take n (script t v1 r e v2).
Proof.
  unfold in_step. destruct (t_phase t); intros Hs;
    repeat match goal with Hx : exists _, _ |- _ => destruct Hx as [? Hx] end; subst.
  - exists 0, None, None, 0, 0%nat. reflexivity.
  - eexists _, _, _, _, _. reflexivity.
  - eexists _, _, _, _, _. reflexivity.
  - eexists _, _, _, _, _. reflexivity.
  - eexists _, _, _, _, 6%nat. reflexivity.
  - eexists _, _, _, _, 6%nat. reflexivity.
  - eexists _, _, _, _, 6%nat. reflexivity.
Qed.

(** X5: a receipt that was sent on a channel was made by a task of that
    call; it is sent on the channel given to the call, and it holds the ID
    given to the call together with the receipt and the error that the one
    return of the submitter to that task gave. *)
Theorem receipt_carries_submitter_result (b m : Z) (n : nat) (s : State) (w : nat)
    (d : Delivery) :
  (b = 32 \/ b = 64) -> 0 <= m -> reachable (NewQueue b m n) s ->
  written s !! w = Some d ->
  exists j t r e,
    tasks s !! j = Some t /\ t_attempt t = d_attempt d
    /\ (exists md, attempts s !! d_attempt d = Some (md, t_item t))
    /\ d_ch d = it_ch (t_item t)
    /\ d_receipt d = mkTxReceipt (it_id (t_item t)) r e
    /\ In (j, EvSent r e) (trace s)
    /\ (forall r' e', In (j, EvSent r' e') (trace s) -> r' = r /\ e' = e).
Proof.
  intros Hb Hm Hr Hw. pose proof (reachable_Inv b m n s Hb Hm Hr) as HI.
  destruct Hr as [acts Hr].
  pose proof (run_Origin _ _ _ (NewQueue_Origin b m n) Hr) as HO.
  destruct (org_written s HO w d Hw) as (j & t & Hj & Hk & Hin).
  pose proof (trc_task s (inv_trc s HI) j t Hj) as Hs.
  destruct (in_step_script t _ Hs) as (v1 & r & e & v2 & len & Hevs).
  exists j, t, r, e. split; [exact Hj|]. split; [exact Hk|].
  split; [rewrite <- Hk; exact (led_tasks s (inv_led s HI) j t Hj)|].
  apply events_of_In in Hin. rewrite Hevs in Hin.
  assert (4 <= len)%nat as Hlen.
  { destruct len as [|[|[|[|len]]]]; simpl in Hin; [| | | |lia];
      intuition discriminate. }
  assert (d_ch d = it_ch (t_item t)
          /\ d_receipt d = mkTxReceipt (it_id (t_item t)) r e) as [Hch Hrc].
  { apply In_take in Hin. unfold script in Hin. simpl in Hin.
    intuition; simplify_eq; auto. }
  split; [exact Hch|]. split; [exact Hrc|]. split.
  - apply events_of_In_inv. rewrite Hevs.
    destruct len as [|[|[|len]]]; try lia. simpl. right. right. left. reflexivity.
  - intros r' e' Hin'. apply events_of_In in Hin'. rewrite Hevs in Hin'.
    apply In_take in Hin'. unfold script in Hin'. simpl in Hin'.
    intuition; simplify_eq; auto.
Qed.

(** *** The slots of a group *)

Lemma exec_never_refused (a : Action) (s s' : State) :
  Groups s -> maxPending s = 0 -> never_refused s -> exec a s = Next s' ->
  never_refused s'.
Proof.
  intros HG Hm [Hc Hr] H. pose proof (grp_limit s HG) as Hlim.
  unfold limit_of in Hlim. rewrite Hm in Hlim. simpl in Hlim.
  split; exec_cases H; simp_state; intros; split_mode; intros Hx; split_lookup;
    simplify_eq/=;
    try (eapply Hc; eassumption); try (eapply Hr; eassumption);
    match goal with
    | Hl : groups s !! _ = Some ?G, HL : g_limit ?G = Some _ |- _ =>
        rewrite (Hlim _ _ Hl) in HL; discriminate
    end.
Qed.

Lemma run_never_refused (acts : list Action) (s s' : State) :
  Inv s -> maxPending s = 0 -> never_refused s -> run acts s = Next s' ->
  never_refused s'.
Proof.
  revert s. induction acts as [|a acts IH]; intros s HI Hm Hn H; simpl in H.
  - injection H as <-. exact Hn.
  - destruct (exec a s) as [s1| |] eqn:Ha; try discriminate.
    apply (IH s1 (exec_Inv _ _ _ HI Ha)); [| |exact H].
    + rewrite (proj2 (exec_const _ _ _ Ha)). exact Hm.
    + exact (exec_never_refused _ _ _ (inv_grp s HI) Hm Hn Ha).
Qed.

(** A goroutine that [Go]/[TryGo] lets through. *)
Lemma acquire_passes (s : State) (i : nat) md k it g :
  Inv s -> callers s !! i = Some (Got md k it g) ->
  maxPending s = 0 \/ slots_taken s g < maxPending s ->
  exists s', exec (Step i) s = Next s' /\ callers s' !! i = Some (Acquired md k it g).
Proof.
  intros HI Hi Hfree. pose proof (inv_grp s HI) as HG.
  pose proof (grp_callers s HG i _ g Hi eq_refl) as Hv.
  apply lookup_lt_is_Some_2 in Hv as [G HGl].
  simpl. unfold caller_step, acquire. rewrite Hi, HGl.
  pose proof (grp_limit s HG g G HGl) as Hlim. unfold limit_of in Hlim.
  assert (forall G', callers (goto i (Acquired md k it g) (set_groups (<[g := G']> (groups s)) s))
                     !! i = Some (Acquired md k it g)) as Hgo.
  { intros G'. simpl. apply list_lookup_insert_eq. exact (lookup_lt_Some _ _ _ Hi). }
  destruct (g_limit G) as [L|] eqn:HL.
  - destruct (Z.ltb_spec 0 (maxPending s)); [|discriminate]. injection Hlim as ->.
    destruct (grp_sem s HG g G _ HGl HL) as [Hs _].
    rewrite (grp_wg s HG g G HGl) in Hs. unfold slots_taken in Hfree.
    destruct (Z.ltb_spec (g_sem G) (maxPending s)); [|lia].
    eexists. split; [reflexivity | apply Hgo].
  - eexists. split; [reflexivity | apply Hgo].
Qed.

(** X6: a queue made with [maxPending = 0] has no limit: [TrySend] never
    returns false, and neither [Send] nor [TrySend] ever waits at [Go]/[TryGo]
    (the goroutine that was given a group always gets through). *)
Theorem unlimited_queue_never_refuses (b : Z) (n : nat) (s : State) :
  (b = 32 \/ b = 64) -> reachable (NewQueue b 0 n) s ->
  (forall r k ok, results s !! r = Some (k, ok) -> ok = true)
  /\ (forall i k it, callers s !! i <> Some (Refused k it))
  /\ (forall i md k it g, callers s !! i = Some (Got md k it g) ->
        exists s', exec (Step i) s = Next s'
                   /\ callers s' !! i = Some (Acquired md k it g)).
Proof.
  intros Hb Hr.
  assert (Inv (NewQueue b 0 n : State)) as HI0 by (apply NewQueue_Inv; [exact Hb | lia]).
  pose proof (reachable_Inv b 0 n s Hb (Z.le_refl 0) Hr) as HI. destruct Hr as [acts Hr].
  assert (maxPending (NewQueue b 0 n : State) = 0) as Hm0.
  { simpl. unfold clamp_maxPending.
    assert (0 <= MaxInt b) by (unfold MaxInt; destruct Hb as [-> | ->]; simpl; lia).
    destruct (Z.gtb_spec 0 (MaxInt b)); [lia | reflexivity]. }
  assert (never_refused (NewQueue b 0 n : State)) as Hn0.
  { split; simpl.
    - intros i k it Hi. apply lookup_idle in Hi. discriminate.
    - intros r k Hx. simplify_eq/=. }
  destruct (run_never_refused _ _ _ HI0 Hm0 Hn0 Hr) as [Hc Hres].
  split; [|split].
  - intros r k [|] Hx; [reflexivity|]. exfalso. exact (Hres r k Hx).
  - exact Hc.
  - intros i md k it g Hi. apply (acquire_passes s i md k it g HI Hi). left.
    rewrite (proj2 (run_const _ _ _ Hr)). exact Hm0.
Qed.

(** X7: with a limit, the group a goroutine was given never has more than
    [maxPending] slots taken; the goroutine gets through [Go]/[TryGo] when a
    slot is free; and when all [maxPending] slots are taken, [Send] waits and
    [TrySend] gives up, leaving the queue as it is. *)
Theorem slot_refused_exactly_when_full (b m : Z) (n : nat) (s : State) (i : nat)
    md k it g :
  (b = 32 \/ b = 64) -> 0 < m -> reachable (NewQueue b m n) s ->
  callers s !! i = Some (Got md k it g) ->
  0 < maxPending s
  /\ slots_taken s g <= maxPending s
  /\ (slots_taken s g < maxPending s ->
      exists s', exec (Step i) s = Next s'
                 /\ callers s' !! i = Some (Acquired md k it g))
  /\ (slots_taken s g = maxPending s ->
      exec (Step i) s = match md with
                        | Blocking => Blocked
                        | NonBlocking => Next (goto i (Refused k it) s)
                        end).
Proof.
  intros Hb Hm Hr Hi.
  assert (Inv s) as HI by (apply (reachable_Inv b m n); [exact Hb | lia | exact Hr]).
  pose proof (inv_grp s HI) as HG.
  assert (0 < maxPending s) as Hpos.
  { destruct Hr as [acts Hr]. rewrite (proj2 (run_const _ _ _ Hr)). simpl.
    unfold clamp_maxPending.
    assert (0 < MaxInt b) by (unfold MaxInt; destruct Hb as [-> | ->]; simpl; lia).
    destruct (Z.gtb_spec m (MaxInt b)); lia. }
  pose proof (grp_callers s HG i _ g Hi eq_refl) as Hv.
  apply lookup_lt_is_Some_2 in Hv as [G HGl].
  pose proof (grp_limit s HG g G HGl) as Hlim. unfold limit_of in Hlim.
  destruct (Z.ltb_spec 0 (maxPending s)); [|lia].
  destruct (grp_sem s HG g G _ HGl Hlim) as [Hs Hle].
  rewrite (grp_wg s HG g G HGl) in Hs. fold (slots_taken s g) in Hs.
  split; [exact Hpos|]. split; [lia|]. split.
  - intros Hfree. apply (acquire_passes s i md k it g HI Hi). right. exact Hfree.
  - intros Hfull. simpl. unfold caller_step, acquire. rewrite Hi, HGl, Hlim.
    destruct (Z.ltb_spec (g_sem G) (maxPending s)); [lia|]. destruct md; reflexivity.
Qed.

(** *** Cancelled groups *)

Lemma exec_cancelled (a : Action) (s s' : State) (g : nat) :
  exec a s = Next s' -> cancelled s g -> cancelled s' g.
Proof.
  intros H (G & Hg & Hc). unfold cancelled.
  exec_cases H; simp_state; eauto;
    repeat match goal with
      | |- context [(_ ++ [_]) !! g] =>
          rewrite lookup_app_l by
            (rewrite ?length_alter; eapply lookup_lt_Some; eassumption)
      | |- context [<[?g0 := _]> _ !! g] =>
          destruct (decide (g = g0)) as [->|Hne];
          [ rewrite list_lookup_insert_eq by (eapply lookup_lt_Some; eassumption)
          | rewrite list_lookup_insert_ne by congruence ]
      | |- context [alter _ ?g0 _ !! g] =>
          destruct (decide (g = g0)) as [->|Hne];
          [ rewrite list_lookup_alter_eq | rewrite list_lookup_alter_ne by congruence ]
      end;
    simplify_eq/=;
    rewrite ?list_lookup_alter_eq, ?list_lookup_alter_ne by congruence;
    repeat match goal with Hl : groups s !! _ = Some _ |- _ => rewrite Hl end;
    simpl; eauto.
Qed.



Lemma script_return (t : Task) v1 r e v2 (e' : option error) :
  In (EvReturn e') (script t v1 r e v2) -> e' = e.
Proof. unfold script. simpl. intuition; simplify_eq; reflexivity. Qed.

Lemma exec_Cancels (a : Action) (s s' : State) :
  Groups s -> Traced s -> Cancels s -> exec a s = Next s' -> Cancels s'.
Proof.
  intros HG HT HC H j' t' Hj' [Hph' [e' Hin']].
  assert (forall j t, tasks s !! j = Some t -> failed s j t -> cancelled s' (t_group t))
    as Hold by (intros j t Hj Hf; exact (exec_cancelled _ _ _ _ H (HC j t Hj Hf))).
  pose proof (trc_task s HT) as Hstep. pose proof (grp_tasks s HG) as Hvalid.
  exec_cases H; simp_state; split_lookup; simplify_eq/=;
    rewrite ?in_app_iff in Hin'; simpl in Hin';
    try (destruct Hph'; discriminate);
    try (apply (Hold _ _ Hj'); split; [assumption | exists e'; intuition congruence]; fail).
  all: try (match goal with
            | Hl : tasks _ !! _ = Some ?t |- cancelled _ (t_group ?t) =>
                apply (Hold _ _ Hl); split; [auto | exists e'; exact Hin']
            end; fail).
  all: match goal with
       | Hl : tasks _ !! _ = Some _ |- _ =>
           pose proof (Hstep _ _ Hl) as Hs; unfold in_step in Hs; use_phase;
           destruct Hs as (v1 & r & v2 & Hs);
           apply events_of_In in Hin'; rewrite Hs in Hin';
           apply script_return in Hin'; try discriminate;
           pose proof (Hvalid _ _ Hl) as Hv; apply lookup_lt_is_Some_2 in Hv as [G HGl]
       end.
  all: unfold cancelled; simpl; rewrite list_lookup_alter_eq, HGl; simpl; eauto.
Qed.

Lemma run_Cancels (acts : list Action) (s s' : State) :
  Inv s -> Cancels s -> run acts s = Next s' -> Cancels s'.
Proof.
  revert s. induction acts as [|a acts IH]; intros s HI HC H; simpl in H.
  - injection H as <-. exact HC.
  - destruct (exec a s) as [s1| |] eqn:Ha; try discriminate.
    exact (IH s1 (exec_Inv _ _ _ HI Ha)
             (exec_Cancels _ _ _ (inv_grp s HI) (inv_trc s HI) HC Ha) H).
Qed.

(** X9: when the submitter returned a non-nil error to a task and the
    wrapper of errgroup has dealt with the return of [sendTx], the context of
    the task's group is cancelled, so every goroutine of that group sees a
    context in error; the error that [sendTx] returned is the one the
    submitter gave. *)
Theorem failed_send_cancels_group (b m : Z) (n : nat) (s : State) (j : nat) (t : Task)
    (e : error) :
  (b = 32 \/ b = 64) -> 0 <= m -> reachable (NewQueue b m n) s ->
  tasks s !! j = Some t ->
  t_phase t = Releasing \/ t_phase t = Finished ->
  In (j, EvReturn (Some e)) (trace s) ->
  cancelled s (t_group t)
  /\ (forall G, groups s !! t_group t = Some G -> ctx_err s G = true)
  /\ exists r, In (j, EvSent r (Some e)) (trace s).
Proof.
  intros Hb Hm Hr Hj Hph Hin. pose proof (reachable_Inv b m n s Hb Hm Hr) as HI.
  destruct Hr as [acts Hr].
  assert (Cancels (NewQueue b m n : State)) as HC0
    by (intros j0 t0 Hj0; simpl in Hj0; simplify_eq/=).
  pose proof (run_Cancels _ _ _ (NewQueue_Inv b m n Hb Hm) HC0 Hr) as HC.
  assert (cancelled s (t_group t)) as Hc
    by (apply (HC j t Hj); split; [exact Hph | exists e; exact Hin]).
  split; [exact Hc|]. split.
  - intros G HG. destruct Hc as (G' & HG' & Hc). unfold ctx_err.
    assert (G' = G) as -> by congruence. rewrite Hc. reflexivity.
  - pose proof (trc_task s (inv_trc s HI) j t Hj) as Hs. unfold in_step in Hs.
    assert (exists v1 r e0 v2, events_of j (trace s) = script t v1 r e0 v2)
      as (v1 & r & e0 & v2 & Hevs) by (destruct Hph as [Hp | Hp]; rewrite Hp in Hs; exact Hs).
    apply events_of_In in Hin. rewrite Hevs in Hin. apply script_return in Hin. subst e0.
    exists r. apply events_of_In_inv. rewrite Hevs. unfold script. simpl. auto.
Qed.

(** *** One task for a call *)

Lemma wsum_two {A} (f : A -> Z) (l : list A) (i j : nat) (x y : A) :
  (forall x, 0 <= f x) -> i <> j -> l !! i = Some x -> l !! j = Some y ->
  f x + f y <= wsum f l.
Proof.
  intros Hf. revert i j. induction l as [|a l IH]; intros [|i] [|j] Hne Hi Hj;
    simpl in *; try discriminate; try congruence.
  - injection Hi as ->. pose proof (wsum_lookup_le f l j y Hf Hj). unfold wsum in *. lia.
  - injection Hj as ->. pose proof (wsum_lookup_le f l i x Hf Hi). unfold wsum in *. lia.
  - assert (i <> j) as Hne' by congruence. specialize (IH i j Hne' Hi Hj).
    specialize (Hf a). unfold wsum in *. lia.
Qed.

(** X10: no transaction is submitted twice: a call of [Send] or [TrySend]
    has at most one task, the task calls the submitter at most once, and it
    does so with the candidate given to the call and with the context of the
    group the task runs in. *)
Theorem one_submission_per_call (b m : Z) (n : nat) (s : State) (j : nat) (t : Task) :
  (b = 32 \/ b = 64) -> 0 <= m -> reachable (NewQueue b m n) s ->
  tasks s !! j = Some t ->
  (exists md, attempts s !! t_attempt t = Some (md, t_item t))
  /\ (forall j' t', tasks s !! j' = Some t' -> t_attempt t' = t_attempt t -> j' = j)
  /\ (length (List.filter is_send (events_of j (trace s))) <= 1)%nat
  /\ (forall g c, In (j, EvSend g c) (trace s) ->
                  g = t_group t /\ c = it_candidate (t_item t)).
Proof.
  intros Hb Hm Hr Hj. pose proof (reachable_Inv b m n s Hb Hm Hr) as HI.
  pose proof (trc_task s (inv_trc s HI) j t Hj) as Hs.
  destruct (in_step_script t _ Hs) as (v1 & r & e & v2 & len & Hevs).
  split; [exact (led_tasks s (inv_led s HI) j t Hj)|]. split; [|split].
  - intros j' t' Hj' Hk. destruct (decide (j' = j)) as [He|Hne]; [exact He|exfalso].
    set (k := t_attempt t) in *.
    pose proof (wsum_two (task_of k) (tasks s) j' j t' t (task_of_nonneg k) Hne Hj' Hj) as H2.
    pose proof (cen_tasks s (inv_cen s HI) k) as Ht.
    pose proof (cen_notifiers s (inv_cen s HI) k) as Hn.
    pose proof (led_one s (inv_led s HI) k) as H1. ledger_bounds s k.
    assert (b2z (bool_decide (k < length (attempts s))%nat) <= 1) as Hb1
      by (unfold b2z; case_match; lia).
    assert (task_of k t = 1 /\ task_of k t' = 1) as [E1 E2]
      by (unfold task_of, b2z; rewrite !bool_decide_eq_true_2 by (subst k; auto); auto).
    lia.
  - rewrite Hevs. unfold script.
    do 7 (destruct len as [|len]; [simpl; lia|]). simpl. lia.
  - intros g c Hin. apply events_of_In in Hin. rewrite Hevs in Hin.
    apply In_take in Hin. unfold script in Hin. simpl in Hin.
    intuition; simplify_eq; auto.
Qed.

(** *** The lock of the group *)

(** X11: [groupLock] is held exactly while a goroutine is inside
    [groupContext] (at its first statement, or parked in the [Wait] of line
    124), two goroutines are never inside it together, and the deferred
    unlock leaves no goroutine holding the lock after it got its group. *)
Theorem groupLock_guards_groupContext (b m : Z) (n : nat) (s : State) :
  (b = 32 \/ b = 64) -> 0 <= m -> reachable (NewQueue b m n) s ->
  (groupLock s = true <->
     exists i md k it, callers s !! i = Some (Locked md k it)
                       \/ exists g, callers s !! i = Some (LockedWaiting md k it g))
  /\ (forall i i' c c',
        callers s !! i = Some c -> callers s !! i' = Some c' ->
        holds_lock c = 1 -> holds_lock c' = 1 -> i = i')
  /\ (forall i md k it g, callers s !! i = Some (Got md k it g) ->
        groupLock s = true -> exists i' c, i' <> i /\ callers s !! i' = Some c /\ holds_lock c = 1).
Proof.
  intros Hb Hm Hr. pose proof (reachable_Inv b m n s Hb Hm Hr) as HI.
  pose proof (cnt_lock s (inv_cnt s HI)) as Hl.
  assert (b2z (groupLock s) <= 1) as Hle by (destruct (groupLock s); simpl; lia).
  split; [split|split].
  - intros Ht. rewrite Ht in Hl. simpl in Hl.
    destruct (wsum_pos_lookup holds_lock (callers s)) as (i & c & Hi & Hc); [lia|].
    destruct c; simpl in Hc; try lia; eauto 8.
  - intros (i & md & k & it & [Hi | [g Hi]]);
      pose proof (wsum_lookup_le holds_lock _ _ _ holds_lock_nonneg Hi) as Hge;
      simpl in Hge; (destruct (groupLock s); [reflexivity | simpl in Hl; lia]).
  - intros i i' c c' Hi Hi' Hc Hc'.
    destruct (decide (i = i')) as [He|Hne]; [exact He|exfalso].
    pose proof (wsum_two holds_lock (callers s) i i' _ _ holds_lock_nonneg Hne Hi Hi') as H2.
    lia.
  - intros i md k it g Hi Ht. rewrite Ht in Hl. simpl in Hl.
    destruct (wsum_pos_lookup holds_lock (callers s)) as (i' & c & Hi' & Hc); [lia|].
    exists i', c. split; [|split; [exact Hi'|]].
    + intros ->. rewrite Hi in Hi'. simplify_eq. simpl in Hc. lia.
    + pose proof (wsum_lookup_le holds_lock _ _ _ holds_lock_nonneg Hi') as Hge. lia.
Qed.

(** *** The capacity of a group *)

Lemma sending_in_active g (t : Task) : sending_in g t <= active g t.
Proof.
  unfold sending_in, active, sending. case_bool_decide; [|lia]. case_match; lia.
Qed.

Lemma slots_taken_bound (s : State) (g : nat) :
  Inv s -> 0 < maxPending s -> 0 <= slots_taken s g <= maxPending s.
Proof.
  intros HI Hpos. pose proof (inv_grp s HI) as HG. unfold slots_taken.
  pose proof (wsum_nonneg (active g) (tasks s) (active_nonneg g)).
  pose proof (wsum_nonneg (holding g) (callers s) (holding_nonneg g)).
  split; [lia|].
  destruct (groups s !! g) as [G|] eqn:HGl.
  - pose proof (grp_limit s HG g G HGl) as Hlim. unfold limit_of in Hlim.
    destruct (Z.ltb_spec 0 (maxPending s)); [|lia].
    destruct (grp_sem s HG g G _ HGl Hlim) as [Hs Hle].
    rewrite (grp_wg s HG g G HGl) in Hs. lia.
  - apply lookup_ge_None in HGl.
    rewrite (wsum_zero (active g)), (wsum_zero (holding g)); [lia | |].
    + intros i c Hi. destruct c; try reflexivity. simpl.
      pose proof (grp_callers s HG i _ g0 Hi eq_refl).
      unfold b2z. case_bool_decide; [lia | reflexivity].
    + intros j t Hj. pose proof (grp_tasks s HG j t Hj).
      unfold active. case_bool_decide; [lia | reflexivity].
Qed.

(** X16: for any number of calling goroutines and a limit, each group has at
    most [maxPending] of its goroutines inside the submitter at any time: the
    tasks of a group that are inside the submitter are among the slots of the
    group that are taken, and these are never more than [maxPending]. *)
Theorem group_capacity_bound (b m : Z) (n : nat) (s : State) (g : nat) :
  (b = 32 \/ b = 64) -> 0 < m -> reachable (NewQueue b m n) s ->
  0 <= wsum (sending_in g) (tasks s) <= slots_taken s g
  /\ slots_taken s g <= maxPending s.
Proof.
  intros Hb Hm Hr.
  assert (Inv s) as HI by (apply (reachable_Inv b m n); [exact Hb | lia | exact Hr]).
  assert (0 < maxPending s) as Hpos.
  { destruct Hr as [acts Hr]. rewrite (proj2 (run_const _ _ _ Hr)). simpl.
    unfold clamp_maxPending.
    assert (0 < MaxInt b) by (unfold MaxInt; destruct Hb as [-> | ->]; simpl; lia).
    destruct (Z.gtb_spec m (MaxInt b)); lia. }
  destruct (slots_taken_bound s g HI Hpos) as [_ Hle].
  split; [|exact Hle]. split.
  - apply wsum_nonneg. intros t. unfold sending_in, sending. repeat case_match; lia.
  - unfold slots_taken.
    pose proof (wsum_le (sending_in g) (active g) (tasks s)
                  (fun _ t _ => sending_in_active g t)).
    pose proof (wsum_nonneg (holding g) (callers s) (holding_nonneg g)). lia.
Qed.

(** *** No deadlock *)

(** X17: the goroutines never wait for each other for ever.  In a state in
    which no goroutine can run a statement, no submitter call is outstanding
    and no receipt is waiting to be taken, every calling goroutine is outside
    [Send], [TrySend] and [Wait], every task and every notifier has finished,
    the lock is free, [receiptWg] and the pending counter are zero, and every
    call made is over. *)
Theorem queue_never_deadlocks (b m : Z) (n : nat) (s : State) :
  (b = 32 \/ b = 64) -> 0 <= m -> reachable (NewQueue b m n) s ->
  stuck s ->
  (forall i c, callers s !! i = Some c -> c = Idle)
  /\ (forall j t, tasks s !! j = Some t -> t_phase t = Finished)
  /\ (forall x y, notifiers s !! x = Some y -> n_phase y = Done)
  /\ groupLock s = false /\ receiptWg s = 0 /\ pending s = 0
  /\ (forall k, (k < length (attempts s))%nat -> settled s k).
Proof.
  intros Hb Hm Hr Hs. pose proof (reachable_Inv b m n s Hb Hm Hr) as HI.
  assert (forall i c, callers s !! i = Some c -> c = Idle) as Hc
    by (intros i c; exact (stuck_callers s i c HI Hs)).
  assert (forall j t, tasks s !! j = Some t -> t_phase t = Finished) as Ht
    by (intros j t; exact (stuck_tasks s j t HI Hs)).
  assert (forall x y, notifiers s !! x = Some y -> n_phase y = Done) as Hn
    by (intros x y; exact (stuck_notifiers s x y HI Hs)).
  assert (receiptWg s = 0) as Hw.
  { rewrite (cnt_receiptWg s (inv_cnt s HI)).
    rewrite (wsum_zero registered), (wsum_zero unreported), (wsum_zero unsettled);
      [reflexivity | | |].
    - intros x y Hx. unfold unsettled. rewrite (Hn x y Hx). reflexivity.
    - intros j t Hj. unfold unreported. rewrite (Ht j t Hj). reflexivity.
    - intros i c Hi. rewrite (Hc i c Hi). reflexivity. }
  split; [exact Hc|]. split; [exact Ht|]. split; [exact Hn|].
  split; [exact (stuck_unlocked s HI Hs)|]. split; [exact Hw|]. split.
  - destruct Hr as [acts Hr].
    rewrite (run_in_flight acts (NewQueue b m n) s eq_refl Hr).
    unfold in_flight. rewrite wsum_zero; [reflexivity|].
    intros j t Hj. unfold counted. rewrite (Ht j t Hj). reflexivity.
  - intros k Hk. exact (drained_settled s k (inv_cnt s HI) (inv_led s HI) Hw Hk).
Qed.

(** *** The cancelled queue context *)




(** *** A queue that was not used *)

Lemma exec_group_after_call (a : Action) (s s' : State) :
  Ledger s -> group_after_call s -> exec a s = Next s' -> group_after_call s'.
Proof.
  intros HL [Hg Hn] H. pose proof (led_callers s HL) as Hc. unfold group_after_call in *.
  split.
  - exec_cases H; simp_state; split_mode; simp_state; intros Hne Hnil;
      try (apply app_eq_nil in Hnil as [_ Hnil]; discriminate);
      try (apply Hg; [congruence | exact Hnil]; fail);
      match goal with
      | Hl : callers s !! _ = Some _ |- _ =>
          pose proof (Hc _ _ _ _ _ Hl eq_refl) as Hk; rewrite Hnil in Hk; discriminate
      end.
  - exec_cases H; simp_state; split_mode; simp_state; intros Hnone;
      try discriminate; try (apply Hn; congruence); try congruence;
      rewrite Hn in * by congruence; simplify_eq/=;
      apply length_zero_iff_nil; rewrite length_alter; reflexivity.
Qed.

Lemma run_group_after_call (acts : list Action) (s s' : State) :
  Inv s -> group_after_call s -> run acts s = Next s' -> group_after_call s'.
Proof.
  revert s. induction acts as [|a acts IH]; intros s HI Hg H; simpl in H.
  - injection H as <-. exact Hg.
  - destruct (exec a s) as [s1| |] eqn:Ha; try discriminate.
    exact (IH s1 (exec_Inv _ _ _ HI Ha)
             (exec_group_after_call _ _ _ (inv_led s HI) Hg Ha) H).
Qed.

Lemma goto_back (s : State) (i : nat) (c1 c2 : Caller) :
  callers s !! i = Some Idle ->
  set_callers (<[i := Idle]> (<[i := c2]> (<[i := c1]> (callers s)))) s = s.
Proof.
  intros Hi. rewrite !list_insert_insert_eq, (list_insert_id _ _ _ Hi).
  destruct s. reflexivity.
Qed.

(** X20: as long as no call of [Send] or [TrySend] has been made, the queue
    has no group, no task and a zero [receiptWg], and a call of [Wait] returns
    at once (through the [q.group == nil] return) and leaves the queue as it
    found it. *)
Theorem Wait_on_unused_queue (b m : Z) (n : nat) (s : State) (i : nat) :
  (b = 32 \/ b = 64) -> 0 <= m -> reachable (NewQueue b m n) s ->
  attempts s = [] -> callers s !! i = Some Idle ->
  group s = None /\ groups s = [] /\ tasks s = [] /\ receiptWg s = 0 /\ pending s = 0
  /\ run [CallWait i; Step i; Step i] s = Next s.
Proof.
  intros Hb Hm Hr Hnil Hi. pose proof (reachable_Inv b m n s Hb Hm Hr) as HI.
  pose proof (inv_led s HI) as HL. pose proof (inv_grp s HI) as HG.
  assert (group s = None /\ groups s = []) as [Hg Hgs].
  { destruct Hr as [acts Hr].
    assert (group_after_call (NewQueue b m n : State)) as H0
      by (split; [intros Hx; simpl in Hx; congruence | reflexivity]).
    destruct (run_group_after_call _ _ _ (NewQueue_Inv b m n Hb Hm) H0 Hr) as [Hga Hgn].
    destruct (group s) as [g|] eqn:Hgs.
    - exfalso. apply Hga; [congruence | exact Hnil].
    - split; [reflexivity | exact (Hgn eq_refl)]. }
  assert (tasks s = []) as Ht.
  { destruct (tasks s) as [|t ts] eqn:Hts; [reflexivity|exfalso].
    destruct (led_tasks s HL 0%nat t) as [md Hk]; [rewrite Hts; reflexivity|].
    rewrite Hnil in Hk. discriminate. }
  assert (notifiers s = []) as Hn.
  { destruct (notifiers s) as [|x xs] eqn:Hxs; [reflexivity|exfalso].
    destruct (led_notifiers s HL 0%nat x) as (md & it & Hk & _); [rewrite Hxs; reflexivity|].
    rewrite Hnil in Hk. discriminate. }
  assert (receiptWg s = 0) as Hw.
  { rewrite (cnt_receiptWg s (inv_cnt s HI)), Ht, Hn. simpl.
    rewrite wsum_zero; [reflexivity|]. intros i' c Hc.
    destruct c; try reflexivity;
      (pose proof (led_callers s HL i' _ _ _ _ Hc eq_refl) as Hk; rewrite Hnil in Hk;
       discriminate). }
  split; [exact Hg|]. split; [exact Hgs|]. split; [exact Ht|]. split; [exact Hw|]. split.
  - destruct Hr as [acts Hr].
    rewrite (run_in_flight acts (NewQueue b m n) s eq_refl Hr). unfold in_flight.
    rewrite Ht. reflexivity.
  - simpl. unfold call_wait. rewrite Hi. unfold caller_step. simpl.
    rewrite list_lookup_insert_eq by exact (lookup_lt_Some _ _ _ Hi).
    unfold wg_Wait, receipt_wg. simpl. rewrite Hw. simpl.
    rewrite list_lookup_insert_eq by (rewrite length_insert; exact (lookup_lt_Some _ _ _ Hi)).
    rewrite Hg. unfold goto. simpl. f_equal.
    exact (goto_back s i Waiting (Drained (length (attempts s))) Hi).
Qed.

(** *** What [TrySend] returns *)

Lemma task_of_fresh (s : State) (k : nat) :
  Ledger s -> (length (attempts s) <= k)%nat -> wsum (task_of k) (tasks s) = 0.
Proof.
  intros HL Hk. apply wsum_zero. intros j t Hj.
  destruct (led_tasks s HL j t Hj) as [md Hat]. apply lookup_lt_Some in Hat.
  unfold task_of, b2z. case_bool_decide; [lia | reflexivity].
Qed.

Lemma exec_Granted (a : Action) (s s' : State) :
  Ledger s -> Granted s -> exec a s = Next s' -> Granted s'.
Proof.
  intros HL HGr H.
  pose proof (led_callers s HL) as Hc.
  assert (forall k, (length (attempts s) <= k)%nat ->
                    wsum (answered k true) (results s) = 0
                    /\ wsum (task_of k) (tasks s) = 0) as Hfresh
    by (intros k Hk; split; [apply answered_fresh | apply task_of_fresh]; assumption).
  unfold Granted in *.
  exec_cases H; simp_state;
    try match goal with
      | Hl : callers s !! _ = Some (Acquired _ _ _ _) |- _ =>
          pose proof (Hc _ _ _ _ _ Hl eq_refl)
      end;
    split_mode; intros k'; specialize (HGr k'); specialize (Hfresh k'); wsum_simp;
    try match goal with
      | |- context [(attempts s ++ [?x]) !! k'] =>
          destruct (decide (k' < length (attempts s))%nat) as [Hlt|Hge];
          [ rewrite lookup_app_l by exact Hlt
          | rewrite lookup_app_r by lia;
            destruct Hfresh as [-> ->]; [lia|];
            destruct (k' - length (attempts s))%nat; simpl; reflexivity ]
      end;
    match goal with
    | |- context [attempts ?s0 !! k'] => destruct (attempts s0 !! k') as [[[|] ?]|] eqn:Hk
    end;
    unfold answered, task_of, b2z in *; simp_state;
    repeat (case_bool_decide; simplify_eq/=); try lia.
Qed.

Lemma run_Granted (acts : list Action) (s s' : State) :
  Inv s -> Granted s -> run acts s = Next s' -> Granted s'.
Proof.
  revert s. induction acts as [|a acts IH]; intros s HI Hg H; simpl in H.
  - injection H as <-. exact Hg.
  - destruct (exec a s) as [s1| |] eqn:Ha; try discriminate.
    exact (IH s1 (exec_Inv _ _ _ HI Ha) (exec_Granted _ _ _ (inv_led s HI) Hg Ha) H).
Qed.

(** X21: [TrySend] returns true exactly when [TryGo] started the task: for
    a call of [TrySend], true was returned if and only if the call has a task,
    it was returned at most once, and false was returned only if the call has
    no task; a call of [Send] returns no value. *)
Theorem TrySend_true_iff_task_started (b m : Z) (n : nat) (s : State) (k : nat)
    (md : Mode) (it : Item) :
  (b = 32 \/ b = 64) -> 0 <= m -> reachable (NewQueue b m n) s ->
  attempts s !! k = Some (md, it) ->
  match md with
  | NonBlocking =>
      ((exists r, results s !! r = Some (k, true))
       <-> exists j t, tasks s !! j = Some t /\ t_attempt t = k)
      /\ wsum (answered k true) (results s) = wsum (task_of k) (tasks s)
      /\ wsum (answered k true) (results s) + wsum (answered k false) (results s) <= 1
  | Blocking => forall r ok, results s !! r <> Some (k, ok)
  end.
Proof.
  intros Hb Hm Hr Hk. pose proof (reachable_Inv b m n s Hb Hm Hr) as HI.
  pose proof (inv_led s HI) as HL. destruct md.
  - intros r ok Hres. destruct (led_results s HL r k ok Hres) as [it' Hit]. congruence.
  - destruct Hr as [acts Hr].
    assert (Granted (NewQueue b m n : State)) as HG0 by (intros k0; reflexivity).
    pose proof (run_Granted _ _ _ (NewQueue_Inv b m n Hb Hm) HG0 Hr k) as Hg.
    rewrite Hk in Hg. split; [|split; [exact Hg|]].
    + split.
      * intros [r Hres].
        pose proof (wsum_lookup_le (answered k true) _ _ _ (answered_nonneg k true) Hres) as Hle.
        unfold answered at 1 in Hle. rewrite bool_decide_eq_true_2 in Hle by reflexivity.
        simpl in Hle.
        destruct (wsum_pos_lookup (task_of k) (tasks s)) as (j & t & Hj & Hpos); [lia|].
        exists j, t. split; [exact Hj|]. unfold task_of, b2z in Hpos.
        case_bool_decide; [assumption | lia].
      * intros (j & t & Hj & Ht).
        pose proof (wsum_lookup_le (task_of k) _ _ _ (task_of_nonneg k) Hj) as Hle.
        unfold task_of at 1 in Hle. rewrite bool_decide_eq_true_2 in Hle by exact Ht.
        simpl in Hle.
        destruct (wsum_pos_lookup (answered k true) (results s)) as (r & x & Hres & Hpos);
          [lia|].
        exists r. unfold answered, b2z in Hpos. case_bool_decide; [congruence | lia].
    + pose proof (cen_tasks s (inv_cen s HI) k) as Hct.
      pose proof (cen_notifiers s (inv_cen s HI) k) as Hcn.
      pose proof (led_one s HL k) as H1. ledger_bounds s k.
      assert (b2z (bool_decide (k < length (attempts s))%nat) <= 1) as Hb1
        by (unfold b2z; case_match; lia).
      lia.
Qed.

(** *** Waiting for the queue *)



End QueueFacts.

(** *** Concrete runs *)

Example stale_group_run_runs :
  run stale_group_run (NewQueue 64 1 2) = Next (after stale_group_run (NewQueue 64 1 2)).
Proof. vm_compute. reflexivity. Qed.

(** C1 (violated): with a limit of one and two goroutines calling [Send],
    the queue reaches a state in which two calls of the submitter run at the
    same time, one in the replaced group and one in the new one. *)
Theorem capacity_exceeded_by_stale_group :
  exists s : DState,
    reachable (NewQueue 64 1 2) s /\ maxPending s = 1 /\ executing s = 2
    /\ pending s = 2.
Proof.
  exists (after stale_group_run (NewQueue 64 1 2)). split.
  - exists stale_group_run. vm_compute. reflexivity.
  - vm_compute. repeat split; reflexivity.
Qed.

Lemma capacity_bound_single_caller_witness :
  executing (after sending_run (NewQueue 64 1 1)) = 1
  /\ executing (after sending_run (NewQueue 64 1 1))
     <= maxPending (after sending_run (NewQueue 64 1 1)).
Proof.
  split; [vm_compute; reflexivity|].
  refine (proj1 (capacity_bound_single_caller 64 1 (after sending_run (NewQueue 64 1 1)) _ _ _)).
  - right. reflexivity.
  - lia.
  - exists sending_run. vm_compute. reflexivity.
Defined.

(** C5 (as stated) fails: in a reachable state the receipt of a task is on
    the channel and the deferred callback has not run, so the events of the
    task are not a beginning of the order in which the decrement callback
    comes before the notifier. *)
Lemma claimed_order_fails :
  reachable (NewQueue 64 0 1) (after early_receipt_run (NewQueue 64 0 1))
  /\ wsum (delivered 0) (written (after early_receipt_run (NewQueue 64 0 1))) = 1
  /\ ~ follows claimed_script (after early_receipt_run (NewQueue 64 0 1)) 0.
Proof.
  split; [|split].
  - exists early_receipt_run. vm_compute. reflexivity.
  - vm_compute. reflexivity.
  - intros (t & v1 & r & e & v2 & Ht & Hp). vm_compute in Ht. injection Ht as <-.
    vm_compute in Hp. destruct Hp as [rest Hp]. discriminate.
Qed.

Lemma sendTx_order_witness :
  follows script (after notifying_run (NewQueue 64 0 1)) 0.
Proof.
  refine (proj1 (sendTx_order 64 0 1 (after notifying_run (NewQueue 64 0 1)) 0
                   (mkTask 0 0 (item 10) (Notifying None)) _ _ _ _)).
  - right. reflexivity.
  - lia.
  - exists notifying_run. vm_compute. reflexivity.
  - vm_compute. reflexivity.
Defined.

Lemma accepted_call_gets_one_receipt_witness :
  accepted (after [CallSend 0 (item 10)] (NewQueue 64 1 1)) 0
  /\ wsum (delivered 0)
          (written (after rest_of_send (after [CallSend 0 (item 10)] (NewQueue 64 1 1)))) = 1.
Proof.
  assert (accepted (after [CallSend 0 (item 10)] (NewQueue 64 1 1)) 0) as Ha by exact I.
  split; [exact Ha|].
  destruct (accepted_call_gets_one_receipt 64 1 1
              (after [CallSend 0 (item 10)] (NewQueue 64 1 1)) 0)
    as (md & it & _ & _ & _ & Hrun).
  - right. reflexivity.
  - lia.
  - exists [CallSend 0%nat (item 10)]. vm_compute. reflexivity.
  - exact Ha.
  - destruct (Hrun rest_of_send
                (after rest_of_send (after [CallSend 0 (item 10)] (NewQueue 64 1 1))))
      as (_ & _ & Hstuck & _).
    + vm_compute. reflexivity.
    + apply Hstuck. apply quiet_stuck. vm_compute. reflexivity.
Defined.

Lemma rejected_TrySend_has_no_effect_witness :
  0 < wsum (answered 1 false) (results (after rejected_run (NewQueue 64 1 1)))
  /\ forall j t, tasks (after rejected_run (NewQueue 64 1 1)) !! j = Some t -> t_attempt t <> 1%nat.
Proof.
  assert (0 < wsum (answered 1 false) (results (after rejected_run (NewQueue 64 1 1)))) as Hr
    by (vm_compute; reflexivity).
  split; [exact Hr|].
  refine (proj1 (rejected_TrySend_has_no_effect 64 1 1
                   (after rejected_run (NewQueue 64 1 1)) 1 _ _ _ Hr)).
  - right. reflexivity.
  - lia.
  - exists rejected_run. vm_compute. reflexivity.
Defined.




Lemma queue_never_panics_witness :
  exec (Step 0) (after solo_wait_run (NewQueue 64 1 1)) <> Panic.
Proof.
  refine (queue_never_panics 64 1 (after solo_wait_run (NewQueue 64 1 1)) (Step 0) _ _ _).
  - right. reflexivity.
  - lia.
  - exists solo_wait_run. vm_compute. reflexivity.
Defined.

(** X22: [Wait] can panic when another goroutine calls [Send] during it.
    Goroutine 0 is parked in [q.receiptWg.Wait()] while a call of goroutine 1
    is outstanding; the notifier of that call brings the counter to zero and
    releases goroutine 0; before goroutine 0 runs again, goroutine 1 calls
    [Send], whose [q.receiptWg.Add(1)] makes the counter one; goroutine 0
    then finds the [WaitGroup] in use again, which is the panic of
    [sync.WaitGroup] for a reuse before the previous [Wait] has returned. *)
Theorem Wait_panics_when_Send_races :
  exists s : DState,
    reachable (NewQueue 64 0 2) s
    /\ callers s !! 0%nat = Some Parked
    /\ (exists it, callers s !! 1%nat = Some (Entered Blocking 1 it))
    /\ receiptWake s = 1 /\ receiptWg s = 1
    /\ exec (Step 0) s = Panic.
Proof.
  exists (after reuse_run (NewQueue 64 0 2)). split.
  - exists reuse_run. vm_compute. reflexivity.
  - split; [vm_compute; reflexivity|]. split; [eexists; vm_compute; reflexivity|].
    repeat split; vm_compute; reflexivity.
Qed.

Lemma NewQueue_clamps_maxPending_witness :
  maxPending (NewQueue 64 (2 ^ 64 - 1) 1 : DState) = MaxInt 64.
Proof.
  refine (proj1 (NewQueue_clamps_maxPending 64 (2 ^ 64 - 1) 1 _ _) _).
  - right. reflexivity.
  - vm_compute. split; [discriminate | reflexivity].
  - vm_compute. reflexivity.
Defined.

Lemma pending_counts_tasks_in_flight_witness :
  pending (after sending_run (NewQueue 64 1 1))
  = wrap64 (in_flight (after sending_run (NewQueue 64 1 1)))
  /\ in_flight (after sending_run (NewQueue 64 1 1)) = 1.
Proof.
  split; [|vm_compute; reflexivity].
  refine (proj1 (pending_counts_tasks_in_flight 64 1 1 (after sending_run (NewQueue 64 1 1))
                   _ _ _)).
  - right. reflexivity.
  - lia.
  - exists sending_run. vm_compute. reflexivity.
Defined.

Lemma pending_callbacks_bounded_single_caller_witness :
  In (0%nat, EvPending 1 1) (trace (after sending_run (NewQueue 64 1 1)))
  /\ 0 <= 1 <= maxPending (after sending_run (NewQueue 64 1 1)).
Proof.
  assert (In (0%nat, EvPending 1 1) (trace (after sending_run (NewQueue 64 1 1)))) as Hin
    by (vm_compute; left; reflexivity).
  split; [exact Hin|].
  refine (proj2 (proj2 (pending_callbacks_bounded_single_caller 64 1
                          (after sending_run (NewQueue 64 1 1)) _ _ _)) 0%nat 1 1 Hin).
  - right. reflexivity.
  - lia.
  - exists sending_run. vm_compute. reflexivity.
Defined.

Lemma receipt_carries_submitter_result_witness :
  exists j t r e,
    tasks (after whole_send (NewQueue 64 1 1)) !! j = Some t
    /\ t_attempt t = 0%nat
    /\ (exists md, attempts (after whole_send (NewQueue 64 1 1)) !! 0%nat = Some (md, t_item t))
    /\ 0%nat = it_ch (t_item t)
    /\ mkTxReceipt 10%nat None None = mkTxReceipt (it_id (t_item t)) r e
    /\ In (j, EvSent r e) (trace (after whole_send (NewQueue 64 1 1)))
    /\ (forall r' e', In (j, EvSent r' e') (trace (after whole_send (NewQueue 64 1 1))) ->
                      r' = r /\ e' = e).
Proof.
  refine (receipt_carries_submitter_result 64 1 1 (after whole_send (NewQueue 64 1 1)) 0
            (mkDelivery 0 (mkTxReceipt 10%nat None None) 0) _ _ _ _).
  - right. reflexivity.
  - lia.
  - exists whole_send. vm_compute. reflexivity.
  - vm_compute. reflexivity.
Defined.

Lemma unlimited_queue_never_refuses_witness :
  exists s', exec (Step 0) (after try_run (NewQueue 64 0 1)) = Next s'
             /\ callers s' !! 0%nat = Some (Acquired NonBlocking 0 (item 10) 0).
Proof.
  refine (proj2 (proj2 (unlimited_queue_never_refuses 64 1 (after try_run (NewQueue 64 0 1))
                          _ _)) 0%nat NonBlocking 0%nat (item 10) 0%nat _).
  - right. reflexivity.
  - exists try_run. vm_compute. reflexivity.
  - vm_compute. reflexivity.
Defined.

Lemma slot_refused_exactly_when_full_witness :
  slots_taken (after full_run (NewQueue 64 1 1)) 0 = 1
  /\ exec (Step 0) (after full_run (NewQueue 64 1 1))
     = Next (goto 0 (Refused 1 (item 11)) (after full_run (NewQueue 64 1 1))).
Proof.
  split; [vm_compute; reflexivity|].
  refine (proj2 (proj2 (proj2 (slot_refused_exactly_when_full 64 1 1
                                 (after full_run (NewQueue 64 1 1)) 0 NonBlocking 1
                                 (item 11) 0 _ _ _ _))) _).
  - right. reflexivity.
  - lia.
  - exists full_run. vm_compute. reflexivity.
  - vm_compute. reflexivity.
  - vm_compute. reflexivity.
Defined.


Lemma failed_send_cancels_group_witness :
  In (0%nat, EvReturn (Some tt)) (trace (after stale_group_run (NewQueue 64 1 2)))
  /\ cancelled (after stale_group_run (NewQueue 64 1 2)) 0.
Proof.
  assert (In (0%nat, EvReturn (Some tt)) (trace (after stale_group_run (NewQueue 64 1 2))))
    as Hin by (vm_compute; do 5 right; left; reflexivity).
  split; [exact Hin|].
  refine (proj1 (failed_send_cancels_group 64 1 2 (after stale_group_run (NewQueue 64 1 2)) 0
                   (mkTask 0 1 (item 11) Finished) tt _ _ _ _ _ Hin)).
  - right. reflexivity.
  - lia.
  - exists stale_group_run. vm_compute. reflexivity.
  - vm_compute. reflexivity.
  - right. reflexivity.
Defined.

Lemma one_submission_per_call_witness :
  (length (List.filter is_send
             (events_of 0 (trace (after sending_run (NewQueue 64 1 1))))) <= 1)%nat
  /\ forall g c, In (0%nat, EvSend g c) (trace (after sending_run (NewQueue 64 1 1))) ->
                 g = 0%nat /\ c = tt.
Proof.
  refine (proj2 (proj2 (one_submission_per_call 64 1 1 (after sending_run (NewQueue 64 1 1)) 0
                          (mkTask 0 0 (item 10) Sending) _ _ _ _))).
  - right. reflexivity.
  - lia.
  - exists sending_run. vm_compute. reflexivity.
  - vm_compute. reflexivity.
Defined.

Lemma groupLock_guards_groupContext_witness :
  callers (after locked_run (NewQueue 64 1 1)) !! 0%nat = Some (Locked Blocking 0 (item 10))
  /\ groupLock (after locked_run (NewQueue 64 1 1)) = true.
Proof.
  assert (callers (after locked_run (NewQueue 64 1 1)) !! 0%nat
          = Some (Locked Blocking 0 (item 10))) as Hl by (vm_compute; reflexivity).
  split; [exact Hl|].
  refine (proj2 (proj1 (groupLock_guards_groupContext 64 1 1
                          (after locked_run (NewQueue 64 1 1)) _ _ _)) _).
  - right. reflexivity.
  - lia.
  - exists locked_run. vm_compute. reflexivity.
  - exists 0%nat, Blocking, 0%nat, (item 10). left. exact Hl.
Defined.

Lemma group_capacity_bound_witness :
  wsum (sending_in 1) (tasks (after stale_group_run (NewQueue 64 1 2))) = 1
  /\ slots_taken (after stale_group_run (NewQueue 64 1 2)) 1
     <= maxPending (after stale_group_run (NewQueue 64 1 2)).
Proof.
  split; [vm_compute; reflexivity|].
  refine (proj2 (group_capacity_bound 64 1 2 (after stale_group_run (NewQueue 64 1 2)) 1
                   _ _ _)).
  - right. reflexivity.
  - lia.
  - exists stale_group_run. vm_compute. reflexivity.
Defined.

Lemma queue_never_deadlocks_witness :
  work_left (after whole_send (NewQueue 64 1 1)) = 0
  /\ receiptWg (after whole_send (NewQueue 64 1 1)) = 0
  /\ pending (after whole_send (NewQueue 64 1 1)) = 0.
Proof.
  assert (work_left (after whole_send (NewQueue 64 1 1)) = 0) as Hz
    by (vm_compute; reflexivity).
  split; [exact Hz|].
  destruct (queue_never_deadlocks 64 1 1 (after whole_send (NewQueue 64 1 1)))
    as (_ & _ & _ & _ & Hw & Hp & _).
  - right. reflexivity.
  - lia.
  - exists whole_send. vm_compute. reflexivity.
  - apply quiet_stuck. exact Hz.
  - split; [exact Hw | exact Hp].
Defined.


Lemma Wait_on_unused_queue_witness :
  run [CallWait 0; Step 0; Step 0] (NewQueue 64 1 1 : DState) = Next (NewQueue 64 1 1).
Proof.
  refine (proj2 (proj2 (proj2 (proj2 (proj2
            (Wait_on_unused_queue 64 1 1 (NewQueue 64 1 1 : DState) 0 _ _ _ _ _)))))).
  - right. reflexivity.
  - lia.
  - exists []. reflexivity.
  - reflexivity.
  - reflexivity.
Defined.

Lemma TrySend_true_iff_task_started_witness :
  wsum (answered 0 true) (results (after granted_run (NewQueue 64 1 1)))
  = wsum (task_of 0) (tasks (after granted_run (NewQueue 64 1 1)))
  /\ wsum (task_of 0) (tasks (after granted_run (NewQueue 64 1 1))) = 1.
Proof.
  split; [|vm_compute; reflexivity].
  refine (proj1 (proj2 (TrySend_true_iff_task_started 64 1 1
                          (after granted_run (NewQueue 64 1 1)) 0 NonBlocking (item 10)
                          _ _ _ _))).
  - right. reflexivity.
  - lia.
  - exists granted_run. vm_compute. reflexivity.
  - vm_compute. reflexivity.
Defined.

End TxQueueFacts.
